(** * sqliteinit: database lifecycle and migration engine

    A shallow embedding of package [sqliteinit] (Go): script discovery
    ([listMigrationFiles]), the migration runner ([migrate],
    [applySchemaInit], [applyMigration]), schema bookkeeping
    ([fetchSchemaVersion], [fetchAppliedMigrations], [getStatus]) and the
    public lifecycle operations ([Open], [Create], [Delete], [Status]).

    Go strings are byte strings: they are modelled by [string], whose
    characters are the 256 byte values.  Go's [int] is the 64-bit integer
    of the supported platforms, modelled by [Z] with the range check that
    [strconv.Atoi] performs.  Maps ([map[int]string], [map[string]bool])
    are [gmap]s.  Functions return what they leave behind (the database,
    the world of files) next to their result, and the messages they hand
    to the logger.  The SQL engine running a user script, [filepath.Dir]
    and [os.Remove] are external collaborators and are taken as an
    interface ([Platform]).

    A user script is raw SQL: it can end the transaction it runs in, so
    the engine works on the state of the connection, the committed
    database and the open transaction, if one is open.

    Not modelled: the deadline of the migration context, failures of
    [BeginTx] and [db.Close], characters of a location that have a
    meaning of their own in a connection string ([?], [#], [%]), and the
    end of the shared in-memory database when its last handle is closed:
    the world keeps it as the last connection left it. *)

From Stdlib Require Import ZArith Lia Ascii String Bool.
From stdpp Require Import gmap strings list pretty sorting.

Local Open Scope Z_scope.

(** ** Package [strings] *)

Module Strings.

(** [strings.HasPrefix]. *)
Fixpoint HasPrefix (s prefix : string) : bool :=
  match prefix, s with
  | EmptyString, _ => true
  | String p prefix', String c s' => Ascii.eqb c p && HasPrefix s' prefix'
  | String _ _, EmptyString => false
  end.

(** [strings.Contains]: [substr] occurs somewhere in [s]. *)
Fixpoint Contains (s substr : string) : bool :=
  HasPrefix s substr ||
  match s with
  | EmptyString => false
  | String _ s' => Contains s' substr
  end.

(** Simple case folding of one byte.  [strings.EqualFold] folds runes
    with [unicode.SimpleFold]; on the ASCII range that is the exchange
    of [A-Z] with [a-z].  Bytes from 128 up are left alone: they can
    only fold to the letters k and s (Kelvin sign, long s), neither of
    which occurs in the one string this package compares against. *)
Definition fold_byte (c : ascii) : ascii :=
  let n := N_of_ascii c in
  if ((65 <=? n) && (n <=? 90))%N then ascii_of_N (n + 32) else c.

(** [strings.EqualFold]. *)
Fixpoint EqualFold (s t : string) : bool :=
  match s, t with
  | EmptyString, EmptyString => true
  | String a s', String b t' =>
      Ascii.eqb (fold_byte a) (fold_byte b) && EqualFold s' t'
  | _, _ => false
  end.

(** The built-in comparison [s < t] of Go strings: byte-wise
    lexicographic order. *)
Definition lt (s t : string) : bool := String.ltb s t.

End Strings.

(** ** Package [strconv] *)

Module Strconv.

Inductive NumErrorKind := ErrSyntax | ErrRange.

Definition is_digit (c : ascii) : bool :=
  ((48 <=? N_of_ascii c) && (N_of_ascii c <=? 57))%N.

Definition digit_value (c : ascii) : Z := Z.of_N (N_of_ascii c) - 48.

(** Value of a run of decimal digits read from the left with accumulator
    [acc]; [None] when a byte is not a digit. *)
Fixpoint parse_digits (s : string) (acc : Z) : option Z :=
  match s with
  | EmptyString => Some acc
  | String c s' =>
      if is_digit c then parse_digits s' (10 * acc + digit_value c) else None
  end.

Definition int_min : Z := - 2 ^ 63.
Definition int_max : Z := 2 ^ 63 - 1.

(** [strconv.Atoi]: an optional sign, then at least one digit, nothing
    else; the value has to fit [int].  (For a text that both overflows
    and is ill-formed the library reports whichever it meets first; here it
    is [ErrSyntax].  The package never looks at the kind.) *)
Definition Atoi (s : string) : NumErrorKind + Z :=
  let '(neg, digits) :=
    match s with
    | String c rest =>
        if Ascii.eqb c "-" then (true, rest)
        else if Ascii.eqb c "+" then (false, rest)
        else (false, s)
    | EmptyString => (false, s)
    end in
  match digits with
  | EmptyString => inl ErrSyntax
  | _ =>
      match parse_digits digits 0 with
      | None => inl ErrSyntax
      | Some n =>
          let v := if neg then - n else n in
          if (int_min <=? v) && (v <=? int_max) then inr v else inl ErrRange
      end
  end.

(** [strconv.Itoa]. *)
Definition Itoa (i : Z) : string := pretty i.

End Strconv.

(** ** Errors *)

(** What a query or statement of [database/sql] can return. *)
Inductive sql_error : Type :=
| DriverError (msg : string)   (* message produced by the SQLite driver *)
| ErrNoRows                    (* sql.ErrNoRows *)
| ErrTxDone.                   (* sql.ErrTxDone *)

(** [err.Error()] for those. *)
Definition sql_Error (e : sql_error) : string :=
  match e with
  | DriverError msg => msg
  | ErrNoRows => "sql: no rows in result set"
  | ErrTxDone => "sql: transaction has already been committed or rolled back"
  end.

(** One constructor per [fmt.Errorf] of the package, [Wrap prefix e] standing
    for the ["prefix: %w"] pattern. *)
Inductive error : Type :=
| Sql (e : sql_error)
| FsError (op path : string)                       (* *fs.PathError *)
| NumError (fn num : string) (k : Strconv.NumErrorKind)   (* *strconv.NumError *)
| Wrap (prefix : string) (e : error)
| ErrCreateMemory             (* Create requires a persistent path, not :memory: *)
| ErrAlreadyExists (path : string)                (* %s: file already exists *)
| ErrDeleteMemory                        (* cannot delete in-memory database *)
| ErrNotRegular (name : string)                   (* %s: not a regular file *)
| ErrStillExists (path : string)            (* %s: still exists after delete *)
| ErrStatusMemory               (* cannot check status of in-memory database *)
| ErrProduction (envvar : string)
    (* in-memory database not allowed in production (%s=production) *)
| ErrNotFound (path : string)                (* %s: database file not found *)
| ErrNotInitialized   (* schema version check failed: database not initialized *)
| ErrVersionMismatch (required found : Z)
    (* schema version mismatch: required %d, found %d *)
| ErrNotAbsolute (path : string)
    (* %s: persistent database path must be absolute *)
| ErrExtension (path : string)                 (* %s: expected .db extension *)
| ErrIsDirectory (path : string)                  (* %s: path is a directory *)
| ErrNoParent (dir : string)           (* %s: parent directory does not exist *)
| ErrInvalidVersion (value : string) (e : error)
    (* invalid schema.version %q: %w *)
| ErrInvalidMigrationID (name : string) (e : error)
    (* invalid migration id in %q: %w *)
| ErrDuplicateID (id : Z) (existing name : string)
    (* duplicate migration ID %d: %q and %q *)
| ErrRowsAffected (rows : Z).
    (* schema.version update affected %d rows, expected 1 *)

(** ** Logging ([log/slog]) *)

Inductive Level := LevelDebug | LevelInfo.

Record LogEntry := {
  log_level : Level;
  log_msg : string;
  log_attrs : list (string * string)
}.

Definition Debug (msg : string) (attrs : list (string * string)) : LogEntry :=
  {| log_level := LevelDebug; log_msg := msg; log_attrs := attrs |}.

Definition Info (msg : string) (attrs : list (string * string)) : LogEntry :=
  {| log_level := LevelInfo; log_msg := msg; log_attrs := attrs |}.

(** ** Package [io/fs]: the read-only file collection *)

Record DirEntry := { Name : string; IsDir : bool }.

(** An [fs.FS] as far as the package looks at it: the entries of its root
    directory and the content of its files. *)
Record FS := {
  ReadDir : error + list DirEntry;     (* fs.ReadDir(fsys, ".") *)
  ReadFile : string → error + string   (* fs.ReadFile(fsys, name) *)
}.

(** ** Script discovery *)

Record migrationScript := { ID : Z; Comment : string; Path : string }.

Module Regexp.

(** [n] leading digits, [\d{n}]: the digits and the rest of the text. *)
Fixpoint digits (n : nat) (s : string) : option (string * string) :=
  match n with
  | O => Some (EmptyString, s)
  | S n' =>
      match s with
      | String c s' =>
          if Strconv.is_digit c then
            match digits n' s' with
            | Some (ds, rest) => Some (String c ds, rest)
            | None => None
            end
          else None
      | EmptyString => None
      end
  end.

(** [.] matches every character but the line feed.  On the bytes of a
    name: every byte but 10, since the line feed is no part of a longer
    UTF-8 sequence and a byte that is not valid UTF-8 is matched as the
    replacement character. *)
Definition dot (c : ascii) : bool := negb (Ascii.eqb c "010"%char).

Fixpoint all_dot (s : string) : bool :=
  match s with
  | EmptyString => true
  | String c s' => dot c && all_dot s'
  end.

(** The text before a final [suffix], when [s] ends in it. *)
Fixpoint strip_suffix (s suffix : string) : option string :=
  if String.eqb s suffix then Some EmptyString
  else
    match s with
    | String c s' =>
        match strip_suffix s' suffix with
        | Some before => Some (String c before)
        | None => None
        end
    | EmptyString => None
    end.

(** [reMigrationFile.FindStringSubmatch]: the two groups of
    [^(\d{14})_(.+)\.sql$], [None] for no match.  The pattern is
    anchored at both ends, so the groups are determined: the first is
    the 14 leading bytes and the second is all that lies between the
    underscore and the final [.sql]. *)
Definition FindStringSubmatch (name : string) : option (string * string) :=
  match digits 14 name with
  | Some (prefix, String "_" rest) =>
      match strip_suffix rest ".sql" with
      | Some comment =>
          match comment with
          | EmptyString => None
          | _ => if all_dot comment then Some (prefix, comment) else None
          end
      | None => None
      end
  | _ => None
  end.

End Regexp.

(** [sort.Slice(scripts, less)], as an insertion sort.  The library
    function is not stable; the scripts sorted here have pairwise distinct
    paths, for which every sorting algorithm returns the same slice (lemma
    [sort_Slice_scripts_unique] below).  The same sort stands for
    [ORDER BY path], whose column is [UNIQUE]. *)
Section Sort.
Context {A : Type} (less : A → A → bool).

Fixpoint sort_insert (x : A) (l : list A) : list A :=
  match l with
  | [] => [x]
  | y :: l' => if less x y then x :: y :: l' else y :: sort_insert x l'
  end.

Fixpoint sort_Slice (l : list A) : list A :=
  match l with
  | [] => []
  | x :: l' => sort_insert x (sort_Slice l')
  end.
End Sort.

Definition lessPath (a b : migrationScript) : bool :=
  Strings.lt (Path a) (Path b).

(** The [for _, e := range entries] loop of [listMigrationFiles], with its
    two locals [scripts] and [seenIDs] and the logger's output so far. *)
Fixpoint scanEntries (entries : list DirEntry)
    (scripts : list migrationScript) (seenIDs : gmap Z string)
    (log : list LogEntry) : list LogEntry * (error + list migrationScript) :=
  match entries with
  | [] => (log, inr scripts)
  | e :: entries' =>
      if IsDir e then scanEntries entries' scripts seenIDs log
      else
        let name := Name e in
        match Regexp.FindStringSubmatch name with
        | None =>
            scanEntries entries' scripts seenIDs
              (log ++ [Debug "skipping non-migration file" [("name", name)]])
        | Some (m1, m2) =>
            match Strconv.Atoi m1 with
            | inl k =>
                (log, inl (ErrInvalidMigrationID name (NumError "Atoi" m1 k)))
            | inr id =>
                match seenIDs !! id with
                | Some existing => (log, inl (ErrDuplicateID id existing name))
                | None =>
                    scanEntries entries'
                      (scripts ++ [{| ID := id; Comment := m2; Path := name |}])
                      (<[id := name]> seenIDs) log
                end
            end
        end
  end.

(** [listMigrationFiles]: the scripts of the collection, sorted by path. *)
Definition listMigrationFiles (migrationsFS : FS)
    : list LogEntry * (error + list migrationScript) :=
  match ReadDir migrationsFS with
  | inl err => ([], inl err)
  | inr entries =>
      match scanEntries entries [] ∅ [] with
      | (log, inl err) => (log, inl err)
      | (log, inr scripts) => (log, inr (sort_Slice lessPath scripts))
      end
  end.

(** ** The database *)

(** A row of table [config]. *)
Record ConfigRow := {
  key : string;
  value : string;
  created_at : Z;
  updated_at : Z
}.

(** A row of table [schema_migrations]. *)
Record MigrationRow := {
  row_id : Z;
  row_comment : string;
  row_path : string;
  row_applied_at : Z;
  row_created_at : Z;
  row_updated_at : Z
}.

(** A database: the two infrastructure tables, each absent ([None]) until
    created, and whatever the user scripts have built, which the package
    never looks at. *)
Record DB := {
  config : option (list ConfigRow);
  schema_migrations : option (list MigrationRow);
  user_data : list string
}.

Definition emptyDB : DB :=
  {| config := None; schema_migrations := None; user_data := [] |}.

(** What [os.Stat] can find at a path (symbolic links resolved). *)
Inductive Node :=
| Directory
| RegularFile (content : option DB)   (* [None]: not a database file *)
| Irregular.                          (* device, pipe, socket, ... *)

(** ** The connection

    The package gives a database one connection ([SetMaxOpenConns(1)]).
    Its state is the database as committed and, while a transaction is
    open on it, the uncommitted working state. *)
Record Tx := { tx_db : DB; tx_work : option DB }.

(** [db.BeginTx]. *)
Definition BeginTx (db : DB) : Tx := {| tx_db := db; tx_work := Some db |}.

(** What the next statement on the connection works on: the working
    state of the open transaction, the committed database without one. *)
Definition held (tx : Tx) : DB := default (tx_db tx) (tx_work tx).
Arguments held !tx /.

(** ** External collaborators *)

Class Platform := {
  (** the SQL engine executing the raw text of a user script as one
      statement batch on the connection: the batch can change the working
      state, end the transaction ([COMMIT], [ROLLBACK]) and go on without
      one, where every statement is committed at once, or open another;
      when it fails, what its earlier statements did is still there *)
  exec_script : string → Tx → Tx * option sql_error;
  (** [filepath.Dir] *)
  filepath_Dir : string → string;
  (** [os.Remove] *)
  os_Remove : string → gmap string Node → gmap string Node * option error
}.

(** ** SQL statements of the package *)

Definition has_key (k : string) (r : ConfigRow) : bool := String.eqb (key r) k.

(** [SELECT value FROM config WHERE key = 'schema.version'], scanned into
    a string by [QueryRowContext(...).Scan]. *)
Definition select_schema_version (db : DB) : sql_error + string :=
  match config db with
  | None => inl (DriverError "no such table: config")
  | Some rows =>
      match filter (λ r, has_key "schema.version" r = true) rows with
      | [] => inl ErrNoRows
      | r :: _ => inr (value r)
      end
  end.

Definition lessRowPath (a b : MigrationRow) : bool :=
  Strings.lt (row_path a) (row_path b).

(** [SELECT id, comment, path, applied_at FROM schema_migrations ORDER BY path]. *)
Definition select_applied (db : DB) : sql_error + list MigrationRow :=
  match schema_migrations db with
  | None => inl (DriverError "no such table: schema_migrations")
  | Some rows => inr (sort_Slice lessRowPath rows)
  end.

(** The result of a statement run by [ExecContext]: the new state and
    [RowsAffected]. *)
Definition statement := DB → sql_error + DB * Z.

(** [schema.sql]: creates both tables and seeds the three config rows. *)
Definition schema_sql : statement := λ db,
  match schema_migrations db with
  | Some _ => inl (DriverError "table schema_migrations already exists")
  | None =>
      match config db with
      | Some _ => inl (DriverError "table config already exists")
      | None =>
          inr ({| config := Some
                    [ {| key := "schema.version"; value := "0";
                         created_at := 0; updated_at := 0 |};
                      {| key := "app.version"; value := "";
                         created_at := 0; updated_at := 0 |};
                      {| key := "db.created_at"; value := "";
                         created_at := 0; updated_at := 0 |} ];
                  schema_migrations := Some [];
                  user_data := user_data db |}, 3)
      end
  end.

(** [INSERT INTO schema_migrations (...) VALUES (id, comment, path, ts, ts, ts)]
    under the table's [PRIMARY KEY (id)] and [UNIQUE (path)].  The texts
    are those of the default driver, which puts the name and the number of
    the result code around the message of SQLite. *)
Definition insert_migration (id : Z) (comment path : string) (ts : Z)
    : statement := λ db,
  match schema_migrations db with
  | None => inl (DriverError "no such table: schema_migrations")
  | Some rows =>
      if existsb (λ r, row_id r =? id) rows then
        inl (DriverError
               "constraint failed: UNIQUE constraint failed: schema_migrations.id (1555)")
      else if existsb (λ r, String.eqb (row_path r) path) rows then
        inl (DriverError
               "constraint failed: UNIQUE constraint failed: schema_migrations.path (2067)")
      else
        inr ({| config := config db;
                schema_migrations := Some (rows ++
                  [ {| row_id := id; row_comment := comment; row_path := path;
                       row_applied_at := ts; row_created_at := ts;
                       row_updated_at := ts |} ]);
                user_data := user_data db |}, 1)
  end.

Definition set_value (k v : string) (ts : Z) (r : ConfigRow) : ConfigRow :=
  if has_key k r
  then {| key := key r; value := v; created_at := created_at r;
          updated_at := ts |}
  else r.

(** [UPDATE config SET value = v, updated_at = ts WHERE key = k]. *)
Definition update_config (k v : string) (ts : Z) : statement := λ db,
  match config db with
  | None => inl (DriverError "no such table: config")
  | Some rows =>
      inr ({| config := Some (map (set_value k v ts) rows);
              schema_migrations := schema_migrations db;
              user_data := user_data db |},
           Z.of_nat (length (filter (λ r, has_key k r = true) rows)))
  end.

(** ** Transactions ([database/sql.Tx]) *)

(** [tx.ExecContext] with one of the statements of the package: it runs
    on what the connection holds, and a failing statement changes
    nothing.  Inside the transaction the result is the new working
    state; when a script has ended the transaction, the connection
    commits every statement at once. *)
Definition ExecContext (tx : Tx) (stmt : statement) : Tx * (sql_error + Z) :=
  match stmt (held tx) with
  | inl err => (tx, inl err)
  | inr (d, n) =>
      match tx_work tx with
      | Some _ => ({| tx_db := tx_db tx; tx_work := Some d |}, inr n)
      | None => ({| tx_db := d; tx_work := None |}, inr n)
      end
  end.

(** [tx.Commit]: the engine refuses to commit when no transaction is
    open. *)
Definition Commit (tx : Tx) : Tx * option error :=
  match tx_work tx with
  | None =>
      (tx, Some (Sql (DriverError
                        "SQL logic error: cannot commit - no transaction is active (1)")))
  | Some w => ({| tx_db := w; tx_work := None |}, None)
  end.

(** [tx.Rollback]: drops the working state; nothing happens when no
    transaction is open. *)
Definition Rollback (tx : Tx) : Tx := {| tx_db := tx_db tx; tx_work := None |}.

(** [defer tx.Rollback()]: runs when the function returns, whatever the
    path; the database is what the connection then holds. *)
Definition deferred_Rollback {R : Type} (body : Tx * R) : DB * R :=
  (held (Rollback (fst body)), snd body).

(** ** Schema bookkeeping *)

(** [isNoSuchTable]. *)
Definition isNoSuchTable (err : option sql_error) : bool :=
  match err with
  | None => false
  | Some e => Strings.Contains (sql_Error e) "no such table"
  end.

(** [fetchSchemaVersion]: [inr None] is Go's [(nil, nil)]. *)
Definition fetchSchemaVersion (db : DB) : error + option Z :=
  match select_schema_version db with
  | inl err =>
      if isNoSuchTable (Some err) then inr None
      else inl (Wrap "fetch schema.version" (Sql err))
  | inr value =>
      match Strconv.Atoi value with
      | inl k => inl (ErrInvalidVersion value (NumError "Atoi" value k))
      | inr v => inr (Some v)
      end
  end.

Record AppliedMigration := {
  Applied_ID : Z;
  Applied_Comment : string;
  Applied_Path : string;
  AppliedAt : Z      (* time.Unix(applied_at, 0).UTC(), in seconds *)
}.

Definition scan_row (r : MigrationRow) : AppliedMigration :=
  {| Applied_ID := row_id r; Applied_Comment := row_comment r;
     Applied_Path := row_path r; AppliedAt := row_applied_at r |}.

(** [fetchAppliedMigrations]. *)
Definition fetchAppliedMigrations (db : DB) : error + list AppliedMigration :=
  match select_applied db with
  | inl err => if isNoSuchTable (Some err) then inr [] else inl (Sql err)
  | inr rows => inr (map scan_row rows)
  end.

(** ** Configuration *)

Record Config := {
  cfg_Path : string;
  Migrations : option FS;
  ProductionEnvVar : string;
  AllowMemoryInProduction : bool;
  SkipMigrations : bool;
  MigrationTimeout : Z;          (* nanoseconds *)
  AppVersion : string;
  RequiredSchemaVersion : Z
}.

(** The [appliedPaths] map of [migrate] and [getStatus]. *)
Definition appliedPathsOf (applied : list AppliedMigration) : gmap string bool :=
  foldl (λ m a, <[Applied_Path a := true]> m) ∅ applied.

(** Indexing a [map[string]bool]: [false] for a missing key. *)
Definition index (m : gmap string bool) (k : string) : bool :=
  default false (m !! k).

(** ** The migration runner *)

Section Runner.
Context {P : Platform}.

(** [applySchemaInit]; [now] is the reading of [time.Now().UTC()].  The
    embedded [schema.sql] is always there to be read. *)
Definition applySchemaInit (db : DB) (cfg : Config) (now : Z)
    : DB * option error :=
  let tx := BeginTx db in
  deferred_Rollback
    match ExecContext tx schema_sql with
    | (tx, inl err) => (tx, Some (Wrap "exec schema.sql" (Sql err)))
    | (tx, inr _) =>
        let ts := now in
        match ExecContext tx (insert_migration 0 "init" "schema.sql" ts) with
        | (tx, inl err) => (tx, Some (Wrap "record init" (Sql err)))
        | (tx, inr _) =>
            if String.eqb (AppVersion cfg) "" then Commit tx
            else
              match ExecContext tx
                      (update_config "app.version" (AppVersion cfg) ts) with
              | (tx, inl err) => (tx, Some (Wrap "set app.version" (Sql err)))
              | (tx, inr _) =>
                  match ExecContext tx
                          (update_config "db.created_at" (Strconv.Itoa ts) ts)
                  with
                  | (tx, inl err) =>
                      (tx, Some (Wrap "set db.created_at" (Sql err)))
                  | (tx, inr _) => Commit tx
                  end
              end
        end
    end.

(** [applyMigration]. *)
Definition applyMigration (db : DB) (migrationsFS : FS) (s : migrationScript)
    (now : Z) : DB * option error :=
  match ReadFile migrationsFS (Path s) with
  | inl err => (db, Some (Wrap "read" err))
  | inr sqlBytes =>
      let tx := BeginTx db in
      deferred_Rollback
        match exec_script sqlBytes tx with
        | (tx, Some err) => (tx, Some (Wrap "exec" (Sql err)))
        | (tx, None) =>
            let ts := now in
            match ExecContext tx
                    (insert_migration (ID s) (Comment s) (Path s) ts) with
            | (tx, inl err) => (tx, Some (Wrap "record" (Sql err)))
            | (tx, inr _) =>
                match ExecContext tx
                        (update_config "schema.version"
                           (Strconv.Itoa (ID s)) ts) with
                | (tx, inl err) =>
                    (tx, Some (Wrap "update schema.version" (Sql err)))
                | (tx, inr rows) =>
                    if negb (rows =? 1) then (tx, Some (ErrRowsAffected rows))
                    else Commit tx
                end
            end
        end
  end.

(** The [for _, s := range scripts] loop of [migrate]. *)
Fixpoint applyPending (scripts : list migrationScript)
    (appliedPaths : gmap string bool) (migrationsFS : FS) (now : Z)
    (db : DB) (log : list LogEntry) : DB * list LogEntry * option error :=
  match scripts with
  | [] => (db, log, None)
  | s :: scripts' =>
      if index appliedPaths (Path s) then
        applyPending scripts' appliedPaths migrationsFS now db log
      else
        let log := log ++ [Debug "applying migration" [("path", Path s)]] in
        match applyMigration db migrationsFS s now with
        | (db', Some err) => (db', log, Some (Wrap ("apply " +:+ Path s) err))
        | (db', None) =>
            applyPending scripts' appliedPaths migrationsFS now db' log
        end
  end.

(** [migrate]: the database it leaves, what it logged, and its error.
    [now] is the clock, read once for the whole run. *)
Definition migrate (db : DB) (cfg : Config) (now : Z)
    : DB * list LogEntry * option error :=
  let log := [Debug "starting migration" []] in
  match fetchSchemaVersion db with
  | inl err => (db, log, Some err)
  | inr version =>
      let needsInit := match version with None => true | Some _ => false end in
      let '(db, log, initErr) :=
        if needsInit then
          let log := log ++ [Debug "initializing schema" []] in
          let '(db', err) := applySchemaInit db cfg now in (db', log, err)
        else (db, log, None) in
      match initErr with
      | Some err => (db, log, Some (Wrap "init schema" err))
      | None =>
          match Migrations cfg with
          | None => (db, log, None)
          | Some migrationsFS =>
              let '(llog, listed) := listMigrationFiles migrationsFS in
              let log := log ++ llog in
              match listed with
              | inl err => (db, log, Some (Wrap "list migrations" err))
              | inr [] =>
                  (db, log ++ [Debug "no user migrations to apply" []], None)
              | inr scripts =>
                  match fetchAppliedMigrations db with
                  | inl err => (db, log, Some (Wrap "fetch applied" err))
                  | inr applied =>
                      applyPending scripts (appliedPathsOf applied)
                        migrationsFS now db log
                  end
              end
          end
      end
  end.

End Runner.

(** ** Package [path/filepath] (Unix) *)

Module Filepath.

(** [filepath.IsAbs]. *)
Definition IsAbs (path : string) : bool := Strings.HasPrefix path "/".

Definition is_sep_or_dot (c : ascii) : bool :=
  Ascii.eqb c "/"%char || Ascii.eqb c "."%char.

Fixpoint has_sep_or_dot (s : string) : bool :=
  match s with
  | EmptyString => false
  | String c s' => is_sep_or_dot c || has_sep_or_dot s'
  end.

(** [filepath.Ext]: the suffix from the last dot of the last element of
    the path, empty when that element has no dot.  The library scans
    from the end and stops at the first separator or dot it meets. *)
Fixpoint Ext (path : string) : string :=
  match path with
  | EmptyString => ""
  | String c rest =>
      if has_sep_or_dot rest then Ext rest
      else if Ascii.eqb c "."%char then path else ""
  end.

End Filepath.

(** ** The process environment and the file system *)

Record World := {
  env : gmap string string;     (* os.Getenv, the empty string when unset *)
  files : gmap string Node;     (* os.Stat *)
  clock : Z;                    (* time.Now().Unix() *)
  memory : option DB            (* the shared in-memory database, see [connect] *)
}.

Definition Getenv (w : World) (name : string) : string :=
  default "" (env w !! name).

Definition with_files (w : World) (fs : gmap string Node) : World :=
  {| env := env w; files := fs; clock := clock w; memory := memory w |}.

Definition with_memory (w : World) (m : option DB) : World :=
  {| env := env w; files := files w; clock := clock w; memory := m |}.

(** [fileExists]: [os.Stat] succeeds on a regular file or a directory. *)
Definition fileExists (fs : gmap string Node) (path : string) : bool :=
  match fs !! path with
  | Some (RegularFile _) | Some Directory => true
  | _ => false
  end.

(** [isDirectory]. *)
Definition isDirectory (fs : gmap string Node) (path : string) : bool :=
  match fs !! path with
  | Some Directory => true
  | _ => false
  end.

(** [isRegularFile]. *)
Definition isRegularFile (fs : gmap string Node) (path : string) : bool :=
  match fs !! path with
  | Some (RegularFile _) => true
  | _ => false
  end.

(** ** Connection strings (default driver) *)

Record pragma := { pname : string; pvalue : string }.

Definition memoryPragmas : list pragma :=
  [ {| pname := "foreign_keys"; pvalue := "ON" |};
    {| pname := "busy_timeout"; pvalue := "5000" |};
    {| pname := "journal_mode"; pvalue := "MEMORY" |};
    {| pname := "synchronous"; pvalue := "OFF" |};
    {| pname := "temp_store"; pvalue := "MEMORY" |};
    {| pname := "locking_mode"; pvalue := "EXCLUSIVE" |} ].

Definition persistentPragmas : list pragma :=
  [ {| pname := "foreign_keys"; pvalue := "ON" |};
    {| pname := "busy_timeout"; pvalue := "5000" |};
    {| pname := "journal_mode"; pvalue := "WAL" |};
    {| pname := "synchronous"; pvalue := "NORMAL" |};
    {| pname := "temp_store"; pvalue := "FILE" |};
    {| pname := "locking_mode"; pvalue := "NORMAL" |} ].

(** The [for i, p := range pragmas] loop of [buildDSN]. *)
Fixpoint writePragmas (path : string) (i : nat) (pragmas : list pragma)
    (sb : string) : string :=
  match pragmas with
  | [] => sb
  | p :: rest =>
      let sb :=
        if String.eqb path ":memory:" || (0 <? i)%nat
        then sb +:+ "&" else sb +:+ "?" in
      writePragmas path (S i) rest
        (sb +:+ "_pragma=" +:+ pname p +:+ "(" +:+ pvalue p +:+ ")")
  end.

(** [buildDSN]. *)
Definition buildDSN (path : string) (pragmas : list pragma) : string :=
  let sb :=
    if String.eqb path ":memory:" then "file::memory:?cache=shared"
    else "file:" +:+ path in
  writePragmas path 0 pragmas sb.

(** ** Lifecycle *)

(** [Config.defaults] (the logger aside). *)
Definition defaults (cfg : Config) : Config :=
  {| cfg_Path := cfg_Path cfg;
     Migrations := Migrations cfg;
     ProductionEnvVar :=
       if String.eqb (ProductionEnvVar cfg) "" then "ENV"
       else ProductionEnvVar cfg;
     AllowMemoryInProduction := AllowMemoryInProduction cfg;
     SkipMigrations := SkipMigrations cfg;
     MigrationTimeout :=
       if MigrationTimeout cfg =? 0 then 90 * 1000000000
       else MigrationTimeout cfg;
     AppVersion := AppVersion cfg;
     RequiredSchemaVersion := RequiredSchemaVersion cfg |}.

(** [cfg.SkipMigrations = true]. *)
Definition set_SkipMigrations (cfg : Config) : Config :=
  {| cfg_Path := cfg_Path cfg;
     Migrations := Migrations cfg;
     ProductionEnvVar := ProductionEnvVar cfg;
     AllowMemoryInProduction := AllowMemoryInProduction cfg;
     SkipMigrations := true;
     MigrationTimeout := MigrationTimeout cfg;
     AppVersion := AppVersion cfg;
     RequiredSchemaVersion := RequiredSchemaVersion cfg |}.

(** [Config.isProduction]. *)
Definition isProduction (cfg : Config) (w : World) : bool :=
  Strings.EqualFold (Getenv w (ProductionEnvVar cfg)) "production".

(** The test on the location made by [Config.isMemory] and by [Delete]. *)
Definition isMemoryPath (path : string) : bool :=
  String.eqb path ":memory:" || Strings.HasPrefix path "file::memory:".

(** [Config.isMemory]. *)
Definition isMemory (cfg : Config) : bool := isMemoryPath (cfg_Path cfg).

Record MigrationStatus := {
  SchemaVersion : Z;
  Applied : list AppliedMigration;
  Pending : list string;
  IsInitialized : bool
}.

(** The zero value [MigrationStatus{}]. *)
Definition zeroStatus : MigrationStatus :=
  {| SchemaVersion := 0; Applied := []; Pending := []; IsInitialized := false |}.

(** The [for _, s := range scripts] loop of [getStatus]. *)
Fixpoint collectPending (scripts : list migrationScript)
    (appliedPaths : gmap string bool) (pending : list string) : list string :=
  match scripts with
  | [] => pending
  | s :: scripts' =>
      if negb (index appliedPaths (Path s))
      then collectPending scripts' appliedPaths (pending ++ [Path s])
      else collectPending scripts' appliedPaths pending
  end.

(** [getStatus]. *)
Definition getStatus (db : DB) (cfg : Config)
    : list LogEntry * (error + MigrationStatus) :=
  match fetchSchemaVersion db with
  | inl err => ([], inl err)
  | inr None => ([], inr zeroStatus)
  | inr (Some version) =>
      match fetchAppliedMigrations db with
      | inl err => ([], inl err)
      | inr applied =>
          match Migrations cfg with
          | None =>
              ([], inr {| SchemaVersion := version; Applied := applied;
                          Pending := []; IsInitialized := true |})
          | Some migrationsFS =>
              match listMigrationFiles migrationsFS with
              | (log, inl err) => (log, inl err)
              | (log, inr scripts) =>
                  (log, inr {| SchemaVersion := version; Applied := applied;
                               Pending := collectPending scripts
                                            (appliedPathsOf applied) [];
                               IsInitialized := true |})
              end
          end
      end
  end.

Section Lifecycle.
Context {P : Platform}.

(** [validatePersistentPath]. *)
Definition validatePersistentPath (fs : gmap string Node) (path : string)
    : option error :=
  if negb (Filepath.IsAbs path) then Some (ErrNotAbsolute path)
  else if negb (String.eqb (Filepath.Ext path) ".db")
  then Some (ErrExtension path)
  else if isDirectory fs path then Some (ErrIsDirectory path)
  else
    let dir := filepath_Dir path in
    if negb (isDirectory fs dir) then Some (ErrNoParent dir)
    else None.

(** [sql.Open] with the connection string of [cfg.Path], then
    [db.PingContext]: the driver's part.  The connection string of
    [:memory:] names the in-memory database that the handles of the
    process share ([cache=shared]): the one that the handles opened
    before hold, a fresh one when there is none.  Every other location,
    also one that [isMemory] takes for in-memory, is the name of a file
    (see [buildDSN]): the connection gives the database stored in it, and
    the driver creates the file when there is none and its directory is
    there. *)
Definition connect (cfg : Config) (w : World) : World * (error + DB) :=
  if String.eqb (cfg_Path cfg) ":memory:" then
    (w, inr (default emptyDB (memory w)))
  else
    match files w !! cfg_Path cfg with
    | Some (RegularFile (Some db)) => (w, inr db)
    | Some (RegularFile None) =>
        (w, inl (Wrap "ping" (Sql (DriverError "file is not a database"))))
    | Some _ =>
        (w, inl (Wrap "ping" (Sql (DriverError "unable to open database file"))))
    | None =>
        if isDirectory (files w) (filepath_Dir (cfg_Path cfg)) then
          (with_files w
             (<[cfg_Path cfg := RegularFile (Some emptyDB)]> (files w)),
           inr emptyDB)
        else
          (w, inl (Wrap "ping"
                     (Sql (DriverError "unable to open database file"))))
    end.

(** What the connection has committed reaches the file of the database,
    or the shared in-memory database, which the handles that are opened
    later find. *)
Definition store (cfg : Config) (db : DB) (w : World) : World :=
  if String.eqb (cfg_Path cfg) ":memory:" then with_memory w (Some db)
  else with_files w (<[cfg_Path cfg := RegularFile (Some db)]> (files w)).

(** [openAndMigrate]: the world it leaves, its log, and the open database
    or the error. *)
Definition openAndMigrate (cfg : Config) (pragmas : list pragma) (w : World)
    : World * list LogEntry * (error + DB) :=
  let dsn := buildDSN (cfg_Path cfg) pragmas in
  let log := [Debug "opening database" [("dsn", dsn)]] in
  match connect cfg w with
  | (w, inl err) => (w, log, inl err)
  | (w, inr db) =>
      let '(db, log, migErr) :=
        if negb (SkipMigrations cfg) then
          let '(db', mlog, err) := migrate db cfg (clock w) in
          (db', log ++ mlog, err)
        else (db, log, None) in
      let w := store cfg db w in
      match migErr with
      | Some err => (w, log, inl (Wrap "migrate" err))
      | None =>
          if negb (RequiredSchemaVersion cfg =? 0) then
            match fetchSchemaVersion db with
            | inl err => (w, log, inl (Wrap "fetch schema version" err))
            | inr None => (w, log, inl ErrNotInitialized)
            | inr (Some version) =>
                if negb (version =? RequiredSchemaVersion cfg) then
                  (w, log,
                   inl (ErrVersionMismatch (RequiredSchemaVersion cfg) version))
                else (w, log, inr db)
            end
          else (w, log, inr db)
      end
  end.

(** [openMemory]. *)
Definition openMemory (cfg : Config) (w : World)
    : World * list LogEntry * (error + DB) :=
  if isProduction cfg w && negb (AllowMemoryInProduction cfg) then
    (w, [], inl (ErrProduction (ProductionEnvVar cfg)))
  else
    let '(w', log, r) := openAndMigrate cfg memoryPragmas w in
    (w', Info "DB mode: in-memory" [] :: log, r).

(** [openPersistent]. *)
Definition openPersistent (cfg : Config) (w : World)
    : World * list LogEntry * (error + DB) :=
  match validatePersistentPath (files w) (cfg_Path cfg) with
  | Some err => (w, [], inl err)
  | None =>
      if negb (fileExists (files w) (cfg_Path cfg)) then
        (w, [], inl (ErrNotFound (cfg_Path cfg)))
      else
        let '(w', log, r) := openAndMigrate cfg persistentPragmas w in
        (w', Info "DB mode: persistent" [("path", cfg_Path cfg)] :: log, r)
  end.

(** A sidecar file of the write-ahead log, made where nothing is. *)
Definition add_sidecar (name : string) (fs : gmap string Node)
    : gmap string Node :=
  match fs !! name with
  | None => <[name := RegularFile None]> fs
  | Some _ => fs
  end.

(** What a handle on a persistent database leaves beside the file while
    it is open: the persistent pragmas ask for the write-ahead log
    ([journal_mode(WAL)]), and the driver keeps the log and its index
    there.  The in-memory pragmas ask for no log. *)
Definition held_open (path : string) (w : World) : World :=
  with_files w
    (add_sidecar (path +:+ "-wal") (add_sidecar (path +:+ "-shm") (files w))).

(** [Open].  The handle it returns is open when it returns; [Create] and
    [Status] close theirs. *)
Definition Open (cfg : Config) (w : World)
    : World * list LogEntry * (error + DB) :=
  let cfg := defaults cfg in
  if isMemory cfg then openMemory cfg w
  else
    match openPersistent cfg w with
    | (w', log, inr db) => (held_open (cfg_Path cfg) w', log, inr db)
    | (w', log, inl err) => (w', log, inl err)
    end.

(** [Create]. *)
Definition Create (cfg : Config) (w : World)
    : World * list LogEntry * option error :=
  let cfg := defaults cfg in
  if isMemory cfg then (w, [], Some ErrCreateMemory)
  else
    match validatePersistentPath (files w) (cfg_Path cfg) with
    | Some err => (w, [], Some err)
    | None =>
        if fileExists (files w) (cfg_Path cfg) then
          (w, [], Some (ErrAlreadyExists (cfg_Path cfg)))
        else
          let log := [Info "creating database" [("path", cfg_Path cfg)]] in
          match openAndMigrate cfg persistentPragmas w with
          | (w', olog, inl err) => (w', log ++ olog, Some err)
          | (w', olog, inr db) => (w', log ++ olog, None)   (* db.Close() *)
          end
    end.

Definition setFirst (firstErr : option error) (err : error) : option error :=
  match firstErr with
  | None => Some err
  | Some _ => firstErr
  end.

(** The [for _, suffix := range ...] loop of [Delete]. *)
Fixpoint removeFiles (path : string) (suffixes : list string)
    (fs : gmap string Node) (firstErr : option error)
    : gmap string Node * option error :=
  match suffixes with
  | [] => (fs, firstErr)
  | suffix :: rest =>
      let name := path +:+ suffix in
      if negb (fileExists fs name) then removeFiles path rest fs firstErr
      else if negb (isRegularFile fs name) then
        removeFiles path rest fs (setFirst firstErr (ErrNotRegular name))
      else
        match os_Remove name fs with
        | (fs', Some err) => removeFiles path rest fs' (setFirst firstErr err)
        | (fs', None) => removeFiles path rest fs' firstErr
        end
  end.

(** [Delete]. *)
Definition Delete (path : string) (w : World) : World * option error :=
  if isMemoryPath path then (w, Some ErrDeleteMemory)
  else
    match validatePersistentPath (files w) path with
    | Some err => (w, Some err)
    | None =>
        if negb (fileExists (files w) path) then (w, None)
        else
          let '(fs, firstErr) :=
            removeFiles path [""; "-shm"; "-wal"] (files w) None in
          let w := with_files w fs in
          match firstErr with
          | Some err => (w, Some (Wrap ("delete " +:+ path) err))
          | None =>
              if fileExists fs path then (w, Some (ErrStillExists path))
              else (w, None)
          end
    end.

(** [Status]. *)
Definition Status (cfg : Config) (w : World)
    : World * list LogEntry * (error + MigrationStatus) :=
  let cfg := set_SkipMigrations (defaults cfg) in
  if isMemory cfg then (w, [], inl ErrStatusMemory)
  else if negb (fileExists (files w) (cfg_Path cfg)) then
    (w, [], inr zeroStatus)
  else
    match openPersistent cfg w with
    | (w', log, inl err) => (w', log, inl err)
    | (w', log, inr db) =>
        let '(slog, r) := getStatus db cfg in (w', log ++ slog, r)
    end.

End Lifecycle.

(** ** A small platform to run the definitions on

    A toy SQL engine, the directory part of a clean Unix path, and a
    remover; enough to evaluate the package on concrete inputs. *)

Module Demo.

Definition with_config (db : DB) (c : option (list ConfigRow)) : DB :=
  {| config := c; schema_migrations := schema_migrations db;
     user_data := user_data db |}.

(** A statement that changes what the connection holds: the working
    state of the open transaction, or the committed database at once. *)
Definition change (tx : Tx) (f : DB → DB) : Tx :=
  match tx_work tx with
  | Some w => {| tx_db := tx_db tx; tx_work := Some (f w) |}
  | None => {| tx_db := f (tx_db tx); tx_work := None |}
  end.

(** A statement that is recorded as it is. *)
Definition record (text : string) (db : DB) : DB :=
  {| config := config db; schema_migrations := schema_migrations db;
     user_data := user_data db ++ [text] |}.

(** [COMMIT]. *)
Definition commit (tx : Tx) : Tx * option sql_error :=
  match tx_work tx with
  | Some w => ({| tx_db := w; tx_work := None |}, None)
  | None =>
      (tx, Some (DriverError
                   "SQL logic error: cannot commit - no transaction is active (1)"))
  end.

(** Five scripts are understood; any other text is recorded as it is. *)
Definition exec (sqlBytes : string) (tx : Tx) : Tx * option sql_error :=
  if String.eqb sqlBytes "CREATE TABLE;" then
    (tx, Some (DriverError "incomplete input"))
  else if String.eqb sqlBytes "DELETE FROM config;" then
    (change tx (λ db, with_config db (option_map (λ _, []) (config db))), None)
  else if String.eqb sqlBytes "DELETE FROM schema_migrations;" then
    (change tx (λ db,
       {| config := config db;
          schema_migrations := option_map (λ _, []) (schema_migrations db);
          user_data := user_data db |}), None)
  else if String.eqb sqlBytes "COMMIT;" then commit tx
  else if String.eqb sqlBytes "CREATE TABLE t (id); COMMIT; CREATE TABLE;" then
    match commit (change tx (record "CREATE TABLE t (id);")) with
    | (tx', Some err) => (tx', Some err)
    | (tx', None) => (tx', Some (DriverError "incomplete input"))
    end
  else (change tx (record sqlBytes), None).

(** The text before the last separator, if there is one. *)
Fixpoint before_last_sep (path : string) : option string :=
  match path with
  | EmptyString => None
  | String c rest =>
      match before_last_sep rest with
      | Some d => Some (String c d)
      | None => if Ascii.eqb c "/"%char then Some EmptyString else None
      end
  end.

Definition Dir (path : string) : string :=
  match before_last_sep path with
  | None => "."
  | Some EmptyString => "/"
  | Some d => d
  end.

(** Removal fails on one name, which is locked. *)
Definition Remove (name : string) (fs : gmap string Node)
    : gmap string Node * option error :=
  if String.eqb name "/data/locked.db" then (fs, Some (FsError "remove" name))
  else (delete name fs, None).

(** A remover that reports success and removes nothing. *)
Definition RemoveNothing (name : string) (fs : gmap string Node)
    : gmap string Node * option error := (fs, None).

Definition platform : Platform :=
  {| exec_script := exec; filepath_Dir := Dir; os_Remove := Remove |}.

Definition lazy_platform : Platform :=
  {| exec_script := exec; filepath_Dir := Dir; os_Remove := RemoveNothing |}.

Definition file (n : string) : DirEntry := {| Name := n; IsDir := false |}.
Definition dir (n : string) : DirEntry := {| Name := n; IsDir := true |}.

(** A collection from its directory listing and the text of its files. *)
Definition collection (entries : list DirEntry) (content : list (string * string))
    : FS :=
  {| ReadDir := inr entries;
     ReadFile := λ n,
       match (list_to_map content : gmap string string) !! n with
       | Some text => inr text
       | None => inl (FsError "open" n)
       end |}.

Definition config_of (path : string) (m : option FS) : Config :=
  {| cfg_Path := path; Migrations := m; ProductionEnvVar := "";
     AllowMemoryInProduction := false; SkipMigrations := false;
     MigrationTimeout := 0; AppVersion := ""; RequiredSchemaVersion := 0 |}.

Definition world (vars : list (string * string)) (nodes : list (string * Node))
    : World :=
  {| env := list_to_map vars; files := list_to_map nodes;
     clock := 1767225600; memory := None |}.

(** Three scripts, the second of which is not valid SQL. *)
Definition script_a : migrationScript :=
  {| ID := 20260101000001; Comment := "a"; Path := "20260101000001_a.sql" |}.
Definition script_b : migrationScript :=
  {| ID := 20260101000002; Comment := "b"; Path := "20260101000002_b.sql" |}.
Definition script_c : migrationScript :=
  {| ID := 20260101000003; Comment := "c"; Path := "20260101000003_c.sql" |}.

Definition broken : FS :=
  collection
    [file "20260101000001_a.sql"; file "20260101000002_b.sql";
     file "20260101000003_c.sql"]
    [("20260101000001_a.sql", "CREATE TABLE a (id);");
     ("20260101000002_b.sql", "CREATE TABLE;");
     ("20260101000003_c.sql", "CREATE TABLE c (id);")].

(** The two scripts of the test data, with a directory and a stray file. *)
Definition valid : FS :=
  collection
    [file "20260101000002_create_posts.sql"; dir "sub"; file "README.md";
     file "20260101000001_create_users.sql"]
    [("20260101000001_create_users.sql", "CREATE TABLE users (id);");
     ("20260101000002_create_posts.sql", "CREATE TABLE posts (id);")].

(** Two scripts with one timestamp. *)
Definition duplicated : FS :=
  collection
    [file "20260101000001_create_users.sql";
     file "20260101000001_create_posts.sql"]
    [("20260101000001_create_users.sql", "CREATE TABLE users (id);");
     ("20260101000001_create_posts.sql", "CREATE TABLE posts (id);")].

Definition now : Z := 1767225600.

(** A database right after its initialization. *)
Definition initialized : DB :=
  (applySchemaInit emptyDB (config_of ":memory:" None) now).1.

(** The same after the first script of [broken]. *)
Definition after_a : DB :=
  (applyMigration (P := platform) initialized broken script_a now).1.

(** A database migrated through [valid]. *)
Definition migrated : DB :=
  (migrate (P := platform) emptyDB (config_of ":memory:" (Some valid)) now).1.1.

(** An initialized database whose [config] table has lost its rows. *)
Definition no_version_row : DB := with_config initialized (Some []).

(** A directory with a locked database and its two sidecar files. *)
Definition locked_world : World :=
  world [] [("/data", Directory);
            ("/data/locked.db", RegularFile (Some initialized));
            ("/data/locked.db-shm", RegularFile None);
            ("/data/locked.db-wal", RegularFile None)].


End Demo.

(** ** Vocabulary of the specification *)

(** At least one of the two infrastructure tables is there: the database
    has been through an initialization before. *)
Definition has_infrastructure (db : DB) : Prop :=
  config db ≠ None ∨ schema_migrations db ≠ None.

(** [p] is the path of an applied-migration record of [db]. *)
Definition applied_path (db : DB) (p : string) : Prop :=
  ∃ rows r, schema_migrations db = Some rows ∧ r ∈ rows ∧ row_path r = p.

(** [p] is the path of a script discovered in the collection of [cfg]. *)
Definition discovered_path (cfg : Config) (p : string) : Prop :=
  ∃ fs log scripts s,
    Migrations cfg = Some fs ∧ listMigrationFiles fs = (log, inr scripts) ∧
    s ∈ scripts ∧ Path s = p.

(** The log entry written before a script is handed to [applyMigration]. *)
Definition applying (p : string) : LogEntry :=
  Debug "applying migration" [("path", p)].

(** Equality of strings up to the case of ASCII letters: byte by byte,
    the same byte, or a capital letter on one side and its small letter
    (32 further) on the other. *)
Definition is_capital (c : ascii) : bool :=
  ((65 <=? N_of_ascii c) && (N_of_ascii c <=? 90))%N.

Definition same_letter (a b : ascii) : Prop :=
  a = b ∨
  (is_capital a = true ∧ N_of_ascii b = (N_of_ascii a + 32)%N) ∨
  (is_capital b = true ∧ N_of_ascii a = (N_of_ascii b + 32)%N).

Inductive case_insensitive_eq : string → string → Prop :=
| cie_nil : case_insensitive_eq EmptyString EmptyString
| cie_cons a b s t :
    same_letter a b → case_insensitive_eq s t →
    case_insensitive_eq (String a s) (String b t).

(** What [Delete] does with one of its three names: nothing when
    [fileExists] does not see it, an error when it is not a regular file,
    [os.Remove] otherwise. *)
Definition remove_one {P : Platform} (name : string) (fs : gmap string Node)
    : gmap string Node * option error :=
  if negb (fileExists fs name) then (fs, None)
  else if negb (isRegularFile fs name) then (fs, Some (ErrNotRegular name))
  else os_Remove name fs.

(** The first error of a sequence of outcomes. *)
Fixpoint first_error (outcomes : list (option error)) : option error :=
  match outcomes with
  | [] => None
  | Some err :: _ => Some err
  | None :: rest => first_error rest
  end.

(** The bytes of a string. *)
Definition chars (s : string) : list ascii := list_ascii_of_string s.

(** The number a string of decimal digits denotes, by position. *)
Fixpoint decimal (s : string) : Z :=
  match s with
  | EmptyString => 0
  | String c s' =>
      Strconv.digit_value c * 10 ^ Z.of_nat (String.length s') + decimal s'
  end.

(** [name] is a migration file name with the given timestamp and comment:
    the pattern [^\d{14}_.+\.sql$], whose [.] stands for any byte but the
    line feed. *)
Definition matches_pattern (name prefix comment : string) : Prop :=
  name = prefix +:+ "_" +:+ comment +:+ ".sql" ∧
  String.length prefix = 14%nat ∧
  Forall (λ c, Strconv.is_digit c = true) (chars prefix) ∧
  comment ≠ "" ∧
  Forall (λ c, c ≠ "010"%char) (chars comment).

(** Byte-wise lexicographic order of strings. *)
Inductive lex_lt : string → string → Prop :=
| lex_lt_empty c t : lex_lt EmptyString (String c t)
| lex_lt_byte a b s t :
    (N_of_ascii a < N_of_ascii b)%N → lex_lt (String a s) (String b t)
| lex_lt_tail a s t : lex_lt s t → lex_lt (String a s) (String a t).

(** The script a directory entry stands for, if it is the file of one. *)
Definition script_of (e : DirEntry) : option migrationScript :=
  if IsDir e then None
  else
    match Regexp.FindStringSubmatch (Name e) with
    | Some (prefix, comment) =>
        Some {| ID := decimal prefix; Comment := comment; Path := Name e |}
    | None => None
    end.

(** A script as discovery builds it from a file name: the path is the
    name, the comment its middle part, the id the number its 14 digits
    denote. *)
Definition well_formed (s : migrationScript) : Prop :=
  ∃ prefix, matches_pattern (Path s) prefix (Comment s) ∧ ID s = decimal prefix.

(** No two files of the collection whose names match the pattern have
    the same 14-digit prefix. *)
Definition distinct_prefixes (entries : list DirEntry) : Prop :=
  ∀ i j e1 e2 p1 c1 p2 c2,
    i ≠ j →
    entries !! i = Some e1 → entries !! j = Some e2 →
    IsDir e1 = false → IsDir e2 = false →
    matches_pattern (Name e1) p1 c1 → matches_pattern (Name e2) p2 c2 →
    p1 ≠ p2.

(** [a] and [b] are the names of two files of the collection, [a] listed
    before [b], that both match the pattern and whose 14 digits denote the
    same number [id]. *)
Definition conflicting (entries : list DirEntry) (id : Z) (a b : string) : Prop :=
  ∃ i j e1 e2 p1 c1 p2 c2,
    (i < j)%nat ∧ entries !! i = Some e1 ∧ entries !! j = Some e2 ∧
    IsDir e1 = false ∧ IsDir e2 = false ∧ Name e1 = a ∧ Name e2 = b ∧
    matches_pattern a p1 c1 ∧ matches_pattern b p2 c2 ∧
    decimal p1 = id ∧ decimal p2 = id.


(** The scripts discovered in the collection of [cfg], in the order of
    discovery; none without a collection. *)
Definition discovered_scripts (cfg : Config) : list migrationScript :=
  match Migrations cfg with
  | Some fs =>
      match (listMigrationFiles fs).2 with
      | inr scripts => scripts
      | inl _ => []
      end
  | None => []
  end.





(** The log entry of a directory entry that is not a migration script. *)
Definition skip_notice (e : LogEntry) : Prop :=
  log_msg e = "skipping non-migration file".

(** A script text that keeps to the transaction it is run in: it leaves
    the transaction open and the committed database as it is, whether it
    fails or not.  (A script with a [COMMIT] of its own does not.) *)
Definition keeps_transaction {P : Platform} (sqlBytes : string) : Prop :=
  ∀ db tx r,
    exec_script sqlBytes (BeginTx db) = (tx, r) →
    tx_db tx = db ∧ is_Some (tx_work tx).

(** The ways the application of a script goes wrong, each with the error
    [applyMigration] returns for it: the script's SQL errors, the insert of
    the applied record errors, or the update of [schema.version] does not
    affect exactly one row. *)
Inductive ScriptFailure {P : Platform} (db : DB) (sqlBytes : string)
    (s : migrationScript) (now : Z) : error → Prop :=
| SqlFails tx e :
    exec_script sqlBytes (BeginTx db) = (tx, Some e) →
    ScriptFailure db sqlBytes s now (Wrap "exec" (Sql e))
| RecordFails tx e :
    exec_script sqlBytes (BeginTx db) = (tx, None) →
    insert_migration (ID s) (Comment s) (Path s) now (held tx) = inl e →
    ScriptFailure db sqlBytes s now (Wrap "record" (Sql e))
| RowCountFails tx db3 n db4 rows :
    exec_script sqlBytes (BeginTx db) = (tx, None) →
    insert_migration (ID s) (Comment s) (Path s) now (held tx) = inr (db3, n) →
    update_config "schema.version" (Strconv.Itoa (ID s)) now db3
      = inr (db4, rows) →
    rows ≠ 1 →
    ScriptFailure db sqlBytes s now (ErrRowsAffected rows).

(** ** Connection strings (driver of build tag [mattn]) *)

Module Mattn.

Definition memoryPragmas : list pragma :=
  [ {| pname := "_foreign_keys"; pvalue := "1" |};
    {| pname := "_busy_timeout"; pvalue := "5000" |};
    {| pname := "_journal_mode"; pvalue := "MEMORY" |};
    {| pname := "_synchronous"; pvalue := "OFF" |};
    {| pname := "_txlock"; pvalue := "exclusive" |} ].

Definition persistentPragmas : list pragma :=
  [ {| pname := "_foreign_keys"; pvalue := "1" |};
    {| pname := "_busy_timeout"; pvalue := "5000" |};
    {| pname := "_journal_mode"; pvalue := "WAL" |};
    {| pname := "_synchronous"; pvalue := "NORMAL" |} ].

(** The [for i, p := range pragmas] loop of this driver's [buildDSN]. *)
Fixpoint writePragmas (path : string) (i : nat) (pragmas : list pragma)
    (sb : string) : string :=
  match pragmas with
  | [] => sb
  | p :: rest =>
      let sb :=
        if String.eqb path ":memory:" || (0 <? i)%nat
        then sb +:+ "&" else sb +:+ "?" in
      writePragmas path (S i) rest (sb +:+ pname p +:+ "=" +:+ pvalue p)
  end.

(** [buildDSN]. *)
Definition buildDSN (path : string) (pragmas : list pragma) : string :=
  let sb :=
    if String.eqb path ":memory:" then "file::memory:?cache=shared"
    else "file:" +:+ path in
  writePragmas path 0 pragmas sb.

End Mattn.

(** ** Vocabulary of the further properties *)

(** The values of Go's [int]. *)
Definition in_int_range (z : Z) : Prop :=
  Strconv.int_min ≤ z ≤ Strconv.int_max.

(** The applied-migration record of a script applied at [ts]. *)
Definition record_of (s : migrationScript) (ts : Z) : MigrationRow :=
  {| row_id := ID s; row_comment := Comment s; row_path := Path s;
     row_applied_at := ts; row_created_at := ts; row_updated_at := ts |}.

(** Two databases with the same two infrastructure tables. *)
Definition same_bookkeeping (a b : DB) : Prop :=
  config a = config b ∧ schema_migrations a = schema_migrations b.

(** A script text that leaves the two infrastructure tables as they are,
    whatever the database it runs on and whether it fails or not: in what
    it leaves committed and in the working state it leaves. *)
Definition leaves_bookkeeping {P : Platform} (sqlBytes : string) : Prop :=
  ∀ db tx r,
    exec_script sqlBytes (BeginTx db) = (tx, r) →
    same_bookkeeping (tx_db tx) db ∧ same_bookkeeping (held tx) db.

(** Every script of [scripts] that can be read from the collection leaves
    the infrastructure tables as they are. *)
Definition tidy {P : Platform} (fs : FS) (scripts : list migrationScript)
    : Prop :=
  ∀ s sqlBytes,
    s ∈ scripts → ReadFile fs (Path s) = inr sqlBytes →
    leaves_bookkeeping sqlBytes.

(** The scripts of a list whose path is not in the applied set. *)
Definition pending_scripts (appliedPaths : gmap string bool)
    (scripts : list migrationScript) : list migrationScript :=
  filter (λ s, index appliedPaths (Path s) = false) scripts.

(** The log entries written before a script is handed to [applyMigration]. *)
Definition is_applying (e : LogEntry) : bool :=
  String.eqb (log_msg e) "applying migration".

(** No two applied-migration records share an id or a path: the
    [PRIMARY KEY] and [UNIQUE] constraints of [schema.sql]. *)
Definition records_unique (db : DB) : Prop :=
  ∀ rows, schema_migrations db = Some rows →
    NoDup (map row_id rows) ∧ NoDup (map row_path rows).

(** One parameter of a connection string, for each driver. *)
Definition modernc_param (p : pragma) : string :=
  "_pragma=" +:+ pname p +:+ "(" +:+ pvalue p +:+ ")".

Definition mattn_param (p : pragma) : string :=
  pname p +:+ "=" +:+ pvalue p.

(** The texts of a list, one after the other. *)
Fixpoint join (parts : list string) : string :=
  match parts with
  | [] => ""
  | p :: rest => p +:+ join rest
  end.

(** A query string: the first parameter after [first], each later one
    after an ampersand. *)
Definition query (first : string) (params : list string) : string :=
  match params with
  | [] => ""
  | p :: rest => first +:+ p +:+ join (map (λ q, "&" +:+ q) rest)
  end.

(** [s] ends in [suffix]. *)
Definition ends_with (s suffix : string) : Prop := ∃ stem, s = stem +:+ suffix.

(** The scripts of the collection of [cfg] leave the infrastructure
    tables as they are. *)
Definition tidy_collection {P : Platform} (cfg : Config) : Prop :=
  ∀ fs, Migrations cfg = Some fs → tidy fs (discovered_scripts cfg).

(** ** Further scenarios *)

Module Later.



Definition script_users : migrationScript :=
  {| ID := 20260101000001; Comment := "create_users";
     Path := "20260101000001_create_users.sql" |}.

Definition script_posts : migrationScript :=
  {| ID := 20260101000002; Comment := "create_posts";
     Path := "20260101000002_create_posts.sql" |}.


(** A script that commits what it did and then fails. *)
Definition committing : FS :=
  Demo.collection [Demo.file "20260101000004_t.sql"]
    [("20260101000004_t.sql", "CREATE TABLE t (id); COMMIT; CREATE TABLE;")].

Definition script_committing : migrationScript :=
  {| ID := 20260101000004; Comment := "t";
     Path := "20260101000004_t.sql" |}.



End Later.

(** The value stored under a key of table [config]. *)
Definition config_value (db : DB) (k : string) : option string :=
  match config db with
  | Some rows =>
      match filter (λ r, has_key k r = true) rows with
      | r :: _ => Some (value r)
      | [] => None
      end
  | None => None
  end.

(** A configuration with an application version. *)
Definition versioned (path : string) : Config :=
  {| cfg_Path := path; Migrations := None; ProductionEnvVar := "";
     AllowMemoryInProduction := false; SkipMigrations := false;
     MigrationTimeout := 0; AppVersion := "1.2.3";
     RequiredSchemaVersion := 0 |}.

(** The world after [Create] has made a database of [Demo.valid] in an
    empty directory. *)
Definition created_world : World :=
  (Create (P := Demo.platform)
     (Demo.config_of "/data/app.db" (Some Demo.valid))
     (Demo.world [] [("/data", Directory)])).1.1.

(** * Properties *)

(** ** Sorting *)

Section SortFacts.
Context {A : Type} (less : A → A → bool).

Lemma sort_insert_perm x l : sort_insert less x l ≡ₚ x :: l.
Proof.
  induction l as [|y l IH]; simpl; [done|].
  destruct (less x y); [done|].
  rewrite IH. apply Permutation_swap.
Qed.

Lemma sort_Slice_perm l : sort_Slice less l ≡ₚ l.
Proof.
  induction l as [|x l IH]; simpl; [done|].
  by rewrite sort_insert_perm, IH.
Qed.

Lemma elem_of_sort_Slice x l : x ∈ sort_Slice less l ↔ x ∈ l.
Proof. by rewrite sort_Slice_perm. Qed.

(** The result is ascending as soon as [less] is asymmetric: no element
    is [less] than the one before it. *)
Hypothesis less_asym : ∀ x y, less x y = true → less y x = false.

Lemma sort_insert_hd x y l :
  less y x = false →
  HdRel (λ a b, less b a = false) x l →
  HdRel (λ a b, less b a = false) x (sort_insert less y l).
Proof.
  intros Hxy Hl. destruct l as [|z l]; simpl; [by constructor|].
  destruct (less y z); constructor; [done|]. by inversion Hl.
Qed.

Lemma sort_insert_sorted x l :
  Sorted (λ a b, less b a = false) l →
  Sorted (λ a b, less b a = false) (sort_insert less x l).
Proof.
  induction 1 as [|y l Hl IH Hhd]; simpl; [by repeat constructor|].
  destruct (less x y) eqn:Hxy.
  - constructor; [by constructor|]. constructor. by apply less_asym.
  - constructor; [done|]. by apply sort_insert_hd.
Qed.

Lemma sort_Slice_sorted l :
  Sorted (λ a b, less b a = false) (sort_Slice less l).
Proof.
  induction l as [|x l IH]; simpl; [constructor|].
  by apply sort_insert_sorted.
Qed.
End SortFacts.

(** ** Schema bookkeeping *)

Lemma no_such_table_config :
  isNoSuchTable (Some (DriverError "no such table: config")) = true.
Proof. reflexivity. Qed.

Lemma no_such_table_migrations :
  isNoSuchTable (Some (DriverError "no such table: schema_migrations")) = true.
Proof. reflexivity. Qed.

Lemma no_rows_is_not_no_such_table : isNoSuchTable (Some ErrNoRows) = false.
Proof. reflexivity. Qed.

Lemma fetchSchemaVersion_no_table db :
  config db = None → fetchSchemaVersion db = inr None.
Proof.
  intros Hc. unfold fetchSchemaVersion, select_schema_version.
  by rewrite Hc, no_such_table_config.
Qed.

Lemma fetchSchemaVersion_nil db :
  fetchSchemaVersion db = inr None → config db = None.
Proof.
  unfold fetchSchemaVersion, select_schema_version.
  destruct (config db) as [rows|]; [|done].
  destruct (filter _ rows) as [|r ?].
  - rewrite no_rows_is_not_no_such_table. discriminate.
  - destruct (Strconv.Atoi (value r)); discriminate.
Qed.

Lemma fetchSchemaVersion_no_row db rows :
  config db = Some rows →
  (∀ r, r ∈ rows → key r ≠ "schema.version") →
  fetchSchemaVersion db = inl (Wrap "fetch schema.version" (Sql ErrNoRows)).
Proof.
  intros Hc Hrows. unfold fetchSchemaVersion, select_schema_version.
  rewrite Hc.
  destruct (filter _ rows) as [|r l] eqn:Hf.
  - by rewrite no_rows_is_not_no_such_table.
  - assert (r ∈ filter (λ r, has_key "schema.version" r = true) rows) as Hin
      by (rewrite Hf; left).
    apply list_elem_of_filter in Hin as [Hk Hin].
    unfold has_key in Hk. apply String.eqb_eq in Hk.
    by destruct (Hrows r Hin).
Qed.

Lemma index_appliedPathsOf applied p :
  index (appliedPathsOf applied) p = true ↔ p ∈ map Applied_Path applied.
Proof.
  unfold appliedPathsOf.
  assert (∀ m : gmap string bool,
    index (foldl (λ m a, <[Applied_Path a := true]> m) m applied) p = true
    ↔ index m p = true ∨ p ∈ map Applied_Path applied) as Hgen.
  { induction applied as [|a applied IH]; intros m; simpl.
    - rewrite elem_of_nil. tauto.
    - rewrite IH, elem_of_cons. unfold index.
      destruct (decide (Applied_Path a = p)) as [->|Hne].
      + rewrite lookup_insert_eq. simpl. tauto.
      + rewrite lookup_insert_ne by done.
        split; [intros [?|?]; auto | intros [?|[?|?]]; auto; congruence]. }
  rewrite Hgen. unfold index. rewrite lookup_empty. simpl.
  split; [intros [?|?]|]; auto. discriminate.
Qed.

Lemma fetchAppliedMigrations_paths db applied p :
  fetchAppliedMigrations db = inr applied →
  p ∈ map Applied_Path applied ↔ applied_path db p.
Proof.
  unfold fetchAppliedMigrations, select_applied, applied_path.
  destruct (schema_migrations db) as [rows|].
  - intros [= <-]. rewrite <- list_fmap_compose, list_elem_of_fmap.
    split.
    + intros (r & -> & Hr). apply elem_of_sort_Slice in Hr. eauto.
    + intros (rows' & r & [= <-] & Hr & <-). exists r. split; [done|].
      by apply elem_of_sort_Slice.
  - rewrite no_such_table_migrations. intros [= <-]. simpl.
    rewrite elem_of_nil. split; [done|]. by intros (? & ? & ? & _).
Qed.

(** ** The migration runner *)

(** Case analysis along the statements of a transaction. *)
Ltac tx_cases :=
  unfold deferred_Rollback, ExecContext, Commit, Rollback, BeginTx, held in *;
  simpl in *;
  repeat (case_match; simpl in *; simplify_eq);
  try done.

Section RunnerFacts.
Context {P : Platform}.

(** [applyMigration] along its statements: what it returns for each way
    the script leaves the connection.  With the transaction open, every
    failure gives back the committed database; without one, what the
    insert and the update did is committed at once, and [Commit] fails. *)
Lemma applyMigration_unfold db fs s now :
  applyMigration db fs s now
  = match ReadFile fs (Path s) with
    | inl err => (db, Some (Wrap "read" err))
    | inr sqlBytes =>
        let tx := (exec_script sqlBytes (BeginTx db)).1 in
        match (exec_script sqlBytes (BeginTx db)).2 with
        | Some err => (tx_db tx, Some (Wrap "exec" (Sql err)))
        | None =>
            match insert_migration (ID s) (Comment s) (Path s) now (held tx)
            with
            | inl err => (tx_db tx, Some (Wrap "record" (Sql err)))
            | inr (db3, _) =>
                let kept := if tx_work tx is Some _ then tx_db tx else db3 in
                match update_config "schema.version" (Strconv.Itoa (ID s))
                        now db3 with
                | inl err =>
                    (kept, Some (Wrap "update schema.version" (Sql err)))
                | inr (db4, rows) =>
                    let kept := if tx_work tx is Some _ then tx_db tx else db4 in
                    if negb (rows =? 1) then (kept, Some (ErrRowsAffected rows))
                    else if tx_work tx is Some _ then (db4, None)
                    else (db4, (Commit {| tx_db := db4; tx_work := None |}).2)
                end
            end
        end
    end.
Proof.
  unfold applyMigration. destruct (ReadFile fs (Path s)) as [e | sqlBytes];
    [done |].
  destruct (exec_script sqlBytes (BeginTx db)) as [tx [e |]]; [done |].
  unfold deferred_Rollback, ExecContext, Commit, Rollback, held. simpl.
  destruct tx as [d [w |]]; simpl.
  - destruct (insert_migration (ID s) (Comment s) (Path s) now w)
      as [e | [db3 n]]; simpl; [done |].
    destruct (update_config "schema.version" (Strconv.Itoa (ID s)) now db3)
      as [e | [db4 rows]]; simpl; [done |].
    by destruct (rows =? 1).
  - destruct (insert_migration (ID s) (Comment s) (Path s) now d)
      as [e | [db3 n]]; simpl; [done |].
    destruct (update_config "schema.version" (Strconv.Itoa (ID s)) now db3)
      as [e | [db4 rows]]; simpl; [done |].
    by destruct (rows =? 1).
Qed.

(** A script that keeps to its transaction leaves, when it has run, the
    committed database as it was and a working state. *)
Lemma keeps_transaction_run sqlBytes db :
  keeps_transaction sqlBytes →
  ∃ w, (exec_script sqlBytes (BeginTx db)).1
       = {| tx_db := db; tx_work := Some w |}.
Proof.
  intros Hkeeps.
  destruct (exec_script sqlBytes (BeginTx db)) as [[d o] r] eqn:Hexec.
  destruct (Hkeeps _ _ _ Hexec) as [Hd [w Hw]]. simpl in *. subst. by exists w.
Qed.

Lemma applyMigration_failure db fs s now db' err :
  (∀ sqlBytes, ReadFile fs (Path s) = inr sqlBytes →
     keeps_transaction sqlBytes) →
  applyMigration db fs s now = (db', Some err) → db' = db.
Proof.
  intros Hkeeps. rewrite applyMigration_unfold.
  destruct (ReadFile fs (Path s)) as [e | sqlBytes]; [by intros [= <- _] |].
  destruct (keeps_transaction_run sqlBytes db (Hkeeps _ eq_refl)) as [w ->].
  simpl. intros Heq. repeat case_match; by simplify_eq.
Qed.

Lemma applySchemaInit_failure db cfg now db' err :
  applySchemaInit db cfg now = (db', Some err) → db' = db.
Proof. unfold applySchemaInit. intros Heq. tx_cases. Qed.

Lemma applyMigration_modes db fs s now sqlBytes e :
  keeps_transaction sqlBytes →
  ReadFile fs (Path s) = inr sqlBytes →
  ScriptFailure db sqlBytes s now e →
  applyMigration db fs s now = (db, Some e).
Proof.
  intros Hkeeps Hread Hfail. rewrite applyMigration_unfold, Hread.
  destruct (keeps_transaction_run sqlBytes db Hkeeps) as [w Hrun].
  destruct Hfail as [tx e He | tx e He Hins | tx db3 n db4 rows He Hins Hupd Hrows];
    rewrite He in *; simpl in *; subst tx; simpl in *.
  - done.
  - by rewrite Hins.
  - rewrite Hins, Hupd. destruct (rows =? 1) eqn:E; [lia | done].
Qed.

Lemma applyPending_app pre post applied fs now db log db1 log1 :
  applyPending pre applied fs now db log = (db1, log1, None) →
  applyPending (pre ++ post) applied fs now db log
  = applyPending post applied fs now db1 log1.
Proof.
  revert db log. induction pre as [|s pre IH]; intros db log; simpl.
  - by intros [= -> ->].
  - destruct (index applied (Path s)); [apply IH|].
    destruct (applyMigration db fs s now) as [db2 [e|]]; [done|apply IH].
Qed.

Lemma applyPending_all_applied scripts applied fs now db log :
  (∀ s, s ∈ scripts → index applied (Path s) = true) →
  applyPending scripts applied fs now db log = (db, log, None).
Proof.
  induction scripts as [|s scripts IH]; intros Hall; simpl; [done|].
  rewrite (Hall s) by left. apply IH. intros s' Hs'. apply Hall. by right.
Qed.

(** A failed initialization of a database that has one of the tables. *)
Lemma applySchemaInit_has_infrastructure db cfg now :
  has_infrastructure db →
  ∃ err, applySchemaInit db cfg now = (db, Some err).
Proof.
  intros Hinfra. unfold applySchemaInit, deferred_Rollback, ExecContext,
    BeginTx, schema_sql. simpl.
  destruct (schema_migrations db) eqn:Hm; simpl; [eauto|].
  destruct (config db) eqn:Hc; simpl; [eauto|].
  destruct Hinfra; congruence.
Qed.

(** On an initialized database with scripts to look at, [migrate] is its
    loop. *)
Lemma migrate_is_applyPending db cfg now v fs llog s scripts applied :
  fetchSchemaVersion db = inr (Some v) →
  Migrations cfg = Some fs →
  listMigrationFiles fs = (llog, inr (s :: scripts)) →
  fetchAppliedMigrations db = inr applied →
  migrate db cfg now
  = applyPending (s :: scripts) (appliedPathsOf applied) fs now db
      (Debug "starting migration" [] :: llog).
Proof.
  intros Hv Hm Hlist Happlied. unfold migrate.
  rewrite Hv. cbv zeta iota beta. rewrite Hm, Hlist, Happlied. done.
Qed.
End RunnerFacts.

(** ** Script discovery writes nothing but skip notices to the log *)

Lemma scanEntries_log entries scripts seenIDs log log' r :
  scanEntries entries scripts seenIDs log = (log', r) →
  Forall skip_notice log → Forall skip_notice log'.
Proof.
  revert scripts seenIDs log.
  induction entries as [|e entries IH]; intros scripts seenIDs log; simpl.
  - by intros [= <- _].
  - destruct (IsDir e); [apply IH|].
    destruct (Regexp.FindStringSubmatch (Name e)) as [[m1 m2]|].
    + destruct (Strconv.Atoi m1) as [k|id]; [by intros [= <- _]|].
      destruct (seenIDs !! id); [by intros [= <- _]|apply IH].
    + intros Hscan Hlog. eapply IH; [exact Hscan|].
      apply Forall_app. split; [done|]. by repeat constructor.
Qed.

Lemma listMigrationFiles_log fs log r :
  listMigrationFiles fs = (log, r) → Forall skip_notice log.
Proof.
  unfold listMigrationFiles.
  destruct (ReadDir fs) as [err|entries]; [by intros [= <- _]|].
  destruct (scanEntries entries [] ∅ []) as [log' [err|scripts]] eqn:Hscan;
    intros [= <- _]; by eapply scanEntries_log.
Qed.

(** ** C1: a failing script is rolled back and stops the run *)

(** C1.  Let the scripts before [s] have gone through (skipped or
    applied), leaving database [db1], and let [s] be pending.  When the
    text of [s] keeps to the transaction it is run in, each of the three
    failure modes (the script's SQL errors, the insert of its applied
    record errors, the update of [schema.version] affects a number of rows
    other than 1) makes [applyMigration] return the error with the
    database exactly as it was before the script, and whenever the
    application of [s] fails the database is [db1], unchanged.  Whatever
    the text of [s] does, when its application fails the loop of
    [migrate] returns that error, wrapped with the path, right after the
    log entry of [s], with the database that [applyMigration] left:
    whatever scripts follow are not attempted. *)
Theorem failed_script_rolls_back_and_stops {P : Platform}
    (pre post : list migrationScript) (s : migrationScript)
    (appliedPaths : gmap string bool) (fs : FS) (now : Z)
    (db db1 : DB) (log log1 : list LogEntry) :
  applyPending pre appliedPaths fs now db log = (db1, log1, None) →
  index appliedPaths (Path s) = false →
  ((∀ sqlBytes, ReadFile fs (Path s) = inr sqlBytes →
      keeps_transaction sqlBytes) →
   (∀ sqlBytes e,
      ReadFile fs (Path s) = inr sqlBytes →
      ScriptFailure db1 sqlBytes s now e →
      applyMigration db1 fs s now = (db1, Some e)) ∧
   (∀ db1' err,
      applyMigration db1 fs s now = (db1', Some err) → db1' = db1)) ∧
  (∀ db1' err,
     applyMigration db1 fs s now = (db1', Some err) →
     applyPending (pre ++ s :: post) appliedPaths fs now db log
     = (db1', log1 ++ [applying (Path s)],
        Some (Wrap ("apply " +:+ Path s) err))).
Proof.
  intros Hpre Hpending. split.
  - intros Hkeeps. split.
    + intros sqlBytes e Hread. apply applyMigration_modes; [| done].
      by apply Hkeeps.
    + intros db1' err. by apply applyMigration_failure.
  - intros db1' err Hfail.
    rewrite (applyPending_app _ _ _ _ _ _ _ _ _ Hpre). simpl.
    by rewrite Hpending, Hfail.
Qed.

Lemma failed_script_rolls_back_and_stops_witness :
  applyPending (P := Demo.platform)
    [Demo.script_a; Demo.script_b; Demo.script_c] ∅ Demo.broken Demo.now
    Demo.initialized []
  = (Demo.after_a,
     [applying "20260101000001_a.sql"; applying "20260101000002_b.sql"],
     Some (Wrap "apply 20260101000002_b.sql"
             (Wrap "exec" (Sql (DriverError "incomplete input"))))).
Proof.
  destruct (failed_script_rolls_back_and_stops (P := Demo.platform)
              [Demo.script_a] [Demo.script_c] Demo.script_b ∅ Demo.broken
              Demo.now Demo.initialized Demo.after_a []
              [applying "20260101000001_a.sql"])
    as [Hrollback Hstop].
  - vm_compute. reflexivity.
  - vm_compute. reflexivity.
  - destruct Hrollback as [Hmodes _].
    { intros sqlBytes Hread db tx r Hexec.
      vm_compute in Hread. injection Hread as <-.
      simpl in Hexec. injection Hexec as <- _. split; [reflexivity |].
      by eexists. }
    assert (ScriptFailure (P := Demo.platform) Demo.after_a "CREATE TABLE;"
              Demo.script_b Demo.now
              (Wrap "exec" (Sql (DriverError "incomplete input")))) as Hfail
      by (eapply SqlFails; vm_compute; reflexivity).
    assert (ReadFile Demo.broken (Path Demo.script_b) = inr "CREATE TABLE;")
      as Hread by (vm_compute; reflexivity).
    exact (Hstop _ _ (Hmodes _ _ Hread Hfail)).
Defined.

(** A script that commits and then fails: the table it made is there
    after [applyMigration] has returned the error, and the deferred
    [Rollback] finds no transaction to roll back. *)
Lemma committing_script_is_not_rolled_back :
  ∃ db' e,
    applyMigration (P := Demo.platform) Demo.initialized Later.committing
      Later.script_committing Demo.now
    = (db', Some (Wrap "exec" (Sql e))) ∧
    ScriptFailure (P := Demo.platform) Demo.initialized
      "CREATE TABLE t (id); COMMIT; CREATE TABLE;" Later.script_committing
      Demo.now (Wrap "exec" (Sql e)) ∧
    user_data Demo.initialized = [] ∧
    user_data db' = ["CREATE TABLE t (id);"] ∧
    db' ≠ Demo.initialized.
Proof.
  eexists _, _. split; [vm_compute; reflexivity |].
  split; [eapply SqlFails; vm_compute; reflexivity |].
  split; [reflexivity |]. split; [reflexivity |].
  intros Heq. apply (f_equal user_data) in Heq. vm_compute in Heq.
  discriminate.
Qed.

(** ** C2: a second run changes nothing *)

Section Rerun.
Context {P : Platform}.

(** A run that returns no error leaves the [config] table in place. *)
Lemma applyMigration_ok_config db fs s now db' :
  applyMigration db fs s now = (db', None) → config db' ≠ None.
Proof.
  unfold applyMigration, update_config. intros Heq. tx_cases.
Qed.

Lemma applyPending_ok_config scripts applied fs now db log db' log' :
  applyPending scripts applied fs now db log = (db', log', None) →
  config db ≠ None → config db' ≠ None.
Proof.
  revert db log. induction scripts as [|s scripts IH]; intros db log; simpl.
  - by intros [= -> _].
  - destruct (index applied (Path s)); [apply IH|].
    destruct (applyMigration db fs s now) as [db2 [e|]] eqn:Happ; [done|].
    intros Hrest _.
    exact (IH _ _ Hrest (applyMigration_ok_config _ _ _ _ _ Happ)).
Qed.

Lemma applySchemaInit_ok_config db cfg now db' :
  applySchemaInit db cfg now = (db', None) → config db' ≠ None.
Proof.
  unfold applySchemaInit, update_config, insert_migration, schema_sql.
  intros Heq. tx_cases.
Qed.

Lemma migrate_ok_has_infrastructure db cfg now db' log :
  migrate db cfg now = (db', log, None) → has_infrastructure db'.
Proof.
  unfold migrate. intros Heq. left.
  destruct (fetchSchemaVersion db) as [err|[v|]] eqn:Hv; [by simplify_eq| |].
  - assert (config db ≠ None) as Hc.
    { intros Hc. apply fetchSchemaVersion_no_table in Hc. congruence. }
    simpl in Heq.
    destruct (Migrations cfg) as [fs|]; [|by simplify_eq].
    destruct (listMigrationFiles fs) as [llog [err|[|s scripts]]];
      [by simplify_eq|by simplify_eq|].
    destruct (fetchAppliedMigrations db) as [err|applied]; [by simplify_eq|].
    exact (applyPending_ok_config _ _ _ _ _ _ _ _ Heq Hc).
  - destruct (applySchemaInit db cfg now) as [db1 [err|]] eqn:Hinit;
      simpl in Heq; [by simplify_eq|].
    apply applySchemaInit_ok_config in Hinit.
    destruct (Migrations cfg) as [fs|]; [|by simplify_eq].
    destruct (listMigrationFiles fs) as [llog [err|[|s scripts]]];
      [by simplify_eq|by simplify_eq|].
    destruct (fetchAppliedMigrations db1) as [err|applied]; [by simplify_eq|].
    exact (applyPending_ok_config _ _ _ _ _ _ _ _ Heq Hinit).
Qed.
End Rerun.

(** C2.  On a database that has been initialized before and whose
    applied-record paths include the path of every discovered script,
    [migrate] returns with the database exactly as it found it (no new
    [schema_migrations] row, [schema.version] unchanged), and no script was
    handed to [applyMigration]: each one is skipped because its path is in
    the applied set. *)
Theorem rerun_is_idempotent {P : Platform} (db : DB) (cfg : Config) (now : Z) :
  has_infrastructure db →
  (∀ p, discovered_path cfg p → applied_path db p) →
  ∃ log err,
    migrate db cfg now = (db, log, err) ∧ ∀ p, applying p ∉ log.
Proof.
  intros Hinfra Hall. unfold migrate.
  assert (∀ l, Forall skip_notice l → Forall (λ e, ∀ p, e ≠ applying p) l)
    as Hskip.
  { intros l Hl. eapply Forall_impl; [exact Hl|].
    intros e He p ->. discriminate. }
  assert (∀ l (err : option error), Forall (λ e, ∀ p, e ≠ applying p) l →
            ∃ log err0, (db, l, err) = (db, log, err0) ∧ ∀ p, applying p ∉ log)
    as Hfin.
  { intros l err Hl. eexists _, _. split; [done|]. intros p Hin.
    eapply Forall_forall in Hl; [|exact Hin]. by apply (Hl p). }
  destruct (fetchSchemaVersion db) as [err|[v|]] eqn:Hv.
  - apply Hfin. by repeat constructor.
  - simpl. destruct (Migrations cfg) as [fs|] eqn:Hm.
    2:{ apply Hfin. by repeat constructor. }
    destruct (listMigrationFiles fs) as [llog listed] eqn:Hlist.
    pose proof (Hskip _ (listMigrationFiles_log _ _ _ Hlist)) as Hllog.
    destruct listed as [err|[|s scripts]].
    + apply Hfin. by constructor.
    + apply Hfin. constructor; [done|]. apply Forall_app. split; [done|].
      by repeat constructor.
    + destruct (fetchAppliedMigrations db) as [err|applied] eqn:Happlied.
      * apply Hfin. by constructor.
      * rewrite applyPending_all_applied.
        { apply Hfin. by constructor. }
        intros s' Hs'. apply index_appliedPathsOf.
        apply (fetchAppliedMigrations_paths _ _ _ Happlied).
        apply Hall. by exists fs, llog, (s :: scripts), s'.
  - destruct (applySchemaInit_has_infrastructure db cfg now Hinfra)
      as [err ->]. simpl.
    apply Hfin. by repeat constructor.
Qed.

Lemma rerun_is_idempotent_witness :
  ∃ log err,
    migrate (P := Demo.platform) Demo.migrated
      (Demo.config_of ":memory:" (Some Demo.valid)) Demo.now
    = (Demo.migrated, log, err) ∧ ∀ p, applying p ∉ log.
Proof.
  apply rerun_is_idempotent.
  - left. vm_compute. discriminate.
  - intros p (fs & log & scripts & s & Hm & Hlist & Hin & <-).
    injection Hm as <-. vm_compute in Hlist. injection Hlist as <- <-.
    apply elem_of_cons in Hin as [->|Hin];
      [|apply list_elem_of_singleton in Hin as ->].
    + eexists _, _. split; [vm_compute; reflexivity|].
      split; [right; left|reflexivity].
    + eexists _, _. split; [vm_compute; reflexivity|].
      split; [right; right; left|reflexivity].
Defined.

(** ** C5: a missing table is a first run, a missing row is an error *)

(** A committed initialization leaves [schema.version] at 0. *)
Lemma applySchemaInit_version db cfg now db1 :
  applySchemaInit db cfg now = (db1, None) →
  fetchSchemaVersion db1 = inr (Some 0).
Proof.
  unfold applySchemaInit, deferred_Rollback, ExecContext, BeginTx, Commit,
    schema_sql, insert_migration, update_config.
  simpl. intros Heq.
  destruct (schema_migrations db); [by simplify_eq|].
  destruct (config db); [by simplify_eq|].
  simpl in Heq.
  destruct (String.eqb (AppVersion cfg) ""); simpl in Heq;
    by injection Heq as <-.
Qed.

Section FirstRun.
Context {P : Platform}.

(** After a committed initialization, [migrate] goes on as it would on
    the initialized database. *)
Lemma migrate_after_init db cfg now db1 :
  config db = None →
  applySchemaInit db cfg now = (db1, None) →
  ∃ rest,
    (migrate db1 cfg now).1.2 = Debug "starting migration" [] :: rest ∧
    migrate db cfg now
    = ((migrate db1 cfg now).1.1,
       Debug "starting migration" [] :: Debug "initializing schema" [] :: rest,
       (migrate db1 cfg now).2).
Proof.
  intros Hc Hinit. unfold migrate.
  rewrite (fetchSchemaVersion_no_table _ Hc), Hinit.
  rewrite (applySchemaInit_version _ _ _ _ Hinit). simpl.
  destruct (Migrations cfg) as [fs|]; [|by eexists].
  destruct (listMigrationFiles fs) as [llog [err|[|s scripts]]];
    [by eexists|by eexists|].
  destruct (fetchAppliedMigrations db1) as [err|applied]; [by eexists|].
  generalize (s :: scripts) as l. intros l.
  assert (∀ db2 log1 log2,
    (applyPending l (appliedPathsOf applied) fs now db2 (log1 ++ log2)).1.1
    = (applyPending l (appliedPathsOf applied) fs now db2 log2).1.1 ∧
    (applyPending l (appliedPathsOf applied) fs now db2 (log1 ++ log2)).1.2
    = log1 ++ (applyPending l (appliedPathsOf applied) fs now db2 log2).1.2 ∧
    (applyPending l (appliedPathsOf applied) fs now db2 (log1 ++ log2)).2
    = (applyPending l (appliedPathsOf applied) fs now db2 log2).2) as Hlog.
  { induction l as [|s' l IH]; intros db2 log1 log2; simpl; [done|].
    destruct (index (appliedPathsOf applied) (Path s')); [apply IH|].
    destruct (applyMigration db2 fs s' now) as [db3 [e|]]; simpl.
    - by rewrite app_assoc.
    - rewrite <- app_assoc. apply IH. }
  exists (tail (applyPending l (appliedPathsOf applied) fs now db1
            (Debug "starting migration" [] :: llog)).1.2).
  destruct (Hlog db1 [Debug "starting migration" []] llog) as (_ & H2 & _).
  destruct (Hlog db1 [Debug "starting migration" [];
                      Debug "initializing schema" []] llog) as (G1 & G2 & G3).
  destruct (Hlog db1 [Debug "starting migration" []] llog) as (K1 & K2 & K3).
  simpl in *. split.
  - by rewrite K2.
  - rewrite K2. simpl.
    destruct (applyPending l (appliedPathsOf applied) fs now db1
                (Debug "starting migration" []
                 :: Debug "initializing schema" [] :: llog))
      as [[a b] c].
    simpl in *. by rewrite G1, G2, G3, K1, K3.
Qed.
End FirstRun.

(** C5.  When the [config] table does not exist, the version read reports
    an uninitialized database ([nil], no error) and [migrate] runs the
    infrastructure initialization: it returns the initialization's error
    with the database untouched, or, once the initialization is committed,
    goes on exactly as on the initialized database (version 0).  When the
    table exists and has no [schema.version] row, the read is an error
    and [migrate] returns it at once, with the database untouched and
    nothing else logged. *)
Theorem missing_table_is_first_run_missing_row_is_error {P : Platform}
    (db : DB) (cfg : Config) (now : Z) :
  (config db = None →
     fetchSchemaVersion db = inr None ∧
     (∀ db1 e, applySchemaInit db cfg now = (db1, Some e) →
        migrate db cfg now
        = (db, [Debug "starting migration" []; Debug "initializing schema" []],
           Some (Wrap "init schema" e))) ∧
     (∀ db1, applySchemaInit db cfg now = (db1, None) →
        fetchSchemaVersion db1 = inr (Some 0) ∧
        ∃ rest,
          (migrate db1 cfg now).1.2 = Debug "starting migration" [] :: rest ∧
          migrate db cfg now
          = ((migrate db1 cfg now).1.1,
             Debug "starting migration" []
               :: Debug "initializing schema" [] :: rest,
             (migrate db1 cfg now).2))) ∧
  (∀ rows,
     config db = Some rows →
     (∀ r, r ∈ rows → key r ≠ "schema.version") →
     fetchSchemaVersion db
     = inl (Wrap "fetch schema.version" (Sql ErrNoRows)) ∧
     migrate db cfg now
     = (db, [Debug "starting migration" []],
        Some (Wrap "fetch schema.version" (Sql ErrNoRows)))).
Proof.
  split.
  - intros Hc. split; [by apply fetchSchemaVersion_no_table|]. split.
    + intros db1 e Hinit. unfold migrate.
      rewrite (fetchSchemaVersion_no_table _ Hc), Hinit. simpl.
      by rewrite (applySchemaInit_failure _ _ _ _ _ Hinit).
    + intros db1 Hinit. split; [by eapply applySchemaInit_version|].
      by apply migrate_after_init.
  - intros rows Hc Hrows.
    pose proof (fetchSchemaVersion_no_row _ _ Hc Hrows) as Hv.
    split; [done|]. unfold migrate. by rewrite Hv.
Qed.

Lemma missing_table_is_first_run_missing_row_is_error_witness :
  fetchSchemaVersion emptyDB = inr None ∧
  fetchSchemaVersion Demo.no_version_row
  = inl (Wrap "fetch schema.version" (Sql ErrNoRows)) ∧
  migrate (P := Demo.platform) Demo.no_version_row
    (Demo.config_of ":memory:" (Some Demo.valid)) Demo.now
  = (Demo.no_version_row, [Debug "starting migration" []],
     Some (Wrap "fetch schema.version" (Sql ErrNoRows))).
Proof.
  destruct (missing_table_is_first_run_missing_row_is_error
              (P := Demo.platform) emptyDB
              (Demo.config_of ":memory:" (Some Demo.valid)) Demo.now)
    as [Htable _].
  destruct (Htable eq_refl) as [Hnil _].
  destruct (missing_table_is_first_run_missing_row_is_error
              (P := Demo.platform) Demo.no_version_row
              (Demo.config_of ":memory:" (Some Demo.valid)) Demo.now)
    as [_ Hrow].
  assert (∀ r : ConfigRow, r ∈ [] → key r ≠ "schema.version") as Hnone
    by (intros r Hr; by apply elem_of_nil in Hr).
  destruct (Hrow [] eq_refl Hnone) as [Hread Hrun].
  exact (conj Hnil (conj Hread Hrun)).
Defined.

(** ** C10: the required-version check *)

Section RequiredVersion.
Context {P : Platform}.


End RequiredVersion.



(** ** C6: in-memory databases in production *)

Lemma fold_byte_capital a :
  is_capital a = true →
  Strings.fold_byte a = ascii_of_N (N_of_ascii a + 32).
Proof. unfold Strings.fold_byte, is_capital. by intros ->. Qed.

Lemma fold_byte_other a :
  is_capital a = false → Strings.fold_byte a = a.
Proof. unfold Strings.fold_byte, is_capital. by intros ->. Qed.

Lemma N_of_ascii_bound a : (N_of_ascii a < 256)%N.
Proof. apply N_ascii_bounded. Qed.

Lemma fold_byte_spec a b :
  Strings.fold_byte a = Strings.fold_byte b ↔ same_letter a b.
Proof.
  pose proof (N_of_ascii_bound a) as Ha. pose proof (N_of_ascii_bound b) as Hb.
  unfold same_letter.
  destruct (is_capital a) eqn:Ca; destruct (is_capital b) eqn:Cb;
    rewrite ?(fold_byte_capital _ Ca), ?(fold_byte_capital _ Cb),
      ?(fold_byte_other _ Ca), ?(fold_byte_other _ Cb);
    unfold is_capital in Ca, Cb;
    try apply andb_true_iff in Ca as [Ca1%N.leb_le Ca2%N.leb_le];
    try apply andb_true_iff in Cb as [Cb1%N.leb_le Cb2%N.leb_le].
  - split.
    + intros Heq. left. apply (f_equal N_of_ascii) in Heq.
      rewrite !N_ascii_embedding in Heq by lia.
      rewrite <- (ascii_N_embedding a), <- (ascii_N_embedding b).
      f_equal. lia.
    + intros [->|[[_ ?]|[_ ?]]]; [done|lia|lia].
  - split.
    + intros Heq. right. left. split; [done|]. rewrite <- Heq.
      by rewrite N_ascii_embedding by lia.
    + intros [Heq|[[_ Heq]|[? _]]]; [| |done].
      * subst b. apply andb_false_iff in Cb as [?%N.leb_gt|?%N.leb_gt]; lia.
      * by rewrite <- Heq, ascii_N_embedding.
  - split.
    + intros Heq. right. right. split; [done|]. rewrite Heq.
      by rewrite N_ascii_embedding by lia.
    + intros [Heq|[[? _]|[_ Heq]]]; [|done|].
      * subst b. apply andb_false_iff in Ca as [?%N.leb_gt|?%N.leb_gt]; lia.
      * by rewrite <- Heq, ascii_N_embedding.
  - split; [by left|]. by intros [?|[[? _]|[? _]]].
Qed.

(** [strings.EqualFold] decides equality up to case. *)
Lemma EqualFold_spec s t :
  Strings.EqualFold s t = true ↔ case_insensitive_eq s t.
Proof.
  revert t. induction s as [|a s IH]; intros [|b t]; simpl.
  - split; [constructor|done].
  - split; [done|inversion 1].
  - split; [done|inversion 1].
  - rewrite andb_true_iff, Ascii.eqb_eq, fold_byte_spec, IH. split.
    + intros [? ?]. by constructor.
    + by inversion 1.
Qed.

Section Production.
Context {P : Platform}.

(** [openAndMigrate] has no production check of its own. *)
Lemma openAndMigrate_not_production cfg pragmas w w' log v :
  openAndMigrate cfg pragmas w ≠ (w', log, inl (ErrProduction v)).
Proof.
  unfold openAndMigrate, connect. intros Heq.
  repeat (case_match; simplify_eq).
Qed.
End Production.

(** C6.  Take an in-memory location and an environment in which the
    configured variable (the default [ENV] when none is configured) equals
    [production] up to case.  Without the override, [Open] fails with the
    production-rejection error, the world is as it was and nothing was
    logged: no storage was touched.  With the override, the same call is
    let through to [openAndMigrate], whose outcome it returns, and that
    is never the production rejection. *)
Theorem memory_rejected_in_production {P : Platform} (cfg : Config) (w : World) :
  isMemory cfg = true →
  case_insensitive_eq (Getenv w (ProductionEnvVar (defaults cfg))) "production" →
  (AllowMemoryInProduction cfg = false →
     Open cfg w
     = (w, [], inl (ErrProduction (ProductionEnvVar (defaults cfg))))) ∧
  (AllowMemoryInProduction cfg = true →
     ∃ w' log r,
       openAndMigrate (defaults cfg) memoryPragmas w = (w', log, r) ∧
       Open cfg w = (w', Info "DB mode: in-memory" [] :: log, r) ∧
       ∀ v, r ≠ inl (ErrProduction v)).
Proof.
  intros Hmem Hprod. apply EqualFold_spec in Hprod.
  unfold Open, openMemory, isProduction.
  change (isMemory (defaults cfg)) with (isMemory cfg).
  change (AllowMemoryInProduction (defaults cfg))
    with (AllowMemoryInProduction cfg).
  rewrite Hmem, Hprod. split; intros ->; simpl; [done|].
  destruct (openAndMigrate (defaults cfg) memoryPragmas w)
    as [[w' log] r] eqn:Hopen.
  exists w', log, r. repeat split.
  intros v ->. by eapply openAndMigrate_not_production.
Qed.

Lemma memory_rejected_in_production_witness :
  Open (P := Demo.platform) (Demo.config_of ":memory:" None)
    (Demo.world [("ENV", "Production")] [])
  = (Demo.world [("ENV", "Production")] [], [], inl (ErrProduction "ENV")).
Proof.
  destruct (memory_rejected_in_production (P := Demo.platform)
              (Demo.config_of ":memory:" None)
              (Demo.world [("ENV", "Production")] [])) as [Hreject _].
  - vm_compute. reflexivity.
  - apply EqualFold_spec. vm_compute. reflexivity.
  - exact (Hreject eq_refl).
Defined.

(** ** C7: [Create] *)

(** A location that [isMemory] does not take for in-memory is not
    [:memory:]. *)
Lemma isMemory_false_path cfg :
  isMemory cfg = false → String.eqb (cfg_Path cfg) ":memory:" = false.
Proof. unfold isMemory, isMemoryPath. by intros [? _]%orb_false_elim. Qed.

Section CreateFacts.
Context {P : Platform}.

(** The four rules of [validatePersistentPath], in the order in which
    they are checked. *)
Lemma validatePersistentPath_rules fs path :
  (Filepath.IsAbs path = false →
     validatePersistentPath fs path = Some (ErrNotAbsolute path)) ∧
  (Filepath.IsAbs path = true → Filepath.Ext path ≠ ".db" →
     validatePersistentPath fs path = Some (ErrExtension path)) ∧
  (Filepath.IsAbs path = true → Filepath.Ext path = ".db" →
   isDirectory fs path = true →
     validatePersistentPath fs path = Some (ErrIsDirectory path)) ∧
  (Filepath.IsAbs path = true → Filepath.Ext path = ".db" →
   isDirectory fs path = false →
   isDirectory fs (filepath_Dir path) = false →
     validatePersistentPath fs path = Some (ErrNoParent (filepath_Dir path))) ∧
  (validatePersistentPath fs path = None ↔
     Filepath.IsAbs path = true ∧ Filepath.Ext path = ".db" ∧
     isDirectory fs path = false ∧
     isDirectory fs (filepath_Dir path) = true).
Proof.
  unfold validatePersistentPath.
  destruct (Filepath.IsAbs path); simpl.
  2:{ repeat split; try done. by intros (? & _). }
  destruct (String.eqb_spec (Filepath.Ext path) ".db") as [Hext|Hext]; simpl.
  2:{ repeat split; try done. by intros (_ & ? & _). }
  destruct (isDirectory fs path); simpl.
  { repeat split; try done. by intros (_ & _ & ? & _). }
  destruct (isDirectory fs (filepath_Dir path)); simpl.
  - repeat split; done.
  - repeat split; try done. by intros (_ & _ & _ & ?).
Qed.

(** A persistent database that [openAndMigrate] returns is in a regular
    file at its path, and no other path has changed. *)
Lemma openAndMigrate_file cfg pragmas w w' log db :
  isMemory cfg = false →
  openAndMigrate cfg pragmas w = (w', log, inr db) →
  files w' = <[cfg_Path cfg := RegularFile (Some db)]> (files w).
Proof.
  intros Hmem%isMemory_false_path. unfold openAndMigrate, connect, store.
  rewrite Hmem. intros Heq.
  repeat (case_match; simplify_eq); simpl; try done.
  all: try by rewrite insert_insert_eq.
Qed.
End CreateFacts.



(** ** C8: [Delete] *)

Lemma append_empty_r s : s +:+ "" = s.
Proof.
  induction s as [|c s IH]; [done|].
  change (String c (s +:+ "") = String c s). by rewrite IH.
Qed.

Section DeleteFacts.
Context {P : Platform}.

(** One turn of the loop of [Delete] is [remove_one], and the error kept
    is the earliest. *)
Lemma removeFiles_cons path suffix rest fs firstErr :
  removeFiles path (suffix :: rest) fs firstErr
  = removeFiles path rest (remove_one (path +:+ suffix) fs).1
      (first_error [firstErr; (remove_one (path +:+ suffix) fs).2]).
Proof.
  simpl. unfold remove_one.
  destruct (fileExists fs (path +:+ suffix)); simpl.
  - destruct (isRegularFile fs (path +:+ suffix)); simpl.
    + destruct (os_Remove (path +:+ suffix) fs) as [fs' [err|]];
        by destruct firstErr.
    + by destruct firstErr.
  - by destruct firstErr.
Qed.
End DeleteFacts.

(** C8, as the code has it.  [Delete] rejects an in-memory location and
    then validates the path, returning the validation error.  At a valid
    path there is no directory.  When no regular file is there either
    (nothing is there, or something that is neither a regular file nor a
    directory), [Delete] returns no error and leaves the world as it is.
    When a regular file is there, it hands it to [os.Remove] and then
    deals with the two sidecar names [-shm] and [-wal], each in the file
    system the previous step left and whether or not an earlier step
    failed: a regular file is handed to [os.Remove], a directory is an
    error, not a regular file, and anything else (nothing, or something
    that is neither) is passed over.  The error returned is the first of
    the three, wrapped; when there is none, [Delete] checks that no
    regular file or directory is at the primary path and returns an error
    if one is. *)
Theorem Delete_validates_then_removes_all_three {P : Platform}
    (path : string) (w : World) :
  (isMemoryPath path = true → Delete path w = (w, Some ErrDeleteMemory)) ∧
  (isMemoryPath path = false →
     (∀ err, validatePersistentPath (files w) path = Some err →
        Delete path w = (w, Some err)) ∧
     (validatePersistentPath (files w) path = None →
        files w !! path ≠ Some Directory ∧
        (files w !! path = None ∨ files w !! path = Some Irregular →
           Delete path w = (w, None)) ∧
        (∀ content, files w !! path = Some (RegularFile content) →
           ∀ fs1 e1 fs2 e2 fs3 e3,
             os_Remove path (files w) = (fs1, e1) →
             remove_one (path +:+ "-shm") fs1 = (fs2, e2) →
             remove_one (path +:+ "-wal") fs2 = (fs3, e3) →
             Delete path w
             = (with_files w fs3,
                match first_error [e1; e2; e3] with
                | Some err => Some (Wrap ("delete " +:+ path) err)
                | None =>
                    match fs3 !! path with
                    | Some (RegularFile _) | Some Directory =>
                        Some (ErrStillExists path)
                    | Some Irregular | None => None
                    end
                end)))) ∧
  (∀ name fs,
     remove_one name fs
     = match fs !! name with
       | Some (RegularFile _) => os_Remove name fs
       | Some Directory => (fs, Some (ErrNotRegular name))
       | Some Irregular | None => (fs, None)
       end).
Proof.
  split; [| split].
  - unfold Delete. by intros ->.
  - unfold Delete. intros ->.
    split; [by intros err -> |]. intros Hval. rewrite Hval.
    apply validatePersistentPath_rules in Hval as (_ & _ & Hnd & _).
    split; [| split].
    + unfold isDirectory in Hnd. intros Hdir. by rewrite Hdir in Hnd.
    + unfold fileExists. by intros [-> | ->].
    + intros content Hfile fs1 e1 fs2 e2 fs3 e3 H1 H2 H3.
      assert (fileExists (files w) path = true) as ->.
      { unfold fileExists. by rewrite Hfile. }
      simpl negb. cbv iota.
      assert (remove_one path (files w) = (fs1, e1)) as H0.
      { unfold remove_one, fileExists, isRegularFile. by rewrite Hfile. }
      rewrite !removeFiles_cons, append_empty_r, H0. simpl fst. simpl snd.
      rewrite H2. simpl fst. simpl snd. rewrite H3. simpl.
      unfold fileExists.
      destruct e1, e2, e3; simpl; try done;
        by destruct (fs3 !! path) as [[| |] |].
  - intros name fs. unfold remove_one, fileExists, isRegularFile.
    by destruct (fs !! name) as [[| |] |].
Qed.

Lemma Delete_validates_then_removes_all_three_witness :
  ∃ w',
    Delete (P := Demo.platform) "/data/locked.db" Demo.locked_world
    = (w', Some (Wrap "delete /data/locked.db"
                   (FsError "remove" "/data/locked.db"))) ∧
    fileExists (files w') "/data/locked.db" = true ∧
    fileExists (files w') "/data/locked.db-shm" = false ∧
    fileExists (files w') "/data/locked.db-wal" = false.
Proof.
  destruct (Delete_validates_then_removes_all_three (P := Demo.platform)
              "/data/locked.db" Demo.locked_world) as (_ & Hpersistent & _).
  destruct Hpersistent as [_ Hvalid]; [vm_compute; reflexivity|].
  destruct Hvalid as (_ & _ & Hthere); [vm_compute; reflexivity|].
  assert (files Demo.locked_world !! "/data/locked.db"
          = Some (RegularFile (Some Demo.initialized)))
    as Hfile by (vm_compute; reflexivity).
  pose proof (Hthere _ Hfile _ _ _ _ _ _ (surjective_pairing _)
                (surjective_pairing _) (surjective_pairing _)) as Hrun.
  eexists. split; [rewrite Hrun; vm_compute; reflexivity|].
  vm_compute. repeat split.
Defined.

(** C8 as stated departs from the code in three places.  It has
    [Delete] return without error whenever the primary file is absent:
    for a relative path with no file the code returns the validation
    error.  It has [Delete] attempt the removal of the three files
    whenever the primary file is not absent: when a device or a pipe is at
    the primary path the code returns without error and removes nothing,
    not even a sidecar that is a regular file.  And it has [Delete]
    attempt the removal of both sidecars: a directory at a sidecar name is
    not handed to [os.Remove], which would remove it, but reported as an
    error. *)
Lemma Delete_validates_first_and_removes_regular_files_only :
  (isMemoryPath "data/app.db" = false ∧
   files (Demo.world [] [("/data", Directory)]) !! "data/app.db" = None ∧
   Delete (P := Demo.platform) "data/app.db"
     (Demo.world [] [("/data", Directory)])
   = (Demo.world [] [("/data", Directory)],
      Some (ErrNotAbsolute "data/app.db"))) ∧
  (let w := Demo.world [] [("/data", Directory);
                           ("/data/app.db", Irregular);
                           ("/data/app.db-wal", RegularFile None)] in
   isMemoryPath "/data/app.db" = false ∧
   validatePersistentPath (P := Demo.platform) (files w) "/data/app.db"
   = None ∧
   files w !! "/data/app.db" = Some Irregular ∧
   files w !! "/data/app.db-wal" = Some (RegularFile None) ∧
   Delete (P := Demo.platform) "/data/app.db" w = (w, None)) ∧
  (let w := Demo.world [] [("/data", Directory);
                           ("/data/app.db", RegularFile (Some Demo.initialized));
                           ("/data/app.db-shm", Directory)] in
   ∃ w',
     Delete (P := Demo.platform) "/data/app.db" w
     = (w', Some (Wrap "delete /data/app.db"
                    (ErrNotRegular "/data/app.db-shm"))) ∧
     files w' !! "/data/app.db" = None ∧
     files w' !! "/data/app.db-shm" = Some Directory ∧
     (Demo.Remove "/data/app.db-shm" (files w')).2 = None ∧
     (Demo.Remove "/data/app.db-shm" (files w')).1 !! "/data/app.db-shm"
     = None).
Proof.
  split; [by vm_compute | split]; [by vm_compute |].
  eexists. split; [vm_compute; reflexivity |]. by vm_compute.
Qed.

(** The check after the removal: a remover that reports success and leaves
    the file in place. *)
Example Delete_still_exists :
  (Delete (P := Demo.lazy_platform) "/data/locked.db" Demo.locked_world).2
  = Some (ErrStillExists "/data/locked.db").
Proof. vm_compute. reflexivity. Qed.

(** ** C9: [Status] *)

Lemma ltb_asym s t : Strings.lt s t = true → Strings.lt t s = false.
Proof.
  unfold Strings.lt, String.ltb. rewrite (String.compare_antisym t s).
  by destruct (String.compare s t).
Qed.

Lemma collectPending_spec scripts appliedPaths pending :
  collectPending scripts appliedPaths pending
  = pending ++ filter (λ p, index appliedPaths p = false) (map Path scripts).
Proof.
  revert pending. induction scripts as [|s scripts IH]; intros pending; simpl.
  - by rewrite app_nil_r.
  - rewrite filter_cons.
    destruct (index appliedPaths (Path s)) eqn:Hs; simpl; rewrite IH.
    + by destruct (decide (true = false)).
    + destruct (decide (false = false)); [|done]. by rewrite <- app_assoc.
Qed.


Lemma world_with_own_file (w : World) path node :
  files w !! path = Some node →
  with_files w (<[path := node]> (files w)) = w.
Proof.
  intros Hnode. unfold with_files. rewrite insert_id by done. by destruct w.
Qed.

Section StatusFacts.
Context {P : Platform}.


End StatusFacts.




(** ** Strings *)

Lemma append_cons c s t : String c s +:+ t = String c (s +:+ t).
Proof. done. Qed.

Lemma append_nil s : "" +:+ s = s.
Proof. done. Qed.

Lemma length_append s t :
  String.length (s +:+ t) = (String.length s + String.length t)%nat.
Proof.
  induction s as [|c s IH]; [done|].
  rewrite append_cons. simpl. by rewrite IH.
Qed.

Lemma chars_cons c s : chars (String c s) = c :: chars s.
Proof. done. Qed.

Lemma append_cons_empty c s t : String c s +:+ t ≠ "".
Proof. by rewrite append_cons. Qed.

Lemma strip_suffix_unfold s suffix :
  Regexp.strip_suffix s suffix
  = if String.eqb s suffix then Some ""
    else match s with
         | String c s' =>
             match Regexp.strip_suffix s' suffix with
             | Some before => Some (String c before)
             | None => None
             end
         | EmptyString => None
         end.
Proof. by destruct s. Qed.

Lemma strip_suffix_spec s suffix before :
  Regexp.strip_suffix s suffix = Some before ↔ s = before +:+ suffix.
Proof.
  revert before. induction s as [|c s IH]; intros before;
    rewrite strip_suffix_unfold.
  - destruct (String.eqb_spec "" suffix) as [<-|Hne].
    + split; [intros [= <-]; reflexivity|].
      destruct before as [|b before]; [done|].
      intros Heq. symmetry in Heq. by apply append_cons_empty in Heq.
    + split; [intros [=]|]. destruct before as [|b before].
      * rewrite append_nil. by intros <-.
      * intros Heq. symmetry in Heq. by apply append_cons_empty in Heq.
  - destruct (String.eqb_spec (String c s) suffix) as [<-|Hne].
    + split; [intros [= <-]; reflexivity|]. intros Heq.
      destruct before as [|b before]; [done|].
      apply (f_equal String.length) in Heq.
      rewrite length_append in Heq. simpl in Heq. lia.
    + destruct (Regexp.strip_suffix s suffix) as [before'|].
      * split.
        { intros [= <-]. rewrite append_cons. f_equal. by apply IH. }
        destruct before as [|b before].
        { rewrite append_nil. by intros <-. }
        rewrite append_cons. intros [= <- Heq]. by apply IH in Heq as [= ->].
      * split; [intros [=]|]. destruct before as [|b before].
        { rewrite append_nil. by intros <-. }
        rewrite append_cons. intros [= <- Heq]. by apply IH in Heq.
Qed.

(** ** The file name pattern *)

Lemma digits_spec n s ds rest :
  Regexp.digits n s = Some (ds, rest) ↔
  s = ds +:+ rest ∧ String.length ds = n ∧
  Forall (λ c, Strconv.is_digit c = true) (chars ds).
Proof.
  revert s ds rest. induction n as [|n IH]; intros s ds rest; simpl.
  - split.
    + intros [= <- <-]. repeat split. constructor.
    + intros (-> & Hlen & _). by destruct ds.
  - destruct s as [|c s].
    + split; [intros [=]|]. intros (Heq & Hlen & _).
      destruct ds as [|d ds]; [done|].
      symmetry in Heq. by apply append_cons_empty in Heq.
    + destruct (Strconv.is_digit c) eqn:Hc.
      * destruct (Regexp.digits n s) as [[ds' rest']|] eqn:Hd.
        -- apply IH in Hd as (-> & <- & Hall). split.
           ++ intros [= <- <-]. repeat split. by constructor.
           ++ intros (Heq & Hlen & Hds). destruct ds as [|d ds]; [done|].
              rewrite append_cons in Heq. injection Heq as <- Heq.
              injection Hlen as Hlen. inversion Hds; subst.
              assert (Regexp.digits (String.length ds') (ds' +:+ rest')
                      = Some (ds, rest)) as Hagain.
              { apply IH. by rewrite Heq. }
              assert (Regexp.digits (String.length ds') (ds' +:+ rest')
                      = Some (ds', rest')) as Hfirst.
              { apply IH. repeat split. done. }
              congruence.
        -- split; [intros [=]|]. intros (Heq & Hlen & Hds).
           destruct ds as [|d ds]; [done|].
           rewrite append_cons in Heq. injection Heq as <- Heq.
           injection Hlen as Hlen. inversion Hds; subst.
           assert (Regexp.digits (String.length ds) (ds +:+ rest)
                   = Some (ds, rest)) as Hagain by (by apply IH).
           congruence.
      * split; [intros [=]|]. intros (Heq & Hlen & Hds).
        destruct ds as [|d ds]; [done|].
        rewrite append_cons in Heq. injection Heq as <- Heq.
        inversion Hds; subst. congruence.
Qed.

Lemma all_dot_spec s :
  Regexp.all_dot s = true ↔ Forall (λ c, c ≠ "010"%char) (chars s).
Proof.
  induction s as [|c s IH].
  - split; [constructor|done].
  - change (Regexp.all_dot (String c s))
      with (Regexp.dot c && Regexp.all_dot s).
    rewrite chars_cons, Forall_cons, andb_true_iff, IH.
    unfold Regexp.dot. rewrite negb_true_iff.
    destruct (Ascii.eqb_spec c "010") as [->|Hc].
    + split; [by intros [[=] _]|by intros [? _]].
    + split; [by intros [_ ?]|by intros [_ ?]].
Qed.

(** [FindStringSubmatch] finds exactly the names of the pattern, with
    their two groups. *)
Lemma FindStringSubmatch_spec name prefix comment :
  Regexp.FindStringSubmatch name = Some (prefix, comment) ↔
  matches_pattern name prefix comment.
Proof.
  unfold Regexp.FindStringSubmatch, matches_pattern. split.
  - destruct (Regexp.digits 14 name) as [[p rest]|] eqn:Hd; [|done].
    apply digits_spec in Hd as (-> & Hlen & Hdigits).
    destruct rest as [|u rest]; [done|].
    destruct (Ascii.eqb_spec u "_") as [->|Hu].
    2:{ destruct u as [[] [] [] [] [] [] [] []]; done. }
    destruct (Regexp.strip_suffix rest ".sql") as [c|] eqn:Hs; [|done].
    apply strip_suffix_spec in Hs as ->.
    destruct c as [|c0 c]; [done|].
    destruct (Regexp.all_dot (String c0 c)) eqn:Hdot; [|done].
    intros [= <- <-]. apply all_dot_spec in Hdot. done.
  - intros (-> & Hlen & Hdigits & Hne & Hdot).
    assert (Regexp.digits 14 (prefix +:+ "_" +:+ comment +:+ ".sql")
            = Some (prefix, "_" +:+ comment +:+ ".sql")) as ->
      by by apply digits_spec.
    rewrite append_cons, append_nil.
    assert (Regexp.strip_suffix (comment +:+ ".sql") ".sql" = Some comment)
      as -> by by apply strip_suffix_spec.
    apply all_dot_spec in Hdot. rewrite Hdot. by destruct comment.
Qed.

(** The groups of a name are determined by the name. *)
Lemma matches_pattern_inj name p1 c1 p2 c2 :
  matches_pattern name p1 c1 → matches_pattern name p2 c2 →
  p1 = p2 ∧ c1 = c2.
Proof.
  intros H1%FindStringSubmatch_spec H2%FindStringSubmatch_spec.
  rewrite H1 in H2. by injection H2.
Qed.

(** ** Byte-wise order *)

Lemma ltb_cons a b s t :
  Strings.lt (String a s) (String b t)
  = match (N_of_ascii a ?= N_of_ascii b)%N with
    | Eq => Strings.lt s t
    | Lt => true
    | Gt => false
    end.
Proof.
  unfold Strings.lt, String.ltb. simpl. unfold Ascii.compare.
  by destruct (N_of_ascii a ?= N_of_ascii b)%N.
Qed.

Lemma N_of_ascii_inj a b : N_of_ascii a = N_of_ascii b → a = b.
Proof.
  intros Heq. by rewrite <- (ascii_N_embedding a), <- (ascii_N_embedding b), Heq.
Qed.

(** The comparison of Go strings is the byte-wise lexicographic order. *)
Lemma lt_spec s t : Strings.lt s t = true ↔ lex_lt s t.
Proof.
  revert t. induction s as [|a s IH]; intros [|b t].
  - split; [done|inversion 1].
  - split; [constructor|done].
  - split; [done|inversion 1].
  - rewrite ltb_cons.
    destruct (N.compare_spec (N_of_ascii a) (N_of_ascii b)) as [Heq|Hlt|Hgt].
    + apply N_of_ascii_inj in Heq as ->. rewrite IH. split.
      * by constructor.
      * inversion 1; subst; [lia|done].
    + split; [by constructor|done].
    + split; [done|]. inversion 1; subst; lia.
Qed.

Lemma lt_not_lt_le s t : Strings.lt t s = false ↔ String.le s t.
Proof.
  unfold Strings.lt, String.ltb, String.le, String.leb.
  rewrite (String.compare_antisym s t).
  destruct (String.compare t s); simpl; split; intros Hx; try done;
    try discriminate.
Qed.

Lemma lt_total s t : s ≠ t → Strings.lt s t = true ∨ Strings.lt t s = true.
Proof.
  intros Hne. unfold Strings.lt, String.ltb.
  rewrite (String.compare_antisym t s).
  destruct (String.compare s t) eqn:Hc; simpl; auto.
  by apply String.compare_eq_iff in Hc.
Qed.

(** With different prefixes of one length, the prefixes decide. *)
Lemma lt_append p q r r' :
  String.length p = String.length q →
  Strings.lt p q = true → Strings.lt (p +:+ r) (q +:+ r') = true.
Proof.
  revert q. induction p as [|a p IH]; intros [|b q] Hlen; try done.
  rewrite !append_cons, !ltb_cons.
  destruct (N_of_ascii a ?= N_of_ascii b)%N; [|done..].
  apply IH. by injection Hlen.
Qed.

(** ** Decimal numbers *)

Lemma digit_value_bound c :
  Strconv.is_digit c = true → 0 ≤ Strconv.digit_value c ≤ 9.
Proof.
  unfold Strconv.is_digit, Strconv.digit_value.
  intros [?%N.leb_le ?%N.leb_le]%andb_true_iff. lia.
Qed.

Lemma decimal_cons c s :
  decimal (String c s)
  = Strconv.digit_value c * 10 ^ Z.of_nat (String.length s) + decimal s.
Proof. done. Qed.

Lemma decimal_bound s :
  Forall (λ c, Strconv.is_digit c = true) (chars s) →
  0 ≤ decimal s < 10 ^ Z.of_nat (String.length s).
Proof.
  induction s as [|c s IH]; [simpl; lia|].
  rewrite chars_cons, Forall_cons. intros [Hc%digit_value_bound Hs].
  specialize (IH Hs). rewrite decimal_cons.
  change (String.length (String c s)) with (S (String.length s)).
  rewrite Nat2Z.inj_succ, Z.pow_succ_r by lia. nia.
Qed.

Lemma parse_digits_spec s acc :
  Forall (λ c, Strconv.is_digit c = true) (chars s) →
  Strconv.parse_digits s acc
  = Some (acc * 10 ^ Z.of_nat (String.length s) + decimal s).
Proof.
  revert acc. induction s as [|c s IH]; intros acc.
  - intros _. simpl. f_equal. lia.
  - rewrite chars_cons, Forall_cons. intros [Hc Hs]. simpl Strconv.parse_digits.
    rewrite Hc, (IH _ Hs), decimal_cons. f_equal.
    change (String.length (String c s)) with (S (String.length s)).
    rewrite Nat2Z.inj_succ, Z.pow_succ_r by lia. lia.
Qed.

(** [strconv.Atoi] on a run of at most 18 digits is its decimal value. *)
Lemma Atoi_digits s :
  Forall (λ c, Strconv.is_digit c = true) (chars s) →
  s ≠ "" → (String.length s ≤ 18)%nat →
  Strconv.Atoi s = inr (decimal s).
Proof.
  intros Hs Hne Hlen. pose proof (decimal_bound s Hs) as Hb.
  assert (10 ^ Z.of_nat (String.length s) ≤ 10 ^ 18) as Hpow
    by (apply Z.pow_le_mono_r; lia).
  destruct s as [|c s]; [done|].
  pose proof Hs as Hs'. rewrite chars_cons, Forall_cons in Hs'.
  destruct Hs' as [Hc _]. unfold Strconv.Atoi.
  destruct (Ascii.eqb_spec c "-") as [->|_]; [done|].
  destruct (Ascii.eqb_spec c "+") as [->|_]; [done|].
  rewrite (parse_digits_spec _ 0 Hs), Z.mul_0_l, Z.add_0_l.
  unfold Strconv.int_min, Strconv.int_max.
  destruct (Z.leb_spec (- 2 ^ 63) (decimal (String c s))); [|lia].
  destruct (Z.leb_spec (decimal (String c s)) (2 ^ 63 - 1)); [done|lia].
Qed.

(** On digit strings of one length the byte-wise order is the order of the
    numbers. *)
Lemma decimal_mono p q :
  String.length p = String.length q →
  Forall (λ c, Strconv.is_digit c = true) (chars p) →
  Forall (λ c, Strconv.is_digit c = true) (chars q) →
  Strings.lt p q = true → decimal p < decimal q.
Proof.
  revert q. induction p as [|a p IH]; intros [|b q] Hlen; try done.
  rewrite !chars_cons, !Forall_cons, ltb_cons, !decimal_cons.
  intros [Ha Hp] [Hb Hq]. injection Hlen as Hlen. rewrite Hlen.
  pose proof (decimal_bound p Hp) as Bp. pose proof (decimal_bound q Hq) as Bq.
  rewrite Hlen in Bp.
  assert (0 < 10 ^ Z.of_nat (String.length q)) as Hpos
    by (apply Z.pow_pos_nonneg; lia).
  destruct (N.compare_spec (N_of_ascii a) (N_of_ascii b)) as [Heq|Hlt|Hgt].
  - apply N_of_ascii_inj in Heq as ->. intros Hlt. specialize (IH q Hlen Hp Hq Hlt).
    lia.
  - intros _. unfold Strconv.digit_value. nia.
  - done.
Qed.

Lemma decimal_inj p q :
  String.length p = String.length q →
  Forall (λ c, Strconv.is_digit c = true) (chars p) →
  Forall (λ c, Strconv.is_digit c = true) (chars q) →
  decimal p = decimal q → p = q.
Proof.
  intros Hlen Hp Hq Heq. destruct (decide (p = q)) as [|Hne]; [done|].
  destruct (lt_total p q Hne) as [Hlt|Hlt].
  - apply decimal_mono in Hlt; [lia|done..].
  - apply decimal_mono in Hlt; [lia|done..].
Qed.

Lemma decimal_lt p q :
  String.length p = String.length q →
  Forall (λ c, Strconv.is_digit c = true) (chars p) →
  Forall (λ c, Strconv.is_digit c = true) (chars q) →
  decimal p < decimal q → Strings.lt p q = true.
Proof.
  intros Hlen Hp Hq Hlt.
  destruct (lt_total p q) as [|Hgt]; [intros ->; lia|done|].
  apply decimal_mono in Hgt; [lia|done..].
Qed.

(** ** Script discovery *)

Lemma script_of_Some e s :
  script_of e = Some s ↔
  IsDir e = false ∧ Path s = Name e ∧
  ∃ prefix, matches_pattern (Name e) prefix (Comment s) ∧ ID s = decimal prefix.
Proof.
  unfold script_of. destruct (IsDir e).
  { split; [intros [=]|]. by intros ([=] & _). }
  destruct (Regexp.FindStringSubmatch (Name e)) as [[p c]|] eqn:Hm.
  - apply FindStringSubmatch_spec in Hm. split.
    + intros [= <-]. simpl. eauto.
    + intros (_ & Hpath & p' & Hm' & Hid).
      destruct (matches_pattern_inj _ _ _ _ _ Hm Hm') as [<- Hc].
      destruct s as [id c' path]. simpl in *. by subst.
  - split; [intros [=]|]. intros (_ & _ & p & Hm'%FindStringSubmatch_spec & _).
    congruence.
Qed.

Lemma script_of_well_formed e s : script_of e = Some s → well_formed s.
Proof.
  intros (_ & Hpath & p & Hm & Hid)%script_of_Some.
  exists p. by rewrite Hpath.
Qed.

Lemma matches_pattern_Atoi name prefix comment :
  matches_pattern name prefix comment →
  Strconv.Atoi prefix = inr (decimal prefix).
Proof.
  intros (_ & Hlen & Hdigits & _). apply Atoi_digits; [done| |lia].
  intros ->. done.
Qed.

Lemma scanEntries_skip e rest scripts seenIDs log :
  script_of e = None →
  ∃ log1,
    scanEntries (e :: rest) scripts seenIDs log
    = scanEntries rest scripts seenIDs log1.
Proof.
  unfold script_of. simpl. destruct (IsDir e); [by eexists|].
  destruct (Regexp.FindStringSubmatch (Name e)) as [[p c]|]; [done|].
  by eexists.
Qed.

Lemma scanEntries_script e s rest scripts seenIDs log :
  script_of e = Some s →
  scanEntries (e :: rest) scripts seenIDs log
  = match seenIDs !! ID s with
    | Some existing => (log, inl (ErrDuplicateID (ID s) existing (Name e)))
    | None =>
        scanEntries rest (scripts ++ [s]) (<[ID s := Name e]> seenIDs) log
    end.
Proof.
  unfold script_of. simpl. destruct (IsDir e); [done|].
  destruct (Regexp.FindStringSubmatch (Name e)) as [[p c]|] eqn:Hm; [|done].
  apply FindStringSubmatch_spec in Hm.
  rewrite (matches_pattern_Atoi _ _ _ Hm). by intros [= <-].
Qed.

(** Without a repeated id the loop collects the script of every entry
    that has one. *)
Lemma scanEntries_distinct entries scripts (seenIDs : gmap Z string) log :
  (∀ id, is_Some (seenIDs !! id) ↔ id ∈ map ID scripts) →
  NoDup (map ID scripts ++ map ID (omap script_of entries)) →
  ∃ log',
    scanEntries entries scripts seenIDs log
    = (log', inr (scripts ++ omap script_of entries)).
Proof.
  revert scripts seenIDs log.
  induction entries as [|e entries IH]; intros scripts seenIDs log Hseen Hnd.
  - exists log. simpl. by rewrite app_nil_r.
  - simpl omap in *. destruct (script_of e) as [s|] eqn:He.
    + rewrite (scanEntries_script _ _ _ _ _ _ He).
      simpl in Hnd. apply NoDup_app in Hnd as (Hnd1 & Hdisj & Hnd2).
      assert (seenIDs !! ID s = None) as ->.
      { apply eq_None_not_Some. rewrite Hseen. intros Hin.
        apply (Hdisj _ Hin). left. }
      destruct (IH (scripts ++ [s]) (<[ID s := Name e]> seenIDs) log)
        as [log' ->].
      * intros id. rewrite map_app, elem_of_app, <- Hseen. simpl.
        rewrite list_elem_of_singleton.
        destruct (decide (ID s = id)) as [->|Hne].
        -- rewrite lookup_insert_eq. split; [auto|]. by eexists.
        -- rewrite lookup_insert_ne by done. split; [auto|].
           intros [?|?]; [done|congruence].
      * rewrite map_app, <- app_assoc. simpl.
        apply NoDup_app. split; [done|]. split; [|done].
        intros id Hin. apply Hdisj. done.
      * exists log'. by rewrite <- app_assoc.
    + destruct (scanEntries_skip e entries scripts seenIDs log He) as [log1 ->].
      by apply IH.
Qed.

Lemma distinct_prefixes_tail e entries :
  distinct_prefixes (e :: entries) → distinct_prefixes entries.
Proof.
  intros Hd i j e1 e2 p1 c1 p2 c2 Hij Hi Hj.
  apply (Hd (S i) (S j)); [lia|done..].
Qed.

Lemma distinct_prefixes_NoDup entries :
  distinct_prefixes entries → NoDup (map ID (omap script_of entries)).
Proof.
  induction entries as [|e entries IH]; intros Hd; [constructor|].
  specialize (IH (distinct_prefixes_tail _ _ Hd)).
  simpl. destruct (script_of e) as [s|] eqn:He; [|done].
  simpl. constructor; [|done].
  intros (s' & Hid & Hin)%list_elem_of_fmap.
  apply list_elem_of_omap in Hin as (e' & [j Hj]%list_elem_of_lookup & He').
  apply script_of_Some in He as (Hdir & _ & p & Hm & Hp).
  apply script_of_Some in He' as (Hdir' & _ & p' & Hm' & Hp').
  apply (Hd 0%nat (S j) e e' p (Comment s) p' (Comment s')); try done.
  destruct Hm as (_ & Hlen & Hdigits & _).
  destruct Hm' as (_ & Hlen' & Hdigits' & _).
  apply decimal_inj; [congruence|done|done|congruence].
Qed.

Lemma well_formed_order a b :
  well_formed a → well_formed b → ID a < ID b →
  Strings.lt (Path a) (Path b) = true.
Proof.
  intros (pa & (-> & Hla & Hda & _) & Ha) (pb & (-> & Hlb & Hdb & _) & Hb) Hlt.
  apply lt_append; [congruence|].
  apply decimal_lt; [congruence|done|done|congruence].
Qed.

Lemma well_formed_same_path a b :
  well_formed a → well_formed b → Path a = Path b → ID a = ID b.
Proof.
  intros (pa & Hma & ->) (pb & Hmb & ->) Hpath. rewrite Hpath in Hma.
  by destruct (matches_pattern_inj _ _ _ _ _ Hma Hmb) as [-> _].
Qed.

Lemma StronglySorted_strengthen {A} (R R' : A → A → Prop) (Q : A → Prop)
    (k : A → Z) l :
  (∀ a b, Q a → Q b → k a ≠ k b → R a b → R' a b) →
  Forall Q l → NoDup (map k l) → StronglySorted R l → StronglySorted R' l.
Proof.
  intros Himp. induction l as [|x l IH]; intros HQ Hnd Hs; [constructor|].
  apply Forall_cons in HQ as [Hx HQ]. simpl in Hnd.
  apply NoDup_cons in Hnd as [Hnotin Hnd].
  apply StronglySorted_inv in Hs as [Hs Hall].
  constructor; [by apply IH|].
  rewrite Forall_forall in *. intros y Hy. apply Himp; auto.
  intros Heq. apply Hnotin. rewrite Heq. apply list_elem_of_fmap. eauto.
Qed.

Lemma not_lessPath_trans :
  Transitive (λ a b : migrationScript, lessPath b a = false).
Proof.
  intros a b c. unfold lessPath. rewrite !lt_not_lt_le. apply transitivity.
Qed.

(** Sorting scripts with pairwise distinct ids by path puts them in
    strictly ascending order of path and of id. *)
Lemma sort_scripts l :
  Forall well_formed l → NoDup (map ID l) →
  StronglySorted (λ a b, lex_lt (Path a) (Path b)) (sort_Slice lessPath l) ∧
  StronglySorted (λ a b, ID a < ID b) (sort_Slice lessPath l).
Proof.
  intros Hwf Hnd.
  assert (Forall well_formed (sort_Slice lessPath l)) as Hwf'
    by by rewrite sort_Slice_perm.
  assert (NoDup (map ID (sort_Slice lessPath l))) as Hnd'
    by by rewrite sort_Slice_perm.
  assert (StronglySorted (λ a b, lessPath b a = false) (sort_Slice lessPath l))
    as Hs.
  { apply Sorted_StronglySorted; [apply not_lessPath_trans|].
    apply sort_Slice_sorted. intros x y. apply ltb_asym. }
  split.
  - eapply StronglySorted_strengthen; [|exact Hwf'|exact Hnd'|exact Hs].
    intros a b Ha Hb Hid Hle. apply lt_spec.
    destruct (lt_total (Path a) (Path b)) as [|Hgt]; [|done|].
    + intros Hpath. by apply Hid, well_formed_same_path.
    + unfold lessPath in Hle. congruence.
  - eapply StronglySorted_strengthen; [|exact Hwf'|exact Hnd'|exact Hs].
    intros a b Ha Hb Hid Hle.
    destruct (Z.lt_trichotomy (ID a) (ID b)) as [|[|Hgt]]; [done..|].
    apply (well_formed_order b a) in Hgt; [|done..].
    unfold lessPath in Hle. congruence.
Qed.

(** ** C3: discovery returns the scripts in order *)

(** C3.  Let the collection list [entries], in which no two files with a
    matching name have the same 14-digit prefix.  Then [listMigrationFiles]
    returns a list of scripts, not an error, and has logged nothing but
    skip notices.  The scripts are exactly those of the entries that are
    not directories and whose name matches the pattern, each with the
    file name as its path, the middle part of the name as its comment and
    the number its 14 digits denote as its id.  The list is in strictly
    ascending byte-wise order of path, and in strictly ascending order
    of id. *)
Theorem discovery_returns_scripts_in_order (fs : FS) (entries : list DirEntry) :
  ReadDir fs = inr entries →
  distinct_prefixes entries →
  ∃ log scripts,
    listMigrationFiles fs = (log, inr scripts) ∧
    Forall skip_notice log ∧
    (∀ s, s ∈ scripts ↔
       ∃ e prefix,
         e ∈ entries ∧ IsDir e = false ∧
         matches_pattern (Name e) prefix (Comment s) ∧
         Path s = Name e ∧ ID s = decimal prefix) ∧
    StronglySorted (λ a b, lex_lt (Path a) (Path b)) scripts ∧
    StronglySorted (λ a b, ID a < ID b) scripts.
Proof.
  intros Hread Hdistinct. unfold listMigrationFiles. rewrite Hread.
  destruct (scanEntries_distinct entries [] ∅ []) as [log Hscan].
  { intros id. rewrite lookup_empty. simpl. rewrite elem_of_nil.
    split; [by intros [? ?]|done]. }
  { simpl. by apply distinct_prefixes_NoDup. }
  rewrite Hscan. simpl. exists log, (sort_Slice lessPath (omap script_of entries)).
  split; [done|]. split.
  { eapply scanEntries_log; [exact Hscan|constructor]. }
  split.
  { intros s. rewrite elem_of_sort_Slice, list_elem_of_omap. split.
    - intros (e & He & (Hdir & Hpath & p & Hm & Hid)%script_of_Some).
      by exists e, p.
    - intros (e & p & He & Hdir & Hm & Hpath & Hid). exists e.
      split; [done|]. apply script_of_Some. eauto. }
  apply sort_scripts.
  - apply Forall_forall. intros s (e & _ & He)%list_elem_of_omap.
    by eapply script_of_well_formed.
  - by apply distinct_prefixes_NoDup.
Qed.

Lemma discovery_returns_scripts_in_order_witness :
  ∃ log,
    listMigrationFiles Demo.valid
    = (log,
       inr [ {| ID := 20260101000001; Comment := "create_users";
                Path := "20260101000001_create_users.sql" |};
             {| ID := 20260101000002; Comment := "create_posts";
                Path := "20260101000002_create_posts.sql" |} ]).
Proof.
  destruct (discovery_returns_scripts_in_order Demo.valid
              [Demo.file "20260101000002_create_posts.sql"; Demo.dir "sub";
               Demo.file "README.md";
               Demo.file "20260101000001_create_users.sql"])
    as (log & scripts & Hlist & _).
  - reflexivity.
  - intros i j e1 e2 p1 c1 p2 c2 Hij Hi Hj Hd1 Hd2
      Hm1%FindStringSubmatch_spec Hm2%FindStringSubmatch_spec.
    destruct i as [|[|[|[|i]]]]; simpl in Hi; simplify_eq;
      try discriminate Hd1; vm_compute in Hm1; simplify_eq;
      destruct j as [|[|[|[|j]]]]; simpl in Hj; simplify_eq;
      try discriminate Hd2; vm_compute in Hm2; simplify_eq; done.
  - exists log. rewrite Hlist. vm_compute in Hlist. by injection Hlist as _ <-.
Defined.

(** ** C4: a repeated id aborts discovery *)

(** The loop stops at the first entry whose id it has seen. *)
Lemma scanEntries_duplicate entries scripts (seenIDs : gmap Z string) log :
  (∃ k e2 s2,
     entries !! k = Some e2 ∧ script_of e2 = Some s2 ∧
     (is_Some (seenIDs !! ID s2) ∨
      ∃ k' e1 s1, (k' < k)%nat ∧ entries !! k' = Some e1 ∧
                  script_of e1 = Some s1 ∧ ID s1 = ID s2)) →
  ∃ log' id a b,
    scanEntries entries scripts seenIDs log = (log', inl (ErrDuplicateID id a b)).
Proof.
  revert scripts seenIDs log.
  induction entries as [|e entries IH]; intros scripts seenIDs log
    (k & e2 & s2 & Hk & He2 & Hdup); [done|].
  destruct (script_of e) as [s|] eqn:He.
  - rewrite (scanEntries_script _ _ _ _ _ _ He).
    destruct (seenIDs !! ID s) as [existing|] eqn:Hseen; [by eexists _, _, _, _|].
    apply IH. destruct k as [|k].
    { simpl in Hk. injection Hk as <-. rewrite He in He2. injection He2 as <-.
      destruct Hdup as [[? ?]|(k' & _ & _ & ? & _)]; [congruence|lia]. }
    exists k, e2, s2. split; [done|]. split; [done|].
    destruct Hdup as [[n Hn]|(k' & e1 & s1 & Hlt & Hk' & He1 & Hid)].
    + left. destruct (decide (ID s = ID s2)) as [Heq|Hne].
      * rewrite Heq, lookup_insert_eq. by eexists.
      * rewrite lookup_insert_ne by done. by eexists.
    + destruct k' as [|k'].
      * simpl in Hk'. injection Hk' as <-. rewrite He in He1.
        injection He1 as <-. left. rewrite Hid, lookup_insert_eq. by eexists.
      * right. exists k', e1, s1. split; [lia|done].
  - destruct (scanEntries_skip e entries scripts seenIDs log He) as [log1 ->].
    apply IH. destruct k as [|k].
    { simpl in Hk. injection Hk as <-. congruence. }
    exists k, e2, s2. split; [done|]. split; [done|].
    destruct Hdup as [?|(k' & e1 & s1 & Hlt & Hk' & He1 & Hid)]; [by left|].
    destruct k' as [|k'].
    { simpl in Hk'. injection Hk' as <-. congruence. }
    right. exists k', e1, s1. split; [lia|done].
Qed.

(** The names a duplicate-id error carries are those of two files with
    that id. *)
Lemma scanEntries_conflict entries scripts (seenIDs : gmap Z string) log
    log' id a b :
  scanEntries entries scripts seenIDs log = (log', inl (ErrDuplicateID id a b)) →
  ∃ j e2 s2,
    entries !! j = Some e2 ∧ script_of e2 = Some s2 ∧ ID s2 = id ∧
    Name e2 = b ∧
    (seenIDs !! id = Some a ∨
     ∃ i e1 s1, (i < j)%nat ∧ entries !! i = Some e1 ∧
                script_of e1 = Some s1 ∧ ID s1 = id ∧ Name e1 = a).
Proof.
  revert scripts seenIDs log.
  induction entries as [|e entries IH]; intros scripts seenIDs log; [done|].
  destruct (script_of e) as [s|] eqn:He.
  - rewrite (scanEntries_script _ _ _ _ _ _ He).
    destruct (seenIDs !! ID s) as [existing|] eqn:Hseen.
    + intros [= <- <- <- <-]. exists 0%nat, e, s. repeat split; try done.
      by left.
    + intros (j & e2 & s2 & Hj & He2 & Hid & Hname & Hfirst)%IH.
      exists (S j), e2, s2. repeat split; try done.
      destruct Hfirst as [Hseen'|(i & e1 & s1 & Hlt & Hi & He1 & Hid1 & Hn1)].
      * destruct (decide (ID s = id)) as [Heq|Hne].
        -- rewrite Heq, lookup_insert_eq in Hseen'. injection Hseen' as <-.
           right. exists 0%nat, e, s. repeat split; try done. lia.
        -- rewrite lookup_insert_ne in Hseen' by done. by left.
      * right. exists (S i), e1, s1. repeat split; try done. lia.
  - destruct (scanEntries_skip e entries scripts seenIDs log He) as [log1 ->].
    intros (j & e2 & s2 & Hj & He2 & Hid & Hname & Hfirst)%IH.
    exists (S j), e2, s2. repeat split; try done.
    destruct Hfirst as [?|(i & e1 & s1 & Hlt & Hi & He1 & Hid1 & Hn1)];
      [by left|].
    right. exists (S i), e1, s1. repeat split; try done. lia.
Qed.

Lemma matches_pattern_script e prefix comment :
  IsDir e = false → matches_pattern (Name e) prefix comment →
  script_of e
  = Some {| ID := decimal prefix; Comment := comment; Path := Name e |}.
Proof. intros Hdir Hm. apply script_of_Some. simpl. eauto. Qed.

Lemma listMigrationFiles_duplicate fs entries i j e1 e2 p1 c1 p2 c2 :
  ReadDir fs = inr entries →
  entries !! i = Some e1 → entries !! j = Some e2 → (i < j)%nat →
  IsDir e1 = false → IsDir e2 = false →
  matches_pattern (Name e1) p1 c1 → matches_pattern (Name e2) p2 c2 →
  decimal p1 = decimal p2 →
  ∃ log id a b,
    listMigrationFiles fs = (log, inl (ErrDuplicateID id a b)) ∧
    conflicting entries id a b.
Proof.
  intros Hread Hi Hj Hij Hd1 Hd2 Hm1 Hm2 Hid.
  unfold listMigrationFiles. rewrite Hread.
  destruct (scanEntries_duplicate entries [] ∅ []) as (log & id & a & b & Hscan).
  { eexists j, e2, _. split; [done|].
    split; [by apply matches_pattern_script|]. right.
    eexists i, e1, _. split; [done|]. split; [done|].
    split; [by apply matches_pattern_script|]. done. }
  rewrite Hscan. exists log, id, a, b. split; [done|].
  apply scanEntries_conflict in Hscan
    as (j' & e2' & s2 & Hj' & He2 & Hid2 & Hn2 & Hfirst).
  destruct Hfirst as [Hempty|(i' & e1' & s1 & Hlt & Hi' & He1 & Hid1 & Hn1)].
  { by rewrite lookup_empty in Hempty. }
  apply script_of_Some in He1 as (Hdir1 & _ & q1 & Hq1 & Hv1).
  apply script_of_Some in He2 as (Hdir2 & _ & q2 & Hq2 & Hv2).
  exists i', j', e1', e2', q1, (Comment s1), q2, (Comment s2).
  subst a b.
  assert (decimal q1 = id) as Hn1 by congruence.
  assert (decimal q2 = id) as Hn2 by congruence.
  exact (conj Hlt (conj Hi' (conj Hj' (conj Hdir1 (conj Hdir2
           (conj eq_refl (conj eq_refl (conj Hq1 (conj Hq2
              (conj Hn1 Hn2)))))))))).
Qed.

(** C4.  Let the collection hold two files whose names match the pattern
    and whose 14 digits denote the same number.  Then
    [listMigrationFiles] returns the duplicate-id error, which names two
    such files of the collection with the id they share, and no list of
    scripts.  A migration run over the collection therefore ends in an
    error without having handed any script to [applyMigration]: the
    database is as it was found, or as the infrastructure initialization
    left it. *)
Theorem duplicate_id_aborts_discovery {P : Platform}
    (fs : FS) (entries : list DirEntry) (i j : nat) (e1 e2 : DirEntry)
    (p1 c1 p2 c2 : string) :
  ReadDir fs = inr entries →
  entries !! i = Some e1 → entries !! j = Some e2 → i ≠ j →
  IsDir e1 = false → IsDir e2 = false →
  matches_pattern (Name e1) p1 c1 → matches_pattern (Name e2) p2 c2 →
  decimal p1 = decimal p2 →
  ∃ log id a b,
    listMigrationFiles fs = (log, inl (ErrDuplicateID id a b)) ∧
    conflicting entries id a b ∧
    ∀ db cfg now,
      Migrations cfg = Some fs →
      ∃ db' mlog err,
        migrate db cfg now = (db', mlog, Some err) ∧
        (∀ p, applying p ∉ mlog) ∧
        (db' = db ∨ applySchemaInit db cfg now = (db', None)) ∧
        (err = Wrap "list migrations" (ErrDuplicateID id a b) ∨
         fetchSchemaVersion db = inl err ∨
         ∃ e, applySchemaInit db cfg now = (db, Some e) ∧
              err = Wrap "init schema" e).
Proof.
  intros Hread Hi Hj Hij Hd1 Hd2 Hm1 Hm2 Hid.
  assert (∃ log id a b,
            listMigrationFiles fs = (log, inl (ErrDuplicateID id a b)) ∧
            conflicting entries id a b) as (log & id & a & b & Hlist & Hconf).
  { destruct (decide (i < j)%nat).
    - by eapply (listMigrationFiles_duplicate fs entries i j).
    - eapply (listMigrationFiles_duplicate fs entries j i); try done. lia. }
  exists log, id, a, b. split; [done|]. split; [done|].
  intros db cfg now Hm. unfold migrate. rewrite Hm.
  assert (∀ l, Forall skip_notice l → ∀ p, applying p ∉ l) as Hskip.
  { intros l Hl p Hin. eapply Forall_forall in Hl; [|exact Hin]. done. }
  pose proof (listMigrationFiles_log _ _ _ Hlist) as Hlog.
  destruct (fetchSchemaVersion db) as [err|[v|]] eqn:Hv.
  - eexists _, _, _. split; [done|]. split.
    { intros p [[=]|[]%elem_of_nil]%elem_of_cons. }
    split; [by left|]. right. by left.
  - simpl. rewrite Hlist. eexists _, _, _. split; [done|]. split.
    { intros p [[=]|Hin]%elem_of_cons. by eapply Hskip. }
    split; [by left|]. by left.
  - destruct (applySchemaInit db cfg now) as [db1 [e|]] eqn:Hinit; simpl.
    + pose proof (applySchemaInit_failure _ _ _ _ _ Hinit) as ->.
      eexists _, _, _. split; [done|]. split.
      { intros p [[=]|[[=]|[]%elem_of_nil]%elem_of_cons]%elem_of_cons. }
      split; [by left|]. right. right. by exists e.
    + rewrite Hlist. eexists _, _, _. split; [done|]. split.
      { intros p [[=]|[[=]|Hin]%elem_of_cons]%elem_of_cons. by eapply Hskip. }
      split; [by right|]. by left.
Qed.

Lemma duplicate_id_aborts_discovery_witness :
  listMigrationFiles Demo.duplicated
  = ([], inl (ErrDuplicateID 20260101000001
                "20260101000001_create_users.sql"
                "20260101000001_create_posts.sql")) ∧
  ∃ mlog,
    migrate (P := Demo.platform) emptyDB
      (Demo.config_of ":memory:" (Some Demo.duplicated)) Demo.now
    = (Demo.initialized, mlog,
       Some (Wrap "list migrations"
               (ErrDuplicateID 20260101000001
                  "20260101000001_create_users.sql"
                  "20260101000001_create_posts.sql"))) ∧
    ∀ p, applying p ∉ mlog.
Proof.
  destruct (duplicate_id_aborts_discovery (P := Demo.platform) Demo.duplicated
              [Demo.file "20260101000001_create_users.sql";
               Demo.file "20260101000001_create_posts.sql"]
              0 1 (Demo.file "20260101000001_create_users.sql")
              (Demo.file "20260101000001_create_posts.sql")
              "20260101000001" "create_users" "20260101000001" "create_posts")
    as (log & id & a & b & Hlist & _ & Hrun); try reflexivity.
  - lia.
  - apply FindStringSubmatch_spec. vm_compute. reflexivity.
  - apply FindStringSubmatch_spec. vm_compute. reflexivity.
  - destruct (Hrun emptyDB (Demo.config_of ":memory:" (Some Demo.duplicated))
                Demo.now eq_refl) as (db' & mlog & err & Hmig & Hnone & _).
    vm_compute in Hlist. injection Hlist as <- <- <- <-.
    split; [vm_compute; reflexivity|].
    exists mlog. split; [|done]. rewrite Hmig. vm_compute in Hmig.
    by injection Hmig as <- _ <-.
Defined.

(** ** Why an insertion sort stands for [sort.Slice] *)

(** A list has one strictly ascending arrangement only. *)
Lemma sorted_perm_unique {A} (R : A → A → Prop) (l1 l2 : list A) :
  (∀ x y, R x y → R y x → False) →
  StronglySorted R l1 → StronglySorted R l2 → l1 ≡ₚ l2 → l1 = l2.
Proof.
  intros Hasym. revert l2.
  induction l1 as [|x l1 IH]; intros l2 Hs1 Hs2 Hperm.
  - by apply Permutation_nil_l in Hperm.
  - destruct l2 as [|y l2]; [by apply Permutation_nil_r in Hperm|].
    apply StronglySorted_inv in Hs1 as [Hs1 Hx].
    apply StronglySorted_inv in Hs2 as [Hs2 Hy].
    rewrite Forall_forall in Hx, Hy.
    assert (x = y) as <-.
    { assert (x ∈ y :: l2) as [->|Hxl2]%elem_of_cons
        by (rewrite <- Hperm; left); [done|].
      assert (y ∈ x :: l1) as [->|Hyl1]%elem_of_cons
        by (rewrite Hperm; left); [done|].
      destruct (Hasym x y); auto. }
    f_equal. apply IH; [done..|]. by apply Permutation_cons_inv in Hperm.
Qed.

Lemma lex_lt_asym s t : lex_lt s t → lex_lt t s → False.
Proof.
  intros H1%lt_spec H2%lt_spec. apply ltb_asym in H1. congruence.
Qed.

(** Whatever algorithm sorts the discovered scripts by path, it returns
    what the insertion sort returns. *)
Lemma sort_Slice_scripts_unique l l' :
  Forall well_formed l → NoDup (map ID l) →
  l' ≡ₚ l → StronglySorted (λ a b, lex_lt (Path a) (Path b)) l' →
  l' = sort_Slice lessPath l.
Proof.
  intros Hwf Hnd Hperm Hsorted.
  apply (sorted_perm_unique (λ a b, lex_lt (Path a) (Path b)));
    [|done| |].
  - intros x y. apply lex_lt_asym.
  - by apply sort_scripts.
  - by rewrite Hperm, sort_Slice_perm.
Qed.

(** ** More runs of the failure modes of C1 *)

(** A script that empties [config]: the version update affects no row. *)
Example version_row_gone :
  applyMigration (P := Demo.platform) Demo.initialized
    (Demo.collection [Demo.file "20260101000001_a.sql"]
       [("20260101000001_a.sql", "DELETE FROM config;")])
    Demo.script_a Demo.now
  = (Demo.initialized, Some (ErrRowsAffected 0)).
Proof. vm_compute. reflexivity. Qed.

(** A script whose timestamp is all zeros: its record collides with the
    record of the initialization, whose id is 0. *)
Example zero_id_collides :
  applyMigration (P := Demo.platform) Demo.initialized
    (Demo.collection [Demo.file "00000000000000_zero.sql"]
       [("00000000000000_zero.sql", "CREATE TABLE z (id);")])
    {| ID := 0; Comment := "zero"; Path := "00000000000000_zero.sql" |}
    Demo.now
  = (Demo.initialized,
     Some (Wrap "record"
             (Sql (DriverError
                     "constraint failed: UNIQUE constraint failed: schema_migrations.id (1555)")))).
Proof. vm_compute. reflexivity. Qed.

(** The scenario of the test suite: an in-memory database with the two
    scripts ends with three records and version 20260101000002. *)
Example open_memory_with_migrations :
  option_map length (schema_migrations Demo.migrated) = Some 3%nat ∧
  fetchSchemaVersion Demo.migrated = inr (Some 20260101000002) ∧
  fetchSchemaVersion Demo.initialized = inr (Some 0).
Proof. vm_compute. repeat split. Qed.

(** * Further properties *)

(** ** Version texts: [strconv.Itoa] and [strconv.Atoi] *)

Lemma pretty_N_char_digit d :
  (d < 10)%N →
  Strconv.is_digit (pretty_N_char d) = true ∧
  Strconv.digit_value (pretty_N_char d) = Z.of_N d.
Proof.
  intros Hd.
  assert (d = 0 ∨ d = 1 ∨ d = 2 ∨ d = 3 ∨ d = 4 ∨ d = 5 ∨ d = 6 ∨ d = 7
          ∨ d = 8 ∨ d = 9)%N as Hcases by lia.
  repeat (destruct Hcases as [-> | Hcases]; [by vm_compute |]).
  subst d. by vm_compute.
Qed.

Lemma parse_digits_pretty_N_go x s :
  Strconv.parse_digits (pretty_N_go x s) 0 = Strconv.parse_digits s (Z.of_N x).
Proof.
  revert s. induction (N.lt_wf_0 x) as [x _ IH]; intros s.
  assert (x = 0 ∨ 0 < x)%N as [-> | Hpos] by lia.
  { by rewrite pretty_N_go_0. }
  rewrite pretty_N_go_step by done.
  rewrite IH by (by apply N.div_lt).
  destruct (pretty_N_char_digit (x `mod` 10)%N) as [Hd Hv].
  { by apply N.mod_lt. }
  cbn [Strconv.parse_digits]. rewrite Hd, Hv. f_equal.
  rewrite (N.div_mod x 10) at 3 by done. lia.
Qed.

Lemma parse_digits_head c s acc v :
  Strconv.parse_digits (String c s) acc = Some v → Strconv.is_digit c = true.
Proof. simpl. by destruct (Strconv.is_digit c). Qed.

Lemma is_digit_not_sign c :
  Strconv.is_digit c = true →
  Ascii.eqb c "-" = false ∧ Ascii.eqb c "+" = false.
Proof.
  intros Hd. split.
  - destruct (Ascii.eqb_spec c "-") as [-> |]; [by vm_compute in Hd | done].
  - destruct (Ascii.eqb_spec c "+") as [-> |]; [by vm_compute in Hd | done].
Qed.

Lemma Atoi_pretty_pos p :
  Z.pos p ≤ Strconv.int_max →
  Strconv.Atoi (pretty (N.pos p)) = inr (Z.pos p).
Proof.
  intros Hmax.
  pose proof (parse_digits_pretty_N_go (N.pos p) "") as Hparse.
  simpl Strconv.parse_digits at 2 in Hparse.
  unfold pretty, pretty_N. rewrite decide_False by done.
  destruct (pretty_N_go (N.pos p) "") as [| c rest] eqn:Hgo.
  { by simplify_eq/=. }
  destruct (is_digit_not_sign c (parse_digits_head _ _ _ _ Hparse)) as [Hm Hp].
  unfold Strconv.Atoi. rewrite Hm, Hp, Hparse.
  change (Z.of_N (N.pos p)) with (Z.pos p).
  replace (Strconv.int_min <=? Z.pos p) with true
    by (symmetry; apply Z.leb_le; unfold Strconv.int_min; lia).
  replace (Z.pos p <=? Strconv.int_max) with true
    by (symmetry; by apply Z.leb_le).
  done.
Qed.

(** [strconv.Atoi] reads back what [strconv.Itoa] writes. *)
Lemma Atoi_Itoa z :
  Strconv.int_min ≤ z ≤ Strconv.int_max →
  Strconv.Atoi (Strconv.Itoa z) = inr z.
Proof.
  intros [Hmin Hmax]. unfold Strconv.Itoa, pretty, pretty_Z.
  destruct z as [| p | p].
  - by vm_compute.
  - change (pretty p) with (pretty (N.pos p)). by apply Atoi_pretty_pos.
  - change (pretty p) with (pretty (N.pos p)).
    pose proof (parse_digits_pretty_N_go (N.pos p) "") as Hparse.
    simpl Strconv.parse_digits at 2 in Hparse.
    unfold pretty, pretty_N. rewrite decide_False by done.
    destruct (pretty_N_go (N.pos p) "") as [| c rest] eqn:Hgo.
    { by simplify_eq/=. }
    unfold Strconv.Atoi.
    change ("-" +:+ String c rest) with (String "-" (String c rest)).
    cbv beta iota. rewrite Ascii.eqb_refl. cbv beta iota. rewrite Hparse.
    change (Z.of_N (N.pos p)) with (Z.pos p).
    change (- Z.pos p) with (Z.neg p).
    replace (Strconv.int_min <=? Z.neg p) with true
      by (symmetry; by apply Z.leb_le).
    replace (Z.neg p <=? Strconv.int_max) with true
      by (symmetry; apply Z.leb_le; unfold Strconv.int_max; lia).
    done.
Qed.

(** ** A script that is applied *)

Lemma existsb_false_iff {A} (f : A → bool) l :
  existsb f l = false ↔ ∀ x, x ∈ l → f x = false.
Proof.
  induction l as [| y l IH]; simpl.
  - split; [intros _ x Hx; by apply elem_of_nil in Hx | done].
  - rewrite orb_false_iff, IH. split.
    + intros [Hy Hl] x [-> | Hx]%elem_of_cons; auto.
    + intros H. split; [apply H; left | intros x Hx; apply H; by right].
Qed.

Lemma insert_migration_ok id comment path ts db db' n :
  insert_migration id comment path ts db = inr (db', n) ↔
  ∃ rows,
    schema_migrations db = Some rows ∧
    (∀ r, r ∈ rows → row_id r ≠ id ∧ row_path r ≠ path) ∧
    n = 1 ∧
    db' = {| config := config db;
             schema_migrations := Some (rows ++
               [ {| row_id := id; row_comment := comment; row_path := path;
                    row_applied_at := ts; row_created_at := ts;
                    row_updated_at := ts |} ]);
             user_data := user_data db |}.
Proof.
  unfold insert_migration. destruct (schema_migrations db) as [rows |].
  2: { split; [done | by intros (? & [=] & _)]. }
  destruct (existsb (λ r, row_id r =? id) rows) eqn:Hid.
  { split; [done |]. intros (rows' & [= <-] & Hfresh & _).
    apply existsb_exists in Hid as (r & Hr & ?%Z.eqb_eq).
    apply list_elem_of_In in Hr. by destruct (Hfresh r Hr). }
  destruct (existsb (λ r, String.eqb (row_path r) path) rows) eqn:Hpath.
  { split; [done |]. intros (rows' & [= <-] & Hfresh & _).
    apply existsb_exists in Hpath as (r & Hr & ?%String.eqb_eq).
    apply list_elem_of_In in Hr. by destruct (Hfresh r Hr). }
  split.
  - intros [= <- <-]. exists rows. repeat split; try done.
    + eapply existsb_false_iff in Hid; [| done]. by apply Z.eqb_neq.
    + eapply existsb_false_iff in Hpath; [| done]. by apply String.eqb_neq.
  - by intros (rows' & [= <-] & _ & -> & ->).
Qed.

Ltac same_result :=
  simplify_eq;
  repeat (match goal with
          | H1 : ?t = _, H2 : ?t = _ |- _ => rewrite H1 in H2
          end; simplify_eq).

Section Applied.
Context {P : Platform}.

(** When [applyMigration] returns without error, the file was read, the
    script ran and left a transaction open, its id and its path were new
    to the records, and one row of [config] held the version; what is
    committed is the working state the script left, with the record
    appended and the version replaced. *)
Lemma applyMigration_ok db fs s now db' :
  applyMigration db fs s now = (db', None) →
  ∃ sqlBytes tx db2 crows rows,
    ReadFile fs (Path s) = inr sqlBytes ∧
    exec_script sqlBytes (BeginTx db) = (tx, None) ∧
    tx_work tx = Some db2 ∧
    config db2 = Some crows ∧ schema_migrations db2 = Some rows ∧
    length (filter (λ r, has_key "schema.version" r = true) crows) = 1%nat ∧
    (∀ r, r ∈ rows → row_id r ≠ ID s ∧ row_path r ≠ Path s) ∧
    db' = {| config :=
               Some (map (set_value "schema.version" (Strconv.Itoa (ID s)) now)
                       crows);
             schema_migrations := Some (rows ++ [record_of s now]);
             user_data := user_data db2 |}.
Proof.
  rewrite applyMigration_unfold.
  destruct (ReadFile fs (Path s)) as [e | sqlBytes]; [done |].
  destruct (exec_script sqlBytes (BeginTx db)) as [[d o] [e |]] eqn:Hexec;
    [done |].
  simpl.
  destruct (insert_migration (ID s) (Comment s) (Path s) now
              (default d o)) as [e | [db3 n]] eqn:Hins; [done |].
  apply insert_migration_ok in Hins as (rows & Hrows & Hfresh & -> & ->).
  unfold update_config. simpl.
  destruct (config (default d o)) as [crows |] eqn:Hcfg; [| done].
  destruct (Z.of_nat (length (filter (λ r, has_key "schema.version" r = true)
                                crows)) =? 1) eqn:Hone; simpl.
  2: { by destruct o. }
  destruct o as [w |]; [| done]. simpl in *. intros [= <-].
  apply Z.eqb_eq in Hone.
  exists sqlBytes, {| tx_db := d; tx_work := Some w |}, w, crows, rows.
  repeat split; try done; [lia | by apply Hfresh | by apply Hfresh].
Qed.

End Applied.

Lemma has_key_set_value k k' v ts r :
  has_key k (set_value k' v ts r) = has_key k r.
Proof. unfold set_value. by destruct (has_key k' r). Qed.

Lemma filter_set_value k v ts rows :
  filter (λ r, has_key k r = true) (map (set_value k v ts) rows)
  = map (set_value k v ts) (filter (λ r, has_key k r = true) rows).
Proof.
  induction rows as [| r rows IH]; [done |]. simpl.
  rewrite !filter_cons, has_key_set_value.
  destruct (decide (has_key k r = true)); simpl; by rewrite IH.
Qed.

(** The version read after [UPDATE config ... WHERE key = 'schema.version']
    has affected one row is the text that was written. *)
Lemma select_after_update v ts db db' :
  update_config "schema.version" v ts db = inr (db', 1) →
  select_schema_version db' = inr v.
Proof.
  unfold update_config, select_schema_version.
  destruct (config db) as [crows |]; [| done].
  intros [= <- Hlen]. simpl. rewrite filter_set_value.
  destruct (filter (λ r, has_key "schema.version" r = true) crows)
    as [| r [| r' rest]] eqn:Hf; simpl in Hlen; try lia.
  simpl. unfold set_value.
  assert (has_key "schema.version" r = true) as ->; [| done].
  assert (r ∈ filter (λ r, has_key "schema.version" r = true) crows) as Hr
    by (rewrite Hf; left).
  by apply list_elem_of_filter in Hr as [? _].
Qed.

Lemma fetchSchemaVersion_value db value v :
  select_schema_version db = inr value → Strconv.Atoi value = inr v →
  fetchSchemaVersion db = inr (Some v).
Proof. unfold fetchSchemaVersion. by intros -> ->. Qed.

Section AppliedFacts.
Context {P : Platform}.

Lemma applyMigration_ok_version db fs s now db' :
  applyMigration db fs s now = (db', None) →
  select_schema_version db' = inr (Strconv.Itoa (ID s)).
Proof.
  intros (sqlBytes & tx & db2 & crows & rows & _ & _ & _ & Hc & _ & Hlen & _ & ->)
    %applyMigration_ok.
  apply (select_after_update _ now
           {| config := Some crows; schema_migrations := Some (rows ++ [record_of s now]);
              user_data := user_data db2 |}).
  unfold update_config. simpl. by rewrite Hlen.
Qed.


End AppliedFacts.



(** ** The loop over the scripts *)

Lemma pending_scripts_cons applied s scripts :
  pending_scripts applied (s :: scripts)
  = if index applied (Path s) then pending_scripts applied scripts
    else s :: pending_scripts applied scripts.
Proof.
  unfold pending_scripts. rewrite filter_cons.
  destruct (index applied (Path s)); by case_decide.
Qed.


Section Loop.
Context {P : Platform}.

(** What the loop has tried, and what it has applied of that. *)
Lemma applyPending_tried scripts applied fs now db log db' log' err :
  applyPending scripts applied fs now db log = (db', log', err) →
  ∃ tried,
    tried `prefix_of` pending_scripts applied scripts ∧
    log' = log ++ map (λ s, applying (Path s)) tried ∧
    match err with
    | None => tried = pending_scripts applied scripts
    | Some e =>
        ∃ before s e',
          tried = before ++ [s] ∧ e = Wrap ("apply " +:+ Path s) e'
    end.
Proof.
  revert db log. induction scripts as [| s scripts IH]; intros db log; simpl.
  { intros [= <- <- <-]. exists []. by rewrite app_nil_r. }
  rewrite pending_scripts_cons.
  destruct (index applied (Path s)) eqn:Hi; [by apply IH |].
  destruct (applyMigration db fs s now) as [db1 [e |]] eqn:Hs.
  - intros [= <- <- <-]. exists [s]. split; [| split; [done |]].
    + by apply prefix_cons, prefix_nil.
    + by exists [], s, e.
  - intros (tried & Hpre & -> & Herr)%IH. exists (s :: tried).
    split; [by apply prefix_cons |]. split.
    { by rewrite <- app_assoc. }
    destruct err as [e |]; [| by rewrite Herr].
    destruct Herr as (before & s' & e' & -> & ->).
    by exists (s :: before), s', e'.
Qed.


End Loop.

(** X2: the loop of [migrate] hands to [applyMigration] the scripts whose
    path is not in the applied set, in the order of the list and each at
    most once; it stops at the first that fails, and when none fails it
    has tried them all.  When one fails, the scripts before it were all
    applied, the error is the one of that script, wrapped with its path,
    and the database is the one its application left: the one the
    scripts before it left, when the script keeps to its transaction. *)
Theorem pending_scripts_are_tried_in_order {P : Platform}
    (scripts : list migrationScript) (appliedPaths : gmap string bool)
    (fs : FS) (now : Z) (db db' : DB) (log log' : list LogEntry)
    (err : option error) :
  applyPending scripts appliedPaths fs now db log = (db', log', err) →
  ∃ tried,
    tried `prefix_of` pending_scripts appliedPaths scripts ∧
    log' = log ++ map (λ s, applying (Path s)) tried ∧
    (err = None → tried = pending_scripts appliedPaths scripts) ∧
    (∀ e, err = Some e →
       ∃ before s e' db1,
         tried = before ++ [s] ∧ e = Wrap ("apply " +:+ Path s) e' ∧
         applyPending before appliedPaths fs now db log
         = (db1, log ++ map (λ s, applying (Path s)) before, None) ∧
         applyMigration db1 fs s now = (db', Some e') ∧
         ((∀ sqlBytes, ReadFile fs (Path s) = inr sqlBytes →
             keeps_transaction sqlBytes) → db' = db1)).
Proof.
  revert db log. induction scripts as [| s scripts IH]; intros db log; simpl.
  { intros [= <- <- <-]. exists []. rewrite app_nil_r. by repeat split. }
  rewrite pending_scripts_cons.
  destruct (index appliedPaths (Path s)) eqn:Hi; [by apply IH |].
  destruct (applyMigration db fs s now) as [db1 [e |]] eqn:Hs.
  - intros [= <- <- <-]. exists [s]. split; [| split; [done | split; [done |]]].
    + by apply prefix_cons, prefix_nil.
    + intros ? [= <-]. exists [], s, e, db. simpl. rewrite app_nil_r.
      split; [done |]. split; [done |]. split; [done |]. split; [done |].
      intros Hkeeps. by eapply applyMigration_failure.
  - intros (tried & Hpre & -> & Hok & Herr)%IH. exists (s :: tried).
    split; [by apply prefix_cons |]. split.
    { by rewrite <- app_assoc. }
    split; [by intros ->%Hok |].
    intros e (before & s' & e' & d1 & -> & -> & Hbefore & Hfail & Hkeeps)%Herr.
    exists (s :: before), s', e', d1.
    split; [done |]. split; [done |]. split; [| done].
    simpl. rewrite Hi, Hs, Hbefore. by rewrite <- app_assoc.
Qed.

Lemma pending_scripts_are_tried_in_order_witness :
  ∃ tried,
    tried `prefix_of`
      pending_scripts ∅ [Demo.script_a; Demo.script_b; Demo.script_c] ∧
    [applying "20260101000001_a.sql"; applying "20260101000002_b.sql"]
    = map (λ s, applying (Path s)) tried.
Proof.
  destruct (pending_scripts_are_tried_in_order (P := Demo.platform)
              [Demo.script_a; Demo.script_b; Demo.script_c] ∅ Demo.broken
              Demo.now Demo.initialized Demo.after_a []
              [applying "20260101000001_a.sql"; applying "20260101000002_b.sql"]
              (Some (Wrap "apply 20260101000002_b.sql"
                       (Wrap "exec" (Sql (DriverError "incomplete input"))))))
    as (tried & Hpre & Hlog & _).
  - vm_compute. reflexivity.
  - exists tried. split; [exact Hpre | exact Hlog].
Defined.

(** A run that fails at a script that has committed keeps what the script
    committed: the database is not the one that the scripts before it
    left. *)
Example failed_run_keeps_what_a_script_committed :
  ∃ db' log' e,
    applyPending (P := Demo.platform) [Later.script_committing] ∅
      Later.committing Demo.now Demo.initialized []
    = (db', log', Some e) ∧
    user_data db' = ["CREATE TABLE t (id);"] ∧
    user_data Demo.initialized = [].
Proof. eexists _, _, _. split; [vm_compute; reflexivity |]. by split. Qed.


(** ** What a successful discovery returns *)

Lemma scanEntries_ok entries scripts (seenIDs : gmap Z string) log log' r :
  (∀ id, is_Some (seenIDs !! id) ↔ id ∈ map ID scripts) →
  NoDup (map ID scripts) →
  scanEntries entries scripts seenIDs log = (log', inr r) →
  r = scripts ++ omap script_of entries ∧ NoDup (map ID r).
Proof.
  revert scripts seenIDs log.
  induction entries as [| e entries IH]; intros scripts seenIDs log Hseen Hnd.
  { simpl. intros [= <- <-]. by rewrite app_nil_r. }
  destruct (script_of e) as [s |] eqn:He.
  - rewrite (scanEntries_script _ _ _ _ _ _ He).
    destruct (seenIDs !! ID s) as [existing |] eqn:Hlook; [done |].
    intros Hscan. apply IH in Hscan as [-> Hnd'].
    + split; [| done]. simpl. rewrite He. by rewrite <- app_assoc.
    + intros id. rewrite map_app, elem_of_app. simpl.
      rewrite list_elem_of_singleton, <- Hseen.
      destruct (decide (id = ID s)) as [-> | Hne].
      * rewrite lookup_insert_eq. split; [by right | by eexists].
      * rewrite lookup_insert_ne by done.
        split; [by left | by intros [? | ?]].
    + rewrite map_app. apply NoDup_app. split; [done |]. split.
      * intros id Hid Hin. simpl in Hin.
        apply list_elem_of_singleton in Hin as ->.
        apply Hseen in Hid as [? Hid]. congruence.
      * apply NoDup_singleton.
  - destruct (scanEntries_skip e entries scripts seenIDs log He) as [log1 ->].
    intros Hscan. apply IH in Hscan as [-> Hnd']; [| done | done].
    simpl. by rewrite He.
Qed.

Lemma listMigrationFiles_ok fs log scripts :
  listMigrationFiles fs = (log, inr scripts) →
  ∃ entries,
    ReadDir fs = inr entries ∧
    scripts = sort_Slice lessPath (omap script_of entries) ∧
    NoDup (map ID (omap script_of entries)).
Proof.
  unfold listMigrationFiles. destruct (ReadDir fs) as [e | entries]; [done |].
  destruct (scanEntries entries [] ∅ []) as [log1 [e | r]] eqn:Hscan; [done |].
  intros [= <- <-]. exists entries.
  apply scanEntries_ok in Hscan as [-> Hnd]; [done | | constructor].
  intros id. rewrite lookup_empty. simpl. split; [by intros [] |].
  by intros ?%elem_of_nil.
Qed.

Lemma well_formed_in_int_range s : well_formed s → in_int_range (ID s).
Proof.
  intros (prefix & (_ & Hlen & Hdigits & _) & ->).
  pose proof (decimal_bound prefix Hdigits) as Hb. rewrite Hlen in Hb.
  unfold in_int_range, Strconv.int_min, Strconv.int_max.
  change (10 ^ Z.of_nat 14) with 100000000000000 in Hb. lia.
Qed.

Lemma listMigrationFiles_well_formed fs log scripts :
  listMigrationFiles fs = (log, inr scripts) → Forall well_formed scripts.
Proof.
  intros (entries & _ & -> & _)%listMigrationFiles_ok.
  apply Forall_forall. intros s Hs%elem_of_sort_Slice.
  apply list_elem_of_omap in Hs as (e & _ & He).
  by eapply script_of_well_formed.
Qed.

(** ** Runs over scripts that leave the bookkeeping alone *)

Lemma applying_not_skip_notice log p :
  Forall skip_notice log → applying p ∉ log.
Proof.
  intros Hlog Hin. by eapply Forall_forall in Hlog; [| exact Hin].
Qed.

Lemma discovered_scripts_eq cfg fs llog scripts :
  Migrations cfg = Some fs → listMigrationFiles fs = (llog, inr scripts) →
  discovered_scripts cfg = scripts.
Proof. unfold discovered_scripts. by intros -> ->. Qed.

Section Tidy.
Context {P : Platform}.

Lemma tidy_weaken fs scripts scripts' :
  scripts' ⊆ scripts → tidy fs scripts → tidy fs scripts'.
Proof. intros Hsub Htidy s sqlBytes Hs. apply Htidy. by apply Hsub. Qed.

(** What [applyMigration] leaves of the records when the script leaves
    the infrastructure tables alone: the records it found, with the one
    of the script appended when the insert was reached and went through,
    whether in the transaction that was then committed or at once. *)
Lemma applyMigration_tidy_any db fs s now db' r :
  tidy fs [s] →
  applyMigration db fs s now = (db', r) →
  schema_migrations db' = schema_migrations db ∨
  ∃ rows,
    schema_migrations db = Some rows ∧
    schema_migrations db' = Some (rows ++ [record_of s now]) ∧
    ∀ r, r ∈ rows → row_id r ≠ ID s ∧ row_path r ≠ Path s.
Proof.
  intros Htidy. rewrite applyMigration_unfold.
  destruct (ReadFile fs (Path s)) as [e | sqlBytes] eqn:Hread.
  { intros [= <- _]. by left. }
  destruct (exec_script sqlBytes (BeginTx db)) as [[d o] r1] eqn:Hexec.
  destruct (Htidy s sqlBytes) with db {| tx_db := d; tx_work := o |} r1
    as [[_ Hd] [_ Hheld]]; [left | done | done |].
  simpl in *. destruct r1 as [e |]; [intros [= <- _]; by left |].
  destruct (insert_migration (ID s) (Comment s) (Path s) now (default d o))
    as [e | [db3 n]] eqn:Hins; [intros [= <- _]; by left |].
  apply insert_migration_ok in Hins as (rows & Hrows & Hfresh & -> & ->).
  rewrite Hheld in Hrows. unfold update_config. simpl.
  assert (∀ d', schema_migrations d' = Some (rows ++ [record_of s now]) →
    schema_migrations d' = schema_migrations db ∨
    ∃ rows0,
      schema_migrations db = Some rows0 ∧
      schema_migrations d' = Some (rows0 ++ [record_of s now]) ∧
      ∀ r, r ∈ rows0 → row_id r ≠ ID s ∧ row_path r ≠ Path s) as Hnew.
  { intros d' Hd'. right. by exists rows. }
  destruct (config (default d o)) as [crows |]; simpl.
  2: { destruct o; intros [= <- _]; [by left | by apply Hnew]. }
  destruct (negb (Z.of_nat (length (filter (λ r, has_key "schema.version" r
                                              = true) crows)) =? 1)).
  - destruct o; intros [= <- _]; [by left | by apply Hnew].
  - destruct o; intros [= <- _]; by apply Hnew.
Qed.

Lemma applyMigration_tidy db fs s now db' :
  tidy fs [s] →
  applyMigration db fs s now = (db', None) →
  ∃ rows,
    schema_migrations db = Some rows ∧
    schema_migrations db' = Some (rows ++ [record_of s now]) ∧
    ∀ r, r ∈ rows → row_id r ≠ ID s ∧ row_path r ≠ Path s.
Proof.
  intros Htidy Hok.
  pose proof Hok as
    (sqlBytes & tx & db2 & crows & rows & Hread & Hexec & Hwork & _ & Hrows
     & _ & Hfresh & ->)%applyMigration_ok.
  destruct (Htidy s sqlBytes) with db tx (@None sql_error)
    as [_ [_ Hheld]]; [left | done | done |].
  destruct tx as [d o]. simpl in *. subst o. simpl in Hheld.
  exists rows. by rewrite <- Hheld.
Qed.

(** A property of the database that every application of a script
    keeps, whatever its outcome, is kept by the loop, whatever its
    outcome. *)
Lemma applyPending_invariant_any (I : DB → Prop) scripts applied fs now db log
    db' log' err :
  (∀ d d' s r, s ∈ scripts → applyMigration d fs s now = (d', r) →
     I d → I d') →
  applyPending scripts applied fs now db log = (db', log', err) →
  I db → I db'.
Proof.
  revert db log. induction scripts as [| s scripts IH]; intros db log Hstep.
  { simpl. by intros [= <- _ _]. }
  simpl. destruct (index applied (Path s)).
  { apply IH. intros d d' s' r Hs'. apply Hstep. by right. }
  destruct (applyMigration db fs s now) as [db1 [e |]] eqn:Hs.
  - intros [= <- _ _] Hdb. eapply Hstep; [left | exact Hs | exact Hdb].
  - intros Hrest Hdb. eapply IH; [| exact Hrest |].
    + intros d d' s' r Hs'. apply Hstep. by right.
    + eapply Hstep; [left | exact Hs | exact Hdb].
Qed.

(** A property of the database that every applied script keeps is kept
    by a loop that returns without error. *)
Lemma applyPending_invariant (I : DB → Prop) scripts applied fs now db log
    db' log' :
  (∀ d d' s, s ∈ scripts → applyMigration d fs s now = (d', None) →
     I d → I d') →
  applyPending scripts applied fs now db log = (db', log', None) →
  I db → I db'.
Proof.
  revert db log. induction scripts as [| s scripts IH]; intros db log Hstep.
  { simpl. by intros [= <- _]. }
  simpl. destruct (index applied (Path s)).
  { apply IH. intros d d' s' Hs'. apply Hstep. by right. }
  destruct (applyMigration db fs s now) as [db1 [e |]] eqn:Hs; [done |].
  intros Hrest Hdb. eapply IH; [| exact Hrest |].
  - intros d d' s' Hs'. apply Hstep. by right.
  - eapply Hstep; [left | exact Hs | exact Hdb].
Qed.

Lemma migrate_invariant_initialized (I : DB → Prop) db cfg now v db' log :
  fetchSchemaVersion db = inr (Some v) →
  (∀ fs d d' s, Migrations cfg = Some fs → s ∈ discovered_scripts cfg →
     applyMigration d fs s now = (d', None) → I d → I d') →
  migrate db cfg now = (db', log, None) →
  I db → I db'.
Proof.
  intros Hv Hstep. unfold migrate. rewrite Hv. simpl.
  destruct (Migrations cfg) as [fs |] eqn:Hfs; [| by intros [= <- _]].
  destruct (listMigrationFiles fs) as [llog [e | scripts]] eqn:Hlist; [done |].
  destruct scripts as [| s l]; [by intros [= <- _] |].
  destruct (fetchAppliedMigrations db) as [e | applied]; [done |].
  intros Hrun Hdb. eapply applyPending_invariant; [| exact Hrun | exact Hdb].
  intros d d' s' Hs'. apply (Hstep fs); [done |].
  by rewrite (discovered_scripts_eq _ _ _ _ Hfs Hlist).
Qed.

Lemma migrate_invariant_initialized_any (I : DB → Prop) db cfg now v db' log
    err :
  fetchSchemaVersion db = inr (Some v) →
  (∀ fs d d' s r, Migrations cfg = Some fs → s ∈ discovered_scripts cfg →
     applyMigration d fs s now = (d', r) → I d → I d') →
  migrate db cfg now = (db', log, err) →
  I db → I db'.
Proof.
  intros Hv Hstep. unfold migrate. rewrite Hv. simpl.
  destruct (Migrations cfg) as [fs |] eqn:Hfs; [| by intros [= <- _ _]].
  destruct (listMigrationFiles fs) as [llog [e | scripts]] eqn:Hlist.
  { by intros [= <- _ _]. }
  destruct scripts as [| s l]; [by intros [= <- _ _] |].
  destruct (fetchAppliedMigrations db) as [e | applied].
  { by intros [= <- _ _]. }
  intros Hrun Hdb.
  eapply applyPending_invariant_any; [| exact Hrun | exact Hdb].
  intros d d' s' r Hs'. apply (Hstep fs); [done |].
  by rewrite (discovered_scripts_eq _ _ _ _ Hfs Hlist).
Qed.

(** The same for [migrate], whose steps are the initialization and the
    scripts of the collection. *)
Lemma migrate_invariant (I : DB → Prop) db cfg now db' log err :
  (∀ d d', applySchemaInit d cfg now = (d', None) → I d → I d') →
  (∀ fs d d' s r, Migrations cfg = Some fs → s ∈ discovered_scripts cfg →
     applyMigration d fs s now = (d', r) → I d → I d') →
  migrate db cfg now = (db', log, err) →
  I db → I db'.
Proof.
  intros Hinit Hstep Hrun Hdb.
  destruct (fetchSchemaVersion db) as [e | [v |]] eqn:Hv.
  - unfold migrate in Hrun. rewrite Hv in Hrun. by injection Hrun as <- _ _.
  - by eapply migrate_invariant_initialized_any.
  - destruct (applySchemaInit db cfg now) as [db0 [e |]] eqn:Hi.
    + unfold migrate in Hrun. rewrite Hv, Hi in Hrun. simpl in Hrun.
      injection Hrun as <- _ _.
      by rewrite (applySchemaInit_failure _ _ _ _ _ Hi).
    + destruct (migrate_after_init db cfg now db0) as (rest & _ & Heq);
        [by apply fetchSchemaVersion_nil | done |].
      rewrite Heq in Hrun. injection Hrun as <- _ _.
      destruct (migrate db0 cfg now) as [[d1 l1] e1] eqn:Hrun0. simpl.
      eapply migrate_invariant_initialized_any;
        [by eapply applySchemaInit_version | exact Hstep | exact Hrun0 |].
      by eapply Hinit.
Qed.

Lemma applySchemaInit_ok_blank db cfg now db' :
  applySchemaInit db cfg now = (db', None) →
  config db = None ∧ schema_migrations db = None.
Proof.
  intros Hok.
  destruct (config db) eqn:Hc.
  { destruct (applySchemaInit_has_infrastructure db cfg now) as [e He].
    - left. by rewrite Hc.
    - congruence. }
  destruct (schema_migrations db) eqn:Hm; [| done].
  destruct (applySchemaInit_has_infrastructure db cfg now) as [e He].
  - right. by rewrite Hm.
  - congruence.
Qed.

End Tidy.

Section TidyRuns.
Context {P : Platform}.

Lemma applyMigration_tidy_applied db fs s now db' p :
  tidy fs [s] →
  applyMigration db fs s now = (db', None) →
  applied_path db p → applied_path db' p.
Proof.
  intros Htidy (rows & Hrows & Hrows' & _)%applyMigration_tidy; [| done].
  intros (rows0 & r & Hrows0 & Hr & Hp). rewrite Hrows in Hrows0.
  injection Hrows0 as <-.
  exists (rows ++ [record_of s now]), r. split; [done |]. split; [| done].
  apply elem_of_app. by left.
Qed.

Lemma applyPending_ok_applied scripts applied fs now db log db' log' :
  tidy fs scripts →
  applyPending scripts applied fs now db log = (db', log', None) →
  ∀ s, s ∈ scripts →
    index applied (Path s) = true ∨ applied_path db' (Path s).
Proof.
  revert db log. induction scripts as [| s scripts IH]; intros db log Htidy.
  { intros _ s Hs. by apply elem_of_nil in Hs. }
  assert (tidy fs scripts) as Htidy'.
  { eapply tidy_weaken; [| exact Htidy]. intros x Hx. by right. }
  simpl. destruct (index applied (Path s)) eqn:Hi.
  { intros Hrun s' [-> | Hs']%elem_of_cons; [by left | by eapply IH]. }
  destruct (applyMigration db fs s now) as [db1 [e |]] eqn:Hs; [done |].
  intros Hrun s' [-> | Hs']%elem_of_cons; [| by eapply IH].
  right.
  eapply (applyPending_invariant (λ d, applied_path d (Path s)));
    [| exact Hrun |].
  - intros d d' s' Hs' Hstep. eapply applyMigration_tidy_applied; [| exact Hstep].
    eapply tidy_weaken; [| exact Htidy'].
    by intros x ->%list_elem_of_singleton.
  - apply applyMigration_tidy in Hs as (rows & _ & Hrows' & _).
    + exists (rows ++ [record_of s now]), (record_of s now).
      split; [done |]. split; [| done]. apply elem_of_app. right. left.
    + eapply tidy_weaken; [| exact Htidy].
      intros x ->%list_elem_of_singleton. left.
Qed.

Lemma applyMigration_keeps_version_readable db fs s now db' :
  in_int_range (ID s) →
  applyMigration db fs s now = (db', None) →
  ∃ v, fetchSchemaVersion db' = inr (Some v).
Proof.
  intros Hrange Hok. exists (ID s).
  eapply fetchSchemaVersion_value; [by eapply applyMigration_ok_version |].
  by apply Atoi_Itoa.
Qed.

(** A successful run leaves a database on which the next run finds the
    version and every script of the collection applied. *)
Lemma migrate_ok_settles db cfg now db1 log1 :
  tidy_collection cfg →
  migrate db cfg now = (db1, log1, None) →
  (∃ v, fetchSchemaVersion db1 = inr (Some v)) ∧
  ∀ fs, Migrations cfg = Some fs →
    ∃ llog scripts,
      listMigrationFiles fs = (llog, inr scripts) ∧
      ∀ s, s ∈ scripts → applied_path db1 (Path s).
Proof.
  intros Htidy Hrun.
  assert (∀ d v d1 l1,
    fetchSchemaVersion d = inr (Some v) →
    migrate d cfg now = (d1, l1, None) →
    (∃ v, fetchSchemaVersion d1 = inr (Some v)) ∧
    ∀ fs, Migrations cfg = Some fs →
      ∃ llog scripts,
        listMigrationFiles fs = (llog, inr scripts) ∧
        ∀ s, s ∈ scripts → applied_path d1 (Path s)) as Hinitialized.
  { intros d v d1 l1 Hv Hd. split.
    - eapply (migrate_invariant_initialized
                (λ d, ∃ v, fetchSchemaVersion d = inr (Some v)));
        [exact Hv | | exact Hd | by eexists].
      intros fs d0 d0' s Hfs Hs Hstep _.
      eapply applyMigration_keeps_version_readable; [| exact Hstep].
      apply well_formed_in_int_range.
      unfold discovered_scripts in Hs. rewrite Hfs in Hs.
      destruct (listMigrationFiles fs) as [llog [e | scripts]] eqn:Hlist;
        simpl in Hs; [by apply elem_of_nil in Hs |].
      apply listMigrationFiles_well_formed in Hlist.
      by eapply Forall_forall in Hlist.
    - intros fs Hfs. unfold migrate in Hd. rewrite Hv, Hfs in Hd. simpl in Hd.
      destruct (listMigrationFiles fs) as [llog [e | scripts]] eqn:Hlist;
        [done |].
      exists llog, scripts. split; [done |].
      destruct scripts as [| s0 l]; [by intros s ?%elem_of_nil |].
      destruct (fetchAppliedMigrations d) as [e | applied] eqn:Happlied;
        [done |].
      intros s Hs.
      assert (tidy fs (s0 :: l)) as Ht.
      { rewrite <- (discovered_scripts_eq _ _ _ _ Hfs Hlist). by apply Htidy. }
      destruct (applyPending_ok_applied _ _ _ _ _ _ _ _ Ht Hd s Hs)
        as [Hi | Hp]; [| done].
      apply index_appliedPathsOf in Hi.
      apply (fetchAppliedMigrations_paths _ _ _ Happlied) in Hi.
      eapply (applyPending_invariant (λ d, applied_path d (Path s)));
        [| exact Hd | exact Hi].
      intros d0 d0' s' Hs' Hstep. eapply applyMigration_tidy_applied;
        [| exact Hstep].
      eapply tidy_weaken; [| exact Ht].
      by intros x ->%list_elem_of_singleton. }
  destruct (fetchSchemaVersion db) as [e | [v |]] eqn:Hv.
  - unfold migrate in Hrun. by rewrite Hv in Hrun.
  - by eapply Hinitialized.
  - destruct (applySchemaInit db cfg now) as [db0 [e |]] eqn:Hi.
    + unfold migrate in Hrun. rewrite Hv, Hi in Hrun. by simpl in Hrun.
    + destruct (migrate_after_init db cfg now db0) as (rest & _ & Heq);
        [by apply fetchSchemaVersion_nil | done |].
      rewrite Heq in Hrun.
      destruct (migrate db0 cfg now) as [[d1 l1] e1] eqn:Hrun0.
      simpl in Hrun. injection Hrun as <- _ ->.
      eapply Hinitialized; [by eapply applySchemaInit_version | exact Hrun0].
Qed.

(** On such a database a run applies nothing and changes nothing. *)
Lemma migrate_settled db cfg now v :
  fetchSchemaVersion db = inr (Some v) →
  (∀ fs, Migrations cfg = Some fs →
     ∃ llog scripts,
       listMigrationFiles fs = (llog, inr scripts) ∧
       ∀ s, s ∈ scripts → applied_path db (Path s)) →
  ∃ log, migrate db cfg now = (db, log, None) ∧ ∀ p, applying p ∉ log.
Proof.
  intros Hv Hall. unfold migrate. rewrite Hv. simpl.
  destruct (Migrations cfg) as [fs |] eqn:Hfs.
  2: { eexists. split; [done |]. intros p Hin.
       by apply list_elem_of_singleton in Hin. }
  destruct (Hall fs eq_refl) as (llog & scripts & Hlist & Happlied).
  rewrite Hlist. pose proof (listMigrationFiles_log _ _ _ Hlist) as Hllog.
  destruct scripts as [| s0 l].
  { eexists. split; [done |]. intros p Hin.
    apply elem_of_cons in Hin as [? | Hin]; [done |].
    apply elem_of_app in Hin as [Hin | Hin].
    - by eapply applying_not_skip_notice.
    - by apply list_elem_of_singleton in Hin. }
  destruct (fetchAppliedMigrations db) as [e | applied] eqn:Hfetch.
  { unfold fetchAppliedMigrations in Hfetch.
    destruct (select_applied db) as [e' |] eqn:Hsel; [| done].
    unfold select_applied in Hsel.
    destruct (schema_migrations db); [done |]. by injection Hsel as <-. }
  rewrite applyPending_all_applied.
  - eexists. split; [done |]. intros p Hin.
    apply elem_of_cons in Hin as [? | Hin]; [done |].
    by eapply applying_not_skip_notice.
  - intros s Hs. apply index_appliedPathsOf.
    apply (fetchAppliedMigrations_paths _ _ _ Hfetch). by apply Happlied.
Qed.

End TidyRuns.

Lemma fetchAppliedMigrations_total db :
  ∃ applied, fetchAppliedMigrations db = inr applied.
Proof.
  unfold fetchAppliedMigrations, select_applied.
  destruct (schema_migrations db); by eexists.
Qed.

Lemma Demo_valid_tidy path :
  tidy_collection (P := Demo.platform) (Demo.config_of path (Some Demo.valid)).
Proof.
  intros fs [= <-] s sqlBytes Hs Hread db tx r Hexec.
  change (discovered_scripts (Demo.config_of path (Some Demo.valid)))
    with [ {| ID := 20260101000001; Comment := "create_users";
              Path := "20260101000001_create_users.sql" |};
           {| ID := 20260101000002; Comment := "create_posts";
              Path := "20260101000002_create_posts.sql" |} ] in Hs.
  apply elem_of_cons in Hs as [-> | Hs];
    [| apply list_elem_of_singleton in Hs as ->];
    vm_compute in Hread; injection Hread as <-;
    simpl in Hexec; by injection Hexec as <- <-.
Qed.

(** X4: when the scripts leave the infrastructure tables alone, a run
    that has returned without error is followed by a run that applies
    nothing, changes nothing and returns without error. *)
Theorem second_run_applies_nothing {P : Platform}
    (db db1 : DB) (cfg : Config) (now now' : Z) (log1 : list LogEntry) :
  tidy_collection cfg →
  migrate db cfg now = (db1, log1, None) →
  ∃ log2,
    migrate db1 cfg now' = (db1, log2, None) ∧ ∀ p, applying p ∉ log2.
Proof.
  intros Htidy Hrun.
  destruct (migrate_ok_settles _ _ _ _ _ Htidy Hrun) as [[v Hv] Hall].
  by eapply migrate_settled.
Qed.

Lemma second_run_applies_nothing_witness :
  ∃ log2,
    migrate (P := Demo.platform) Demo.migrated
      (Demo.config_of ":memory:" (Some Demo.valid)) (Demo.now + 60)
    = (Demo.migrated, log2, None) ∧
    ∀ p, applying p ∉ log2.
Proof.
  apply (second_run_applies_nothing (P := Demo.platform) emptyDB Demo.migrated
           (Demo.config_of ":memory:" (Some Demo.valid)) Demo.now
           (Demo.now + 60)
           (migrate (P := Demo.platform) emptyDB
              (Demo.config_of ":memory:" (Some Demo.valid)) Demo.now).1.2).
  - apply Demo_valid_tidy.
  - vm_compute. reflexivity.
Defined.

Lemma collectPending_nil scripts applied :
  (∀ s, s ∈ scripts → index applied (Path s) = true) →
  collectPending scripts applied [] = [].
Proof.
  intros Hall. rewrite collectPending_spec. simpl.
  induction scripts as [| s scripts IH]; [done |]. simpl.
  rewrite filter_cons. rewrite (Hall s) by left.
  rewrite decide_False by done. apply IH. intros s' Hs'. apply Hall. by right.
Qed.

(** X5: after such a run the status of the database is: initialized,
    with the version that is stored, and no script pending. *)
Theorem nothing_is_pending_after_a_run {P : Platform}
    (db db1 : DB) (cfg : Config) (now : Z) (log1 : list LogEntry) :
  tidy_collection cfg →
  migrate db cfg now = (db1, log1, None) →
  ∃ slog st,
    getStatus db1 cfg = (slog, inr st) ∧
    IsInitialized st = true ∧ Pending st = [] ∧
    fetchSchemaVersion db1 = inr (Some (SchemaVersion st)).
Proof.
  intros Htidy Hrun.
  destruct (migrate_ok_settles _ _ _ _ _ Htidy Hrun) as [[v Hv] Hall].
  unfold getStatus. rewrite Hv.
  destruct (fetchAppliedMigrations_total db1) as [applied Happlied].
  rewrite Happlied.
  destruct (Migrations cfg) as [fs |] eqn:Hfs; [| by eexists _, _].
  destruct (Hall fs eq_refl) as (llog & scripts & Hlist & Hscripts).
  rewrite Hlist. eexists _, _. split; [done |]. simpl.
  split; [done |]. split; [| done].
  apply collectPending_nil. intros s Hs. apply index_appliedPathsOf.
  apply (fetchAppliedMigrations_paths _ _ _ Happlied). by apply Hscripts.
Qed.

Lemma nothing_is_pending_after_a_run_witness :
  ∃ slog st,
    getStatus Demo.migrated (Demo.config_of ":memory:" (Some Demo.valid))
    = (slog, inr st) ∧
    IsInitialized st = true ∧ Pending st = [] ∧
    fetchSchemaVersion Demo.migrated = inr (Some (SchemaVersion st)).
Proof.
  apply (nothing_is_pending_after_a_run (P := Demo.platform) emptyDB
           Demo.migrated (Demo.config_of ":memory:" (Some Demo.valid)) Demo.now
           (migrate (P := Demo.platform) emptyDB
              (Demo.config_of ":memory:" (Some Demo.valid)) Demo.now).1.2).
  - apply Demo_valid_tidy.
  - vm_compute. reflexivity.
Defined.

(** X6: when the scripts leave the infrastructure tables alone, a run
    only appends to the applied-migration records, whatever its outcome:
    the records it found are still there, unchanged and in front. *)
Theorem run_only_appends_records {P : Platform}
    (db db' : DB) (cfg : Config) (now : Z) (log : list LogEntry)
    (err : option error) (rows : list MigrationRow) :
  tidy_collection cfg →
  migrate db cfg now = (db', log, err) →
  schema_migrations db = Some rows →
  ∃ more, schema_migrations db' = Some (rows ++ more).
Proof.
  intros Htidy Hrun Hrows.
  eapply (migrate_invariant
            (λ d, ∃ more, schema_migrations d = Some (rows ++ more)));
    [| | exact Hrun |].
  - intros d d' [_ Hnone]%applySchemaInit_ok_blank [more Hd]. congruence.
  - intros fs d d' s r Hfs Hs Hstep [more Hd].
    apply applyMigration_tidy_any in Hstep
      as [Hsame | (rows' & Hrows' & Hd' & _)].
    + exists more. by rewrite Hsame.
    + rewrite Hd in Hrows'. injection Hrows' as <-.
      exists (more ++ [record_of s now]). by rewrite app_assoc.
    + eapply tidy_weaken; [| by apply (Htidy fs)].
      by intros x ->%list_elem_of_singleton.
  - exists []. by rewrite app_nil_r.
Qed.

Lemma run_only_appends_records_witness :
  ∃ more,
    schema_migrations Demo.migrated
    = Some (default [] (schema_migrations Demo.initialized) ++ more).
Proof.
  apply (run_only_appends_records (P := Demo.platform) Demo.initialized
           Demo.migrated (Demo.config_of ":memory:" (Some Demo.valid)) Demo.now
           (migrate (P := Demo.platform) Demo.initialized
              (Demo.config_of ":memory:" (Some Demo.valid)) Demo.now).1.2
           None).
  - apply Demo_valid_tidy.
  - vm_compute. reflexivity.
  - vm_compute. reflexivity.
Defined.

(** X7: and it keeps the ids and the paths of the records pairwise
    distinct, whatever its outcome. *)
Theorem run_keeps_records_unique {P : Platform}
    (db db' : DB) (cfg : Config) (now : Z) (log : list LogEntry)
    (err : option error) :
  tidy_collection cfg →
  migrate db cfg now = (db', log, err) →
  records_unique db → records_unique db'.
Proof.
  intros Htidy Hrun.
  eapply (migrate_invariant records_unique); [| | exact Hrun].
  - intros d d' Hinit _ rows' Hrows'.
    pose proof (applySchemaInit_ok_blank _ _ _ _ Hinit) as [Hc Hm].
    unfold applySchemaInit, deferred_Rollback, ExecContext, BeginTx, schema_sql,
      insert_migration, update_config, Commit in Hinit.
    simpl in Hinit. rewrite Hc, Hm in Hinit. simpl in Hinit.
    destruct (String.eqb (AppVersion cfg) ""); simpl in Hinit;
      injection Hinit as <-; simpl in Hrows'; injection Hrows' as <-;
      split; apply NoDup_singleton.
  - intros fs d d' s res Hfs Hs Hstep Hd rows' Hrows'.
    apply applyMigration_tidy_any in Hstep
      as [Hsame | (rows & Hrows & Hd' & Hfresh)].
    3: { eapply tidy_weaken; [| by apply (Htidy fs)].
         by intros x ->%list_elem_of_singleton. }
    { apply Hd. by rewrite <- Hsame. }
    rewrite Hd' in Hrows'. injection Hrows' as <-.
    destruct (Hd rows Hrows) as [Hids Hpaths].
    rewrite !map_app. split; apply NoDup_app; (split; [done |]); simpl.
    + split; [| apply NoDup_singleton].
      intros id (r & -> & Hr)%list_elem_of_fmap Heq%list_elem_of_singleton.
      by destruct (Hfresh r Hr).
    + split; [| apply NoDup_singleton].
      intros p (r & -> & Hr)%list_elem_of_fmap Heq%list_elem_of_singleton.
      by destruct (Hfresh r Hr).
Qed.

Lemma run_keeps_records_unique_witness : records_unique Demo.migrated.
Proof.
  apply (run_keeps_records_unique (P := Demo.platform) emptyDB
           Demo.migrated (Demo.config_of ":memory:" (Some Demo.valid)) Demo.now
           (migrate (P := Demo.platform) emptyDB
              (Demo.config_of ":memory:" (Some Demo.valid)) Demo.now).1.2
           None).
  - apply Demo_valid_tidy.
  - vm_compute. reflexivity.
  - intros rows [=].
Defined.




Lemma filter_is_applying_skip log :
  Forall skip_notice log → filter (λ e, is_applying e = true) log = [].
Proof.
  induction 1 as [| e log He _ IH]; [done |].
  rewrite filter_cons, IH. unfold is_applying.
  unfold skip_notice in He. rewrite He. by rewrite decide_False.
Qed.

Lemma filter_is_applying_tried (tried : list migrationScript) :
  filter (λ e, is_applying e = true) (map (λ s, applying (Path s)) tried)
  = map (λ s, applying (Path s)) tried.
Proof.
  induction tried as [| s tried IH]; [done |]. simpl.
  rewrite filter_cons, IH. by rewrite decide_True.
Qed.

Lemma map_Path_pending_scripts applied scripts :
  map Path (pending_scripts applied scripts)
  = filter (λ p, index applied p = false) (map Path scripts).
Proof.
  induction scripts as [| s scripts IH]; [done |].
  rewrite pending_scripts_cons. simpl. rewrite filter_cons.
  destruct (index applied (Path s)).
  - by rewrite decide_False.
  - rewrite decide_True by done. simpl. by rewrite IH.
Qed.

(** X9: on an initialized database, the scripts that a run tries are
    the ones that the status reports as pending, in that order: all of
    them when the run returns without error, the first ones up to the
    failing one otherwise. *)
Theorem run_tries_what_status_reports_pending {P : Platform}
    (db db' : DB) (cfg : Config) (now : Z) (slog log : list LogEntry)
    (st : MigrationStatus) (err : option error) :
  getStatus db cfg = (slog, inr st) →
  IsInitialized st = true →
  migrate db cfg now = (db', log, err) →
  filter (λ e, is_applying e = true) log `prefix_of` map applying (Pending st) ∧
  (err = None →
     filter (λ e, is_applying e = true) log = map applying (Pending st)).
Proof.
  unfold getStatus, migrate.
  destruct (fetchSchemaVersion db) as [e | [v |]]; [done | | ].
  2: { by intros [= _ <-]. }
  destruct (fetchAppliedMigrations db) as [e | applied]; [done |]. simpl.
  destruct (Migrations cfg) as [fs |].
  2: { intros [= _ <-] _ [= _ <- <-]. simpl. by split. }
  destruct (listMigrationFiles fs) as [llog [e | scripts]] eqn:Hlist; [done |].
  pose proof (listMigrationFiles_log _ _ _ Hlist) as Hllog.
  intros [= _ <-] _. simpl.
  rewrite collectPending_spec, app_nil_l, <- map_Path_pending_scripts.
  destruct scripts as [| s0 l].
  { intros [= _ <- <-]. simpl. rewrite filter_cons, decide_False by done.
    rewrite filter_app, filter_is_applying_skip by done. simpl.
    rewrite filter_cons, decide_False by done. by split. }
  intros (tried & Hpre & -> & Herr)%applyPending_tried.
  rewrite filter_app, filter_cons, decide_False by done.
  rewrite filter_is_applying_skip by done. simpl.
  rewrite filter_is_applying_tried.
  rewrite <- (map_map Path applying tried).
  split.
  - destruct Hpre as [k ->]. exists (map applying (map Path k)).
    by rewrite !map_app.
  - intros ->. by rewrite Herr.
Qed.

Lemma run_tries_what_status_reports_pending_witness :
  ∃ log st,
    (getStatus Demo.initialized
       (Demo.config_of ":memory:" (Some Demo.broken))).2 = inr st ∧
    (migrate (P := Demo.platform) Demo.initialized
       (Demo.config_of ":memory:" (Some Demo.broken)) Demo.now).1.2 = log ∧
    Pending st = ["20260101000001_a.sql"; "20260101000002_b.sql";
                  "20260101000003_c.sql"] ∧
    filter (λ e, is_applying e = true) log
      `prefix_of` map applying (Pending st).
Proof.
  eexists _, _. split; [vm_compute; reflexivity |].
  split; [reflexivity |]. split; [reflexivity |].
  eapply (run_tries_what_status_reports_pending (P := Demo.platform)
            Demo.initialized
            (migrate (P := Demo.platform) Demo.initialized
               (Demo.config_of ":memory:" (Some Demo.broken)) Demo.now).1.1
            (Demo.config_of ":memory:" (Some Demo.broken)) Demo.now []).
  - vm_compute. reflexivity.
  - reflexivity.
  - vm_compute. reflexivity.
Defined.

(** ** The initialization *)

(** X10: [applySchemaInit] fails, leaving the database as it is, exactly
    when one of the two infrastructure tables is already there.  On a
    database with neither it commits: version 0, the one record of the
    initialization with the time of the run, the application version as
    configured, and the creation time, which is written only together with
    a non-empty application version; what else the database holds is left
    alone. *)
Theorem initialization_is_for_blank_databases {P : Platform}
    (db : DB) (cfg : Config) (now : Z) :
  (has_infrastructure db →
     ∃ e, applySchemaInit db cfg now
          = (db, Some (Wrap "exec schema.sql" (Sql e)))) ∧
  (¬ has_infrastructure db →
     ∃ db',
       applySchemaInit db cfg now = (db', None) ∧
       user_data db' = user_data db ∧
       fetchSchemaVersion db' = inr (Some 0) ∧
       fetchAppliedMigrations db'
       = inr [ {| Applied_ID := 0; Applied_Comment := "init";
                  Applied_Path := "schema.sql"; AppliedAt := now |} ] ∧
       config_value db' "app.version" = Some (AppVersion cfg) ∧
       config_value db' "db.created_at"
       = Some (if String.eqb (AppVersion cfg) "" then ""
               else Strconv.Itoa now)).
Proof.
  split.
  - intros Hinfra.
    unfold applySchemaInit, deferred_Rollback, ExecContext, BeginTx, schema_sql.
    simpl. destruct (schema_migrations db) eqn:Hm; [by eexists |].
    destruct (config db) eqn:Hc; [by eexists |].
    by destruct Hinfra.
  - intros Hblank.
    assert (config db = None) as Hc.
    { destruct (config db) eqn:Hc; [| done].
      destruct Hblank. left. by rewrite Hc. }
    assert (schema_migrations db = None) as Hm.
    { destruct (schema_migrations db) eqn:Hm; [| done].
      destruct Hblank. right. by rewrite Hm. }
    unfold applySchemaInit, deferred_Rollback, ExecContext, BeginTx, schema_sql.
    simpl. rewrite Hm, Hc. simpl.
    destruct (String.eqb_spec (AppVersion cfg) "") as [Hv | Hv]; simpl.
    + eexists. split; [done |]. rewrite Hv. by repeat split.
    + eexists. split; [done |]. by repeat split.
Qed.

Lemma initialization_is_for_blank_databases_witness :
  ∃ db',
    applySchemaInit emptyDB (versioned ":memory:") Demo.now = (db', None) ∧
    fetchSchemaVersion db' = inr (Some 0) ∧
    config_value db' "app.version" = Some "1.2.3" ∧
    config_value db' "db.created_at" = Some "1767225600".
Proof.
  destruct (initialization_is_for_blank_databases (P := Demo.platform)
              emptyDB (versioned ":memory:") Demo.now)
    as [_ Hblank].
  destruct Hblank as (db' & Hinit & _ & Hversion & _ & Happ & Hcreated).
  - intros [H | H]; apply H; reflexivity.
  - exists db'. split; [exact Hinit |]. split; [exact Hversion |].
    split; [exact Happ |]. exact Hcreated.
Defined.

(** ** The world that the lifecycle operations leave *)

(** Two worlds that differ at most in what is at [path]. *)
Lemma with_files_insert_frame (w : World) path node :
  let w' := with_files w (<[path := node]> (files w)) in
  env w' = env w ∧ clock w' = clock w ∧
  ∀ q, q ≠ path → files w' !! q = files w !! q.
Proof.
  simpl. repeat split. intros q Hq. by rewrite lookup_insert_ne.
Qed.

Lemma add_sidecar_lookup_ne name fs q :
  q ≠ name → add_sidecar name fs !! q = fs !! q.
Proof.
  intros Hq. unfold add_sidecar. destruct (fs !! name); [done |].
  by rewrite lookup_insert_ne.
Qed.

Lemma add_sidecar_lookup_Some name fs q node :
  fs !! q = Some node → add_sidecar name fs !! q = Some node.
Proof.
  intros Hq. unfold add_sidecar. destruct (fs !! name) eqn:Hname; [done |].
  rewrite lookup_insert_ne; [done |]. intros ->. by rewrite Hq in Hname.
Qed.

(** A handle that is held open changes nothing but what is at the names
    of the two sidecar files, and nothing where something is. *)
Lemma held_open_frame path w :
  env (held_open path w) = env w ∧ clock (held_open path w) = clock w ∧
  memory (held_open path w) = memory w ∧
  (∀ q node, files w !! q = Some node →
     files (held_open path w) !! q = Some node) ∧
  ∀ q, q ≠ path +:+ "-shm" → q ≠ path +:+ "-wal" →
    files (held_open path w) !! q = files w !! q.
Proof.
  unfold held_open. simpl. repeat split.
  - intros q node Hq. by do 2 apply add_sidecar_lookup_Some.
  - intros q Hshm Hwal. by rewrite !add_sidecar_lookup_ne.
Qed.

Section Frame.
Context {P : Platform}.

Lemma connect_frame cfg w w1 r :
  connect cfg w = (w1, r) →
  env w1 = env w ∧ clock w1 = clock w ∧ memory w1 = memory w ∧
  (cfg_Path cfg = ":memory:" → w1 = w) ∧
  (fileExists (files w) (cfg_Path cfg) = true → w1 = w) ∧
  ∀ q, q ≠ cfg_Path cfg → files w1 !! q = files w !! q.
Proof.
  unfold connect, fileExists.
  destruct (String.eqb_spec (cfg_Path cfg) ":memory:") as [Hpath | Hpath].
  { by intros [= <- _]. }
  destruct (files w !! cfg_Path cfg) as [[| [d |] |] |];
    try by intros [= <- _].
  destruct (isDirectory (files w) (filepath_Dir (cfg_Path cfg)));
    [| by intros [= <- _]].
  intros [= <- _]. simpl. repeat split; try done.
  intros q Hq. by rewrite lookup_insert_ne.
Qed.

Lemma store_frame cfg db w :
  env (store cfg db w) = env w ∧ clock (store cfg db w) = clock w ∧
  (cfg_Path cfg = ":memory:" → files (store cfg db w) = files w) ∧
  (cfg_Path cfg ≠ ":memory:" → memory (store cfg db w) = memory w) ∧
  ∀ q, q ≠ cfg_Path cfg → files (store cfg db w) !! q = files w !! q.
Proof.
  unfold store.
  destruct (String.eqb_spec (cfg_Path cfg) ":memory:") as [Hpath | Hpath];
    [done |]. simpl.
  repeat split; try done. intros q Hq. by rewrite lookup_insert_ne.
Qed.

(** [openAndMigrate] returns the world that [connect] left, with the
    database of the connection stored, or that world as it is when
    [connect] failed. *)
Lemma openAndMigrate_world cfg pragmas w w' log r :
  openAndMigrate cfg pragmas w = (w', log, r) →
  ∃ w1 c,
    connect cfg w = (w1, c) ∧
    match c with
    | inl _ => w' = w1
    | inr _ => ∃ db, w' = store cfg db w1
    end.
Proof.
  unfold openAndMigrate.
  destruct (connect cfg w) as [w1 [e | db0]] eqn:Hc.
  { intros [= <- _ _]. by exists w1, (inl e). }
  intros Hopen. exists w1, (inr db0). split; [done |].
  destruct (negb (SkipMigrations cfg));
    [destruct (migrate db0 cfg (clock w1)) as [[db1 mlog] merr] |];
    simpl in Hopen; repeat case_match; simplify_eq; by eexists.
Qed.

Lemma openAndMigrate_frame cfg pragmas w w' log r :
  openAndMigrate cfg pragmas w = (w', log, r) →
  env w' = env w ∧ clock w' = clock w ∧
  (cfg_Path cfg = ":memory:" → files w' = files w) ∧
  (cfg_Path cfg ≠ ":memory:" → memory w' = memory w) ∧
  ∀ q, q ≠ cfg_Path cfg → files w' !! q = files w !! q.
Proof.
  intros (w1 & c & Hc & Hw')%openAndMigrate_world.
  destruct (connect_frame _ _ _ _ Hc) as (He & Hk & Hmem & Hm & _ & Hq).
  destruct c as [e | db0].
  { subst w'. repeat split; try done. intros Hpath. by rewrite Hm. }
  destruct Hw' as [db ->].
  destruct (store_frame cfg db w1) as (He' & Hk' & Hm' & Hmem' & Hq').
  split; [congruence |]. split; [congruence |]. split; [| split].
  - intros Hpath. rewrite Hm' by done. by rewrite Hm.
  - intros Hpath. rewrite Hmem' by done. done.
  - intros q Hne. rewrite Hq' by done. by apply Hq.
Qed.

End Frame.



(** ** A database that was created is opened *)

Section Reopen.
Context {P : Platform}.

Lemma openAndMigrate_ok_inv cfg pragmas w w' log db :
  openAndMigrate cfg pragmas w = (w', log, inr db) →
  ∃ w1 db0,
    connect cfg w = (w1, inr db0) ∧ w' = store cfg db w1 ∧
    (if SkipMigrations cfg then db = db0
     else ∃ mlog, migrate db0 cfg (clock w1) = (db, mlog, None)) ∧
    (RequiredSchemaVersion cfg = 0 ∨
     fetchSchemaVersion db = inr (Some (RequiredSchemaVersion cfg))).
Proof.
  unfold openAndMigrate.
  destruct (connect cfg w) as [w1 [e | db0]] eqn:Hc; [done |].
  intros Hopen. exists w1, db0. split; [done |].
  destruct (SkipMigrations cfg); simpl in Hopen.
  - destruct (RequiredSchemaVersion cfg =? 0) eqn:Hreq; simpl in Hopen.
    + injection Hopen as <- _ <-. apply Z.eqb_eq in Hreq. by repeat split; left.
    + destruct (fetchSchemaVersion db0) as [e | [v |]] eqn:Hv; try done.
      destruct (v =? RequiredSchemaVersion cfg) eqn:Hsame; simpl in Hopen;
        [| done].
      injection Hopen as <- _ <-. apply Z.eqb_eq in Hsame as ->.
      by repeat split; right.
  - destruct (migrate db0 cfg (clock w1)) as [[db1 mlog] [e |]] eqn:Hmig;
      simpl in Hopen; [done |].
    destruct (RequiredSchemaVersion cfg =? 0) eqn:Hreq; simpl in Hopen.
    + injection Hopen as <- _ <-. apply Z.eqb_eq in Hreq.
      split; [done |]. split; [by eexists | by left].
    + destruct (fetchSchemaVersion db1) as [e | [v |]] eqn:Hv; try done.
      destruct (v =? RequiredSchemaVersion cfg) eqn:Hsame; simpl in Hopen;
        [| done].
      injection Hopen as <- _ <-. apply Z.eqb_eq in Hsame as ->.
      split; [done |]. split; [by eexists | by right].
Qed.

Lemma openAndMigrate_settled cfg pragmas w db :
  isMemory cfg = false →
  files w !! cfg_Path cfg = Some (RegularFile (Some db)) →
  (SkipMigrations cfg = true ∨
   ∃ mlog, migrate db cfg (clock w) = (db, mlog, None) ∧
           ∀ p, applying p ∉ mlog) →
  (RequiredSchemaVersion cfg = 0 ∨
   fetchSchemaVersion db = inr (Some (RequiredSchemaVersion cfg))) →
  ∃ log,
    openAndMigrate cfg pragmas w = (w, log, inr db) ∧ ∀ p, applying p ∉ log.
Proof.
  intros Hmem%isMemory_false_path Hfile Hmig Hreq.
  unfold openAndMigrate, connect. rewrite Hmem, Hfile.
  assert (store cfg db w = w) as Hstore.
  { unfold store. rewrite Hmem. by apply world_with_own_file. }
  assert (∀ log : list LogEntry,
    (if negb (RequiredSchemaVersion cfg =? 0)
     then match fetchSchemaVersion db with
          | inl err => (w, log, inl (Wrap "fetch schema version" err))
          | inr None => (w, log, inl ErrNotInitialized)
          | inr (Some version) =>
              if negb (version =? RequiredSchemaVersion cfg)
              then (w, log,
                    inl (ErrVersionMismatch (RequiredSchemaVersion cfg) version))
              else (w, log, inr db)
          end
     else (w, log, inr db)) = (w, log, inr db)) as Hcheck.
  { intros log. destruct Hreq as [-> | Hv]; [done |].
    destruct (RequiredSchemaVersion cfg =? 0); simpl; [done |].
    by rewrite Hv, Z.eqb_refl. }
  destruct (SkipMigrations cfg) eqn:Hskip; simpl.
  - rewrite Hstore, Hcheck. eexists. split; [done |]. intros p Hin.
    by apply list_elem_of_singleton in Hin.
  - destruct Hmig as [? | (mlog & -> & Hmlog)]; [done |].
    rewrite Hstore, Hcheck. eexists. split; [done |].
    intros p [? | Hin]%elem_of_cons; [done |]. by apply (Hmlog p).
Qed.

End Reopen.



(** ** A database that was deleted is gone *)

(** X13: when [Delete] returns without error there is nothing at the
    location any more that [fileExists] sees, so that [Status] reports a
    database that is not initialized and [Open] fails, both leaving the
    world as it is. *)
Theorem deleted_database_is_gone {P : Platform}
    (path : string) (w w' : World) :
  Delete path w = (w', None) →
  fileExists (files w') path = false ∧
  ∀ cfg, cfg_Path cfg = path →
    Status cfg w' = (w', [], inr zeroStatus) ∧
    ∃ e, Open cfg w' = (w', [], inl e).
Proof.
  unfold Delete.
  destruct (isMemoryPath path) eqn:Hmem; [done |].
  destruct (validatePersistentPath (files w) path) as [e |]; [done |].
  intros Hdelete.
  assert (fileExists (files w') path = false) as Hgone.
  { destruct (fileExists (files w) path) eqn:Hex; cbn [negb] in Hdelete.
    - destruct (removeFiles path [""; "-shm"; "-wal"] (files w) None)
        as [fs [e |]]; [done |].
      destruct (fileExists fs path) eqn:Hex'; [done |].
      by injection Hdelete as <-.
    - by injection Hdelete as <-. }
  split; [done |]. intros cfg <-. split.
  - unfold Status.
    change (isMemory (set_SkipMigrations (defaults cfg)))
      with (isMemoryPath (cfg_Path cfg)).
    change (cfg_Path (set_SkipMigrations (defaults cfg))) with (cfg_Path cfg).
    by rewrite Hmem, Hgone.
  - unfold Open, openPersistent.
    change (isMemory (defaults cfg)) with (isMemoryPath (cfg_Path cfg)).
    change (cfg_Path (defaults cfg)) with (cfg_Path cfg).
    rewrite Hmem, Hgone. simpl.
    destruct (validatePersistentPath (files w') (cfg_Path cfg)); by eexists.
Qed.

Lemma deleted_database_is_gone_witness :
  ∃ w',
    Delete (P := Demo.platform) "/data/app.db" created_world = (w', None) ∧
    fileExists (files created_world) "/data/app.db" = true ∧
    fileExists (files w') "/data/app.db" = false ∧
    Open (P := Demo.platform) (Demo.config_of "/data/app.db" None) w'
    = (w', [], inl (ErrNotFound "/data/app.db")).
Proof.
  exists (Delete (P := Demo.platform) "/data/app.db" created_world).1.
  destruct (deleted_database_is_gone (P := Demo.platform) "/data/app.db"
              created_world
              (Delete (P := Demo.platform) "/data/app.db" created_world).1)
    as [Hgone _].
  - vm_compute. reflexivity.
  - split; [vm_compute; reflexivity |]. split; [vm_compute; reflexivity |].
    split; [exact Hgone |]. vm_compute. reflexivity.
Defined.

(** ** Locations of persistent databases *)

Lemma Ext_suffix path : ∃ stem, path = stem +:+ Filepath.Ext path.
Proof.
  induction path as [| c rest IH]; [by exists "" |]. simpl.
  destruct (Filepath.has_sep_or_dot rest).
  - destruct IH as [stem IH]. exists (String c stem).
    by rewrite append_cons, <- IH.
  - destruct (Ascii.eqb c "."); [by exists "" |].
    exists (String c rest). by rewrite append_empty_r.
Qed.

Lemma has_sep_or_dot_db stem : Filepath.has_sep_or_dot (stem +:+ ".db") = true.
Proof.
  induction stem as [| c stem IH]; [done |].
  rewrite append_cons. simpl. rewrite IH. by rewrite orb_true_r.
Qed.

Lemma Ext_db path : Filepath.Ext path = ".db" ↔ ends_with path ".db".
Proof.
  split.
  - intros Hext. destruct (Ext_suffix path) as [stem Hstem].
    exists stem. by rewrite <- Hext.
  - intros [stem ->]. induction stem as [| c stem IH]; [done |].
    rewrite append_cons. simpl. by rewrite has_sep_or_dot_db.
Qed.

Lemma IsAbs_slash path :
  Filepath.IsAbs path = true ↔ ∃ rest, path = String "/" rest.
Proof.
  unfold Filepath.IsAbs. destruct path as [| c rest]; simpl.
  - split; [done | by intros [? ?]].
  - assert (Strings.HasPrefix rest "" = true) as -> by (by destruct rest).
    rewrite andb_true_r. split.
    + intros ->%Ascii.eqb_eq. by eexists.
    + intros [rest' [= -> _]]. by apply Ascii.eqb_refl.
Qed.

(** X14: [validatePersistentPath] accepts a location exactly when it
    starts with a slash, ends in [.db] (nothing has to come before the
    dot), is not a directory, and its parent is a directory that is
    there. *)
Theorem valid_locations {P : Platform} (fs : gmap string Node) (path : string) :
  validatePersistentPath fs path = None ↔
  (∃ rest, path = String "/" rest) ∧ ends_with path ".db" ∧
  isDirectory fs path = false ∧ isDirectory fs (filepath_Dir path) = true.
Proof.
  destruct (validatePersistentPath_rules fs path) as (_ & _ & _ & _ & Hrules).
  rewrite Hrules, IsAbs_slash, Ext_db. done.
Qed.

Lemma valid_locations_witness :
  validatePersistentPath (P := Demo.platform)
    (files (Demo.world [] [("/data", Directory)])) "/data/.db" = None.
Proof.
  apply (valid_locations (P := Demo.platform)).
  split; [by exists "data/.db" |]. split; [by exists "/data/" |].
  split; vm_compute; reflexivity.
Defined.

(** ** Discovery and the order of the directory listing *)

Lemma listMigrationFiles_permuted fs fs' entries entries' log scripts :
  ReadDir fs = inr entries → ReadDir fs' = inr entries' →
  entries ≡ₚ entries' →
  listMigrationFiles fs = (log, inr scripts) →
  ∃ log', listMigrationFiles fs' = (log', inr scripts).
Proof.
  intros Hdir Hdir' Hperm (entries0 & Hdir0 & -> & Hnd)%listMigrationFiles_ok.
  rewrite Hdir in Hdir0. injection Hdir0 as <-.
  assert (omap script_of entries ≡ₚ omap script_of entries') as Hperm'
    by (by rewrite Hperm).
  assert (NoDup (map ID (omap script_of entries'))) as Hnd'.
  { by rewrite <- Hperm'. }
  assert (Forall well_formed (omap script_of entries')) as Hwf'.
  { apply Forall_forall. intros s (e & _ & He)%list_elem_of_omap.
    by eapply script_of_well_formed. }
  assert (Forall well_formed (omap script_of entries)) as Hwf.
  { apply Forall_forall. intros s (e & _ & He)%list_elem_of_omap.
    by eapply script_of_well_formed. }
  destruct (scanEntries_distinct entries' [] ∅ []) as [log' Hscan].
  { intros id. rewrite lookup_empty. simpl. split; [by intros [] |].
    by intros ?%elem_of_nil. }
  { done. }
  unfold listMigrationFiles. rewrite Hdir', Hscan. exists log'. simpl.
  do 2 f_equal.
  apply sort_Slice_scripts_unique; [done | done | |].
  - by rewrite sort_Slice_perm.
  - by apply sort_scripts.
Qed.

(** X15: what discovery returns does not depend on the order in which
    the directory is listed: two collections whose listings are
    permutations of each other give the same scripts in the same order,
    or both fail. *)
Theorem discovery_ignores_the_order_of_the_listing
    (fs fs' : FS) (entries entries' : list DirEntry) :
  ReadDir fs = inr entries → ReadDir fs' = inr entries' →
  entries ≡ₚ entries' →
  ∀ scripts,
    (listMigrationFiles fs).2 = inr scripts ↔
    (listMigrationFiles fs').2 = inr scripts.
Proof.
  intros Hdir Hdir' Hperm scripts. split.
  - destruct (listMigrationFiles fs) as [log r] eqn:Hlist. simpl. intros ->.
    destruct (listMigrationFiles_permuted _ _ _ _ _ _ Hdir Hdir' Hperm Hlist)
      as [log' ->].
    done.
  - destruct (listMigrationFiles fs') as [log r] eqn:Hlist. simpl. intros ->.
    symmetry in Hperm.
    destruct (listMigrationFiles_permuted _ _ _ _ _ _ Hdir' Hdir Hperm Hlist)
      as [log' ->].
    done.
Qed.

Lemma discovery_ignores_the_order_of_the_listing_witness :
  (listMigrationFiles
     (Demo.collection
        [Demo.file "20260101000001_create_users.sql"; Demo.file "README.md";
         Demo.dir "sub"; Demo.file "20260101000002_create_posts.sql"]
        [])).2
  = inr [Later.script_users; Later.script_posts].
Proof.
  apply (discovery_ignores_the_order_of_the_listing Demo.valid
           (Demo.collection
              [Demo.file "20260101000001_create_users.sql";
               Demo.file "README.md"; Demo.dir "sub";
               Demo.file "20260101000002_create_posts.sql"] [])
           [Demo.file "20260101000002_create_posts.sql"; Demo.dir "sub";
            Demo.file "README.md"; Demo.file "20260101000001_create_users.sql"]
           [Demo.file "20260101000001_create_users.sql"; Demo.file "README.md";
            Demo.dir "sub"; Demo.file "20260101000002_create_posts.sql"]).
  - reflexivity.
  - reflexivity.
  - apply (Permutation_rev
             [Demo.file "20260101000002_create_posts.sql"; Demo.dir "sub";
              Demo.file "README.md";
              Demo.file "20260101000001_create_users.sql"]).
  - vm_compute. reflexivity.
Defined.

(** ** A collection without scripts *)

Lemma scanEntries_none entries scripts (seenIDs : gmap Z string) log :
  (∀ e, e ∈ entries → script_of e = None) →
  ∃ log', scanEntries entries scripts seenIDs log = (log', inr scripts).
Proof.
  revert log. induction entries as [| e entries IH]; intros log Hnone.
  { by eexists. }
  destruct (scanEntries_skip e entries scripts seenIDs log) as [log1 ->].
  { apply Hnone. left. }
  apply IH. intros e' He'. apply Hnone. by right.
Qed.

(** X16: a collection none of whose entries is the file of a script
    (directories, other names) is valid: discovery returns no script and
    no error, and on an initialized database a run of [migrate] says so in
    its last log entry and returns without error, the database as it
    was. *)
Theorem collection_without_scripts_is_valid {P : Platform}
    (fs : FS) (entries : list DirEntry) :
  ReadDir fs = inr entries →
  (∀ e, e ∈ entries → script_of e = None) →
  (∃ log, listMigrationFiles fs = (log, inr []) ∧ Forall skip_notice log) ∧
  ∀ db cfg now v,
    Migrations cfg = Some fs →
    fetchSchemaVersion db = inr (Some v) →
    ∃ log,
      migrate db cfg now = (db, log, None) ∧
      last log = Some (Debug "no user migrations to apply" []) ∧
      ∀ p, applying p ∉ log.
Proof.
  intros Hdir Hnone.
  destruct (scanEntries_none entries [] ∅ [] Hnone) as [llog Hscan].
  assert (listMigrationFiles fs = (llog, inr [])) as Hlist.
  { unfold listMigrationFiles. by rewrite Hdir, Hscan. }
  pose proof (listMigrationFiles_log _ _ _ Hlist) as Hllog.
  split; [by exists llog |].
  intros db cfg now v Hfs Hv. unfold migrate. rewrite Hv, Hfs, Hlist. simpl.
  eexists. split; [done |]. split.
  - rewrite app_comm_cons. apply last_snoc.
  - intros p [? | Hin]%elem_of_cons; [done |].
    apply elem_of_app in Hin as [Hin | Hin].
    + by eapply applying_not_skip_notice.
    + by apply list_elem_of_singleton in Hin.
Qed.

Lemma collection_without_scripts_is_valid_witness :
  ∃ log,
    listMigrationFiles
      (Demo.collection [Demo.dir "20260101000003_c.sql"; Demo.file "README.md"]
         [])
    = (log, inr []) ∧ Forall skip_notice log.
Proof.
  destruct (collection_without_scripts_is_valid (P := Demo.platform)
              (Demo.collection
                 [Demo.dir "20260101000003_c.sql"; Demo.file "README.md"] [])
              [Demo.dir "20260101000003_c.sql"; Demo.file "README.md"])
    as [Hlist _].
  - reflexivity.
  - intros e He. apply elem_of_cons in He as [-> | He]; [reflexivity |].
    apply list_elem_of_singleton in He as ->. vm_compute. reflexivity.
  - exact Hlist.
Defined.

(** ** In-memory databases outside production *)



(** ** Opening without migrating *)



(** ** Connection strings *)

Lemma append_assoc s t u : (s +:+ t) +:+ u = s +:+ t +:+ u.
Proof.
  induction s as [| c s IH]; [done |]. by rewrite !append_cons, IH.
Qed.

Lemma writePragmas_later path i pragmas sb :
  (String.eqb path ":memory:" || (0 <? i)%nat) = true →
  writePragmas path i pragmas sb
  = sb +:+ join (map (λ p, "&" +:+ modernc_param p) pragmas).
Proof.
  revert i sb. induction pragmas as [| p pragmas IH]; intros i sb Hi.
  { simpl. by rewrite append_empty_r. }
  cbn [writePragmas map join]. rewrite Hi. rewrite IH.
  - fold (modernc_param p). by rewrite !append_assoc.
  - apply orb_true_intro. by right.
Qed.

Lemma Mattn_writePragmas_later path i pragmas sb :
  (String.eqb path ":memory:" || (0 <? i)%nat) = true →
  Mattn.writePragmas path i pragmas sb
  = sb +:+ join (map (λ p, "&" +:+ mattn_param p) pragmas).
Proof.
  revert i sb. induction pragmas as [| p pragmas IH]; intros i sb Hi.
  { simpl. by rewrite append_empty_r. }
  cbn [Mattn.writePragmas map join]. rewrite Hi. rewrite IH.
  - fold (mattn_param p). by rewrite !append_assoc.
  - apply orb_true_intro. by right.
Qed.

(** X19: the connection string that [buildDSN] builds, for both drivers:
    for the location [:memory:] the shared-cache name followed by every
    parameter after an ampersand; for any other location, also one that
    [isMemory] takes for in-memory, [file:] and the location as it is,
    followed by the parameters, the first after a question mark and the
    others after an ampersand.  The drivers differ in how a parameter is
    written only. *)
Theorem connection_strings (path : string) (pragmas : list pragma) :
  buildDSN ":memory:" pragmas
  = "file::memory:?cache=shared"
      +:+ join (map (λ p, "&" +:+ modernc_param p) pragmas) ∧
  Mattn.buildDSN ":memory:" pragmas
  = "file::memory:?cache=shared"
      +:+ join (map (λ p, "&" +:+ mattn_param p) pragmas) ∧
  (path ≠ ":memory:" →
     buildDSN path pragmas
     = "file:" +:+ path +:+ query "?" (map modernc_param pragmas) ∧
     Mattn.buildDSN path pragmas
     = "file:" +:+ path +:+ query "?" (map mattn_param pragmas)).
Proof.
  split; [by apply writePragmas_later |].
  split; [by apply Mattn_writePragmas_later |].
  intros Hpath%String.eqb_neq. unfold buildDSN, Mattn.buildDSN.
  rewrite Hpath. destruct pragmas as [| p pragmas]; simpl.
  { by rewrite append_empty_r. }
  rewrite Hpath. simpl.
  rewrite writePragmas_later, Mattn_writePragmas_later
    by (apply orb_true_intro; by right).
  rewrite !map_map. fold (modernc_param p). fold (mattn_param p).
  rewrite !append_assoc. split; reflexivity.
Qed.

Lemma connection_strings_witness :
  buildDSN "/data/app.db" persistentPragmas
  = "file:/data/app.db?_pragma=foreign_keys(ON)&_pragma=busy_timeout(5000)&_pragma=journal_mode(WAL)&_pragma=synchronous(NORMAL)&_pragma=temp_store(FILE)&_pragma=locking_mode(NORMAL)" ∧
  Mattn.buildDSN "file::memory:" Mattn.persistentPragmas
  = "file:file::memory:?_foreign_keys=1&_busy_timeout=5000&_journal_mode=WAL&_synchronous=NORMAL" ∧
  isMemoryPath "file::memory:" = true.
Proof.
  destruct (connection_strings "/data/app.db" persistentPragmas)
    as (_ & _ & Hfile).
  destruct (connection_strings "file::memory:" Mattn.persistentPragmas)
    as (_ & _ & Hmem).
  destruct Hfile as [Hfile _]; [intros [=] |].
  destruct Hmem as [_ Hmem]; [intros [=] |].
  split; [rewrite Hfile; reflexivity |].
  split; [rewrite Hmem; reflexivity | reflexivity].
Defined.

(** ** What [Create] leaves behind *)

Section Stored.
Context {P : Platform}.

Lemma validatePersistentPath_stored fs fs' path content :
  validatePersistentPath fs path = None →
  fs' !! path = Some (RegularFile content) →
  (∀ q, q ≠ path → fs' !! q = fs !! q) →
  validatePersistentPath fs' path = None.
Proof.
  intros (Habs & Hext & Hnodir & Hdir)%validatePersistentPath_rules Hfile Hframe.
  apply validatePersistentPath_rules. repeat split; try done.
  - unfold isDirectory. by rewrite Hfile.
  - unfold isDirectory in *.
    destruct (decide (filepath_Dir path = path)) as [Heq | Hne].
    + rewrite Heq in Hdir. by rewrite Hnodir in Hdir.
    + by rewrite Hframe.
Qed.

End Stored.



(** ** A removal that goes through *)

Section Removal.
Context {P : Platform}.

Lemma fileExists_delete fs name q :
  fileExists fs q = false → fileExists (delete name fs) q = false.
Proof.
  unfold fileExists. destruct (decide (q = name)) as [-> | Hne].
  - by rewrite lookup_delete_eq.
  - by rewrite lookup_delete_ne.
Qed.

Lemma remove_one_clean name fs :
  os_Remove name fs = (delete name fs, None) →
  isDirectory fs name = false →
  ∃ fs',
    remove_one name fs = (fs', None) ∧
    fileExists fs' name = false ∧
    (∀ q, q ≠ name → fs' !! q = fs !! q) ∧
    (∀ q, fileExists fs q = false → fileExists fs' q = false) ∧
    (∀ q, isDirectory fs q = false → isDirectory fs' q = false).
Proof.
  intros Hremove Hnodir. unfold remove_one.
  destruct (fileExists fs name) eqn:Hex; simpl.
  - assert (isRegularFile fs name = true) as ->.
    { unfold fileExists, isDirectory, isRegularFile in *.
      by destruct (fs !! name) as [[| |] |]. }
    simpl. rewrite Hremove. exists (delete name fs).
    split; [done |]. split; [| split; [| split]].
    + unfold fileExists. by rewrite lookup_delete_eq.
    + intros q Hq. by rewrite lookup_delete_ne.
    + intros q. apply fileExists_delete.
    + intros q. unfold isDirectory. destruct (decide (q = name)) as [-> | Hne].
      * by rewrite lookup_delete_eq.
      * by rewrite lookup_delete_ne.
  - exists fs. by repeat split.
Qed.

End Removal.

(** X21: when [os.Remove] removes the three files, the location is valid
    and holds a regular file, and neither sidecar name is a directory,
    [Delete] returns without error; afterwards [fileExists] sees none of
    the three names, and every other path is as it was. *)
Theorem Delete_removes_the_database_and_its_sidecars {P : Platform}
    (path : string) (w : World) :
  (∀ suffix fs, suffix ∈ [""; "-shm"; "-wal"] →
     os_Remove (path +:+ suffix) fs = (delete (path +:+ suffix) fs, None)) →
  isMemoryPath path = false →
  validatePersistentPath (files w) path = None →
  isRegularFile (files w) path = true →
  (∀ suffix, suffix ∈ ["-shm"; "-wal"] →
     isDirectory (files w) (path +:+ suffix) = false) →
  ∃ w',
    Delete path w = (w', None) ∧
    (∀ suffix, suffix ∈ [""; "-shm"; "-wal"] →
       fileExists (files w') (path +:+ suffix) = false) ∧
    ∀ q, (∀ suffix, suffix ∈ [""; "-shm"; "-wal"] → q ≠ path +:+ suffix) →
      files w' !! q = files w !! q.
Proof.
  intros Hremove Hmem Hval Hreg Hside. unfold Delete. rewrite Hmem, Hval.
  assert (fileExists (files w) path = true) as ->.
  { unfold fileExists, isRegularFile in *.
    by destruct (files w !! path) as [[| |] |]. }
  assert (isDirectory (files w) (path +:+ "") = false) as Hnodir0.
  { rewrite append_empty_r. unfold isDirectory, isRegularFile in *.
    by destruct (files w !! path) as [[| |] |]. }
  destruct (remove_one_clean (path +:+ "") (files w))
    as (fs1 & Hone1 & Hgone1 & Hframe1 & Hkeep1 & Hdir1);
    [apply Hremove; left | done |].
  destruct (remove_one_clean (path +:+ "-shm") fs1)
    as (fs2 & Hone2 & Hgone2 & Hframe2 & Hkeep2 & Hdir2);
    [apply Hremove; right; left | apply Hdir1, Hside; left |].
  destruct (remove_one_clean (path +:+ "-wal") fs2)
    as (fs3 & Hone3 & Hgone3 & Hframe3 & Hkeep3 & Hdir3);
    [apply Hremove; right; right; left
    | apply Hdir2, Hdir1, Hside; right; left |].
  simpl negb. cbv iota.
  rewrite !removeFiles_cons. rewrite Hone1. simpl fst. simpl snd.
  rewrite Hone2. simpl fst. simpl snd. rewrite Hone3. simpl.
  assert (fileExists fs3 path = false) as Hgone.
  { apply Hkeep3, Hkeep2. by rewrite append_empty_r in Hgone1. }
  rewrite Hgone. eexists. split; [done |]. simpl. split.
  - intros suffix Hs. repeat (apply elem_of_cons in Hs as [-> | Hs]).
    + by rewrite append_empty_r.
    + by apply Hkeep3.
    + done.
    + by apply elem_of_nil in Hs.
  - intros q Hq.
    rewrite Hframe3, Hframe2, Hframe1;
      [done | apply Hq; left | apply Hq; right; left
      | apply Hq; right; right; left].
Qed.

Lemma Delete_removes_the_database_and_its_sidecars_witness :
  ∃ w',
    Delete (P := Demo.platform) "/data/app.db" created_world = (w', None) ∧
    fileExists (files w') "/data/app.db" = false ∧
    files w' !! "/data" = Some Directory.
Proof.
  destruct (Delete_removes_the_database_and_its_sidecars (P := Demo.platform)
              "/data/app.db" created_world)
    as (w' & Hdelete & Hgone & Hframe).
  - intros suffix fs Hs.
    repeat (apply elem_of_cons in Hs as [-> | Hs]);
      try reflexivity; by apply elem_of_nil in Hs.
  - reflexivity.
  - vm_compute. reflexivity.
  - vm_compute. reflexivity.
  - intros suffix Hs.
    repeat (apply elem_of_cons in Hs as [-> | Hs]);
      try (vm_compute; reflexivity); by apply elem_of_nil in Hs.
  - exists w'. split; [exact Hdelete |]. split.
    + apply (Hgone ""). left.
    + rewrite Hframe; [vm_compute; reflexivity |].
      intros suffix Hs.
      repeat (apply elem_of_cons in Hs as [-> | Hs]);
        try (intros [=]); by apply elem_of_nil in Hs.
Defined.

(** ** A database that [Open] has migrated *)

Section Migrated.
Context {P : Platform}.


Lemma getStatus_settled db cfg v :
  fetchSchemaVersion db = inr (Some v) →
  (∀ fs, Migrations cfg = Some fs →
     ∃ llog scripts,
       listMigrationFiles fs = (llog, inr scripts) ∧
       ∀ s, s ∈ scripts → applied_path db (Path s)) →
  ∃ slog st,
    getStatus db cfg = (slog, inr st) ∧
    IsInitialized st = true ∧ Pending st = [] ∧ SchemaVersion st = v.
Proof.
  intros Hv Hall. unfold getStatus. rewrite Hv.
  destruct (fetchAppliedMigrations_total db) as [applied Happlied].
  rewrite Happlied.
  destruct (Migrations cfg) as [fs |] eqn:Hfs; [| by eexists _, _].
  destruct (Hall fs eq_refl) as (llog & scripts & Hlist & Hscripts).
  rewrite Hlist. eexists _, _. split; [done |]. simpl.
  split; [done |]. split; [| done].
  apply collectPending_nil. intros s Hs. apply index_appliedPathsOf.
  apply (fetchAppliedMigrations_paths _ _ _ Happlied). by apply Hscripts.
Qed.

End Migrated.



(** X23: when the scripts of the collection leave the infrastructure
    tables alone, a persistent database that [Open] has opened with
    migrations is up to date: [Status] under the same configuration then
    reports it initialized, with the version of the database that [Open]
    returned, and with no script pending, and leaves the world as it
    is. *)
Theorem opened_database_has_nothing_pending {P : Platform}
    (cfg : Config) (w w' : World) (log : list LogEntry) (db : DB) :
  tidy_collection cfg →
  isMemory cfg = false →
  SkipMigrations cfg = false →
  Open cfg w = (w', log, inr db) →
  ∃ slog st,
    Status cfg w' = (w', slog, inr st) ∧
    IsInitialized st = true ∧ Pending st = [] ∧
    fetchSchemaVersion db = inr (Some (SchemaVersion st)).
Proof.
  intros Htidy Hmem Hskip. unfold Open, openPersistent.
  change (isMemory (defaults cfg)) with (isMemory cfg).
  change (cfg_Path (defaults cfg)) with (cfg_Path cfg).
  rewrite Hmem.
  destruct (validatePersistentPath (files w) (cfg_Path cfg)) as [e |] eqn:Hval;
    [done |].
  destruct (fileExists (files w) (cfg_Path cfg)) eqn:Hex; [| done]. simpl.
  destruct (openAndMigrate (defaults cfg) persistentPragmas w)
    as [[w1 olog] [e1 | db1]] eqn:Hopen; [done |].
  intros [= <- _ ->].
  pose proof (openAndMigrate_file _ _ _ _ _ _ Hmem Hopen) as Hfiles.
  assert (files w1 !! cfg_Path cfg = Some (RegularFile (Some db))) as Hfile1.
  { rewrite Hfiles. apply lookup_insert_eq. }
  pose proof (openAndMigrate_frame _ _ _ _ _ _ Hopen)
    as (_ & _ & _ & _ & Hframe).
  pose proof (validatePersistentPath_stored _ _ _ _ Hval Hfile1 Hframe)
    as Hval1.
  destruct (held_open_frame (cfg_Path cfg) w1) as (_ & _ & _ & Hsome & _).
  set (w' := held_open (cfg_Path cfg) w1) in *.
  pose proof (Hsome _ _ Hfile1) as Hfile.
  assert (validatePersistentPath (files w') (cfg_Path cfg) = None) as Hval'.
  { apply validatePersistentPath_rules in Hval1
      as (Habs & Hext & Hnodir & Hdir).
    apply validatePersistentPath_rules. repeat split; try done.
    - unfold isDirectory. by rewrite Hfile.
    - unfold isDirectory in *.
      destruct (files w1 !! filepath_Dir (cfg_Path cfg)) as [node |] eqn:Hnode;
        [| done].
      by rewrite (Hsome _ _ Hnode). }
  apply openAndMigrate_ok_inv in Hopen
    as (w0 & db0 & Hconnect & Hw1 & Hmig & Hreq).
  change (SkipMigrations (defaults cfg)) with (SkipMigrations cfg) in Hmig.
  rewrite Hskip in Hmig. destruct Hmig as [mlog Hmig].
  assert (tidy_collection (defaults cfg)) as Htidy' by exact Htidy.
  destruct (migrate_ok_settles _ _ _ _ _ Htidy' Hmig) as [[v Hv] Hall].
  destruct (openAndMigrate_settled (set_SkipMigrations (defaults cfg))
              persistentPragmas w' db) as (log2 & Hopen2 & _);
    [done | done | by left | done |].
  destruct (getStatus_settled db (set_SkipMigrations (defaults cfg)) v Hv Hall)
    as (slog & st & Hstatus & Hinit & Hpending & Hversion).
  unfold Status, openPersistent.
  change (isMemory (set_SkipMigrations (defaults cfg))) with (isMemory cfg).
  change (cfg_Path (set_SkipMigrations (defaults cfg))) with (cfg_Path cfg).
  rewrite Hmem, Hval'. unfold fileExists. rewrite Hfile. simpl.
  rewrite Hopen2, Hstatus. eexists _, st. split; [done |].
  split; [done |]. split; [done |]. by rewrite Hversion.
Qed.

Lemma opened_database_has_nothing_pending_witness :
  ∃ w' db slog st,
    (Open (P := Demo.platform)
       (Demo.config_of "/data/locked.db" (Some Demo.valid)) Demo.locked_world).1.1
    = w' ∧
    (Open (P := Demo.platform)
       (Demo.config_of "/data/locked.db" (Some Demo.valid)) Demo.locked_world).2
    = inr db ∧
    Status (P := Demo.platform)
      (Demo.config_of "/data/locked.db" (Some Demo.valid)) w'
    = (w', slog, inr st) ∧
    IsInitialized st = true ∧ Pending st = [] ∧
    SchemaVersion st = 20260101000002.
Proof.
  destruct (opened_database_has_nothing_pending (P := Demo.platform)
              (Demo.config_of "/data/locked.db" (Some Demo.valid))
              Demo.locked_world
              (Open (P := Demo.platform)
                 (Demo.config_of "/data/locked.db" (Some Demo.valid))
                 Demo.locked_world).1.1
              (Open (P := Demo.platform)
                 (Demo.config_of "/data/locked.db" (Some Demo.valid))
                 Demo.locked_world).1.2
              Demo.migrated)
    as (slog & st & Hstatus & Hinit & Hpending & Hversion).
  - apply Demo_valid_tidy.
  - reflexivity.
  - reflexivity.
  - vm_compute. reflexivity.
  - eexists _, Demo.migrated, slog, st. split; [reflexivity |].
    split; [vm_compute; reflexivity |]. split; [exact Hstatus |].
    split; [exact Hinit |]. split; [exact Hpending |].
    assert (inr (Some 20260101000002) = inr (A := error) (Some (SchemaVersion st)))
      as Heq by (rewrite <- Hversion; vm_compute; reflexivity).
    by injection Heq as ->.
Defined.
